(** * dcfuncs/configs.py: reading and combining yaml configuration files

    A shallow embedding of [get_configs] and of its two helpers [rupdate]
    and [finaldict], with the part of [dcfuncs/util.py] that it calls
    ([zz]) and the part of [pathlib] and [itertools] that it uses.

    The definitions come first.  The helpers are embedded twice: on
    values (what a document holds, dicts as their items in insertion
    order), which is enough for what is returned, raised and printed;
    and, in [Module Store], on a store of objects, where two references
    to one dict or list can be told from two equal copies.  The
    properties follow, those of the values first, then those of the
    store, the proof that the second embedding computes the first, and
    last further properties of [get_configs] and its helpers.

    Of [dcfuncs/util.py] the file also embeds [stoi] and the classes
    [NTVI] and [CpuTimer], with their properties at the end. *)

From Stdlib Require Import ZArith Lia Ascii String Sorted.
From stdpp Require Import base list strings.

Set Warnings "-register-all".
Set Default Proof Using "Type".
Open Scope string_scope.
Open Scope list_scope.

(** ** Python values

    What [yaml.safe_load_all] hands over: null, booleans, integers,
    floats, strings, sequences and mappings.  A float is carried as its
    binary64 bit pattern; no operation of the module looks into it.

    A [dict] is kept as the list of its items in insertion order, as
    CPython iterates them: [rupdate] walks [dict2.items()] and may raise
    at any item, so which exception a call ends with depends on that
    order.  Keys are strings, and a well-formed [dict] has no key twice
    ([wf]). *)

Inductive value : Type :=
| VNone
| VBool (b : bool)
| VInt (n : Z)
| VFloat (bits : Z)
| VStr (s : string)
| VList (elems : list value)
| VDict (items : list (string * value)).

Abbreviation dict_items := (list (string * value)).

Definition isinstance_dict (v : value) : bool :=
  match v with VDict _ => true | _ => false end.

(** [values_ind]: induction on values that reaches through [VList] and
    [VDict]. *)
Section value_induction.
Variable P : value -> Prop.
Hypothesis HNone : P VNone.
Hypothesis HBool : forall b, P (VBool b).
Hypothesis HInt : forall n, P (VInt n).
Hypothesis HFloat : forall f, P (VFloat f).
Hypothesis HStr : forall s, P (VStr s).
Hypothesis HList : forall elems, Forall P elems -> P (VList elems).
Hypothesis HDict :
  forall items, Forall (fun kv => P (snd kv)) items -> P (VDict items).

Fixpoint values_ind (v : value) : P v :=
  match v with
  | VNone => HNone
  | VBool b => HBool b
  | VInt n => HInt n
  | VFloat f => HFloat f
  | VStr s => HStr s
  | VList elems =>
      HList elems
        ((fix go (l : list value) : Forall P l :=
            match l with
            | [] => @List.Forall_nil _ P
            | x :: r => @List.Forall_cons _ P x r (values_ind x) (go r)
            end) elems)
  | VDict items =>
      HDict items
        ((fix go (l : dict_items) : Forall (fun kv => P (snd kv)) l :=
            match l with
            | [] => @List.Forall_nil _ _
            | (k, x) :: r =>
                @List.Forall_cons _ (fun kv => P (snd kv)) (k, x) r
                  (values_ind x) (go r)
            end) items)
  end.
End value_induction.

(** ** Exceptions and the two effects of the module

    A call either returns or ends with an exception ([result]); the
    top-level function also prints ([io] pairs the lines printed so far
    with the result). *)

(** The fields of an f-string, kept apart instead of rendered. *)
Inductive piece : Type :=
| PStr (s : string)
| PNat (n : nat)
| PTypes (types : list string)
| PValue (v : value).

Definition line := list piece.

Inductive exn : Type :=
| AttributeError
| TypeError
| ValueError
| KeyError
| IndexError
| FileNotFoundError (path : string)
| YAMLError
| RecursionError
| SystemExit (zzmsg : line).

Inductive result (A : Type) : Type :=
| Ok (a : A)
| Err (e : exn).
Arguments Ok {A} a.
Arguments Err {A} e.

Definition bind {A B} (m : result A) (k : A -> result B) : result B :=
  match m with
  | Ok a => k a
  | Err e => Err e
  end.

Declare Scope py_scope.
Delimit Scope py_scope with py.
Notation "x <- m ;; k" := (bind m (fun x => k))
  (at level 100, m at next level, right associativity) : py_scope.
Open Scope py_scope.

Fixpoint mapM {A B} (f : A -> result B) (l : list A) : result (list B) :=
  match l with
  | [] => Ok []
  | x :: rest => y <- f x ;; ys <- mapM f rest ;; Ok (y :: ys)
  end.

(** ** dict and duck-typed method calls *)

Fixpoint dict_get {V} (key : string) (items : list (string * V))
  : option V :=
  match items with
  | [] => None
  | (k, v) :: rest => if String.eqb k key then Some v else dict_get key rest
  end.

(** [d[key] = val]: an existing key keeps its place, a new key goes
    last. *)
Fixpoint dict_set {V} (key : string) (val : V) (items : list (string * V))
  : list (string * V) :=
  match items with
  | [] => [(key, val)]
  | (k, v) :: rest =>
      if String.eqb k key then (k, val) :: rest
      else (k, v) :: dict_set key val rest
  end.

(** [x.copy()]: dicts and lists have the method (a shallow copy, which
    up to [==] is the value itself); None, bool, int, float and str do
    not. *)
Definition copy (x : value) : result value :=
  match x with
  | VDict _ | VList _ => Ok x
  | _ => Err AttributeError
  end.

(** [x.items()] *)
Definition items_of (x : value) : result dict_items :=
  match x with
  | VDict items => Ok items
  | _ => Err AttributeError
  end.

(** [x.get(key, default)] *)
Definition get (x : value) (key : string) (default : value) : result value :=
  match x with
  | VDict items =>
      Ok (match dict_get key items with Some v => v | None => default end)
  | _ => Err AttributeError
  end.

(** [x[key] = val] with a string key: only a dict takes it. *)
Definition setitem (x : value) (key : string) (val : value) : result value :=
  match x with
  | VDict items => Ok (VDict (dict_set key val items))
  | _ => Err TypeError
  end.

(** ** The helpers of [get_configs] *)

(** [rupdate(dict1,dict2)]: "Returns a copy of dict1 recursively updated
    by dict2."  Neither argument is checked to be a dict: the recursive
    call passes whatever [dict1c.get(key,{})] finds. *)
Fixpoint rupdate (dict1 dict2 : value) {struct dict2} : result value :=
  dict1c <- copy dict1 ;;
  match dict2 with
  | VDict items =>
      (fix loop (items : dict_items) (dict1c : value) : result value :=
         match items with
         | [] => Ok dict1c
         | (key, val) :: rest =>
             match val with
             | VDict _ =>
                 cur <- get dict1c key (VDict []) ;;
                 new <- rupdate cur val ;;
                 dict1c <- setitem dict1c key new ;;
                 loop rest dict1c
             | _ =>
                 dict1c <- setitem dict1c key val ;;
                 loop rest dict1c
             end
         end) items dict1c
  | _ => Err AttributeError
  end.

(** The [for key,val in dict2.items()] loop of [rupdate], by itself. *)
Fixpoint rupdate_loop (items : dict_items) (dict1c : value) : result value :=
  match items with
  | [] => Ok dict1c
  | (key, val) :: rest =>
      if isinstance_dict val then
        cur <- get dict1c key (VDict []) ;;
        new <- rupdate cur val ;;
        dict1c <- setitem dict1c key new ;;
        rupdate_loop rest dict1c
      else
        dict1c <- setitem dict1c key val ;;
        rupdate_loop rest dict1c
  end.

(** [finaldict(dicts)]: "Successively update an intially empty dict with
    the members of the input list of dicts." *)
Fixpoint finaldict_from (fd : value) (dicts : list value) : result value :=
  match dicts with
  | [] => Ok fd
  | d :: rest => fd <- rupdate fd d ;; finaldict_from fd rest
  end.

Definition finaldict (dicts : list value) : result value :=
  finaldict_from (VDict []) dicts.

(** [itertools.product] of the pools, as the library documents it:
    [result = [[]]], then for each pool
    [result = [x+[y] for x in result for y in pool]]. *)
Definition product {A} (pools : list (list A)) : list (list A) :=
  fold_left
    (fun result pool =>
       flat_map (fun x => map (fun y => x ++ [y]) pool) result)
    pools [[]].

(** ** pathlib, as far as [Path(cfile).with_suffix('.yaml')] goes

    POSIX flavour: a path is its root (none, one slash or two) and its
    components; empty components and single dots are dropped when the
    string is parsed. *)

Record Path : Type := mkPath { root : string; parts : list string }.

(** [s.split('/')] *)
Fixpoint split_sep (s : string) : list string :=
  match s with
  | EmptyString => [""]
  | String c rest =>
      if Ascii.eqb c "/"%char then "" :: split_sep rest
      else match split_sep rest with
           | [] => [String c ""]
           | w :: ws => String c w :: ws
           end
  end.

(** [s.lstrip('/')] *)
Fixpoint lstrip_sep (s : string) : string :=
  match s with
  | EmptyString => ""
  | String c rest => if Ascii.eqb c "/"%char then lstrip_sep rest else s
  end.

Definition splitroot (part : string) : string * string :=
  match part with
  | String c _ =>
      if Ascii.eqb c "/"%char then
        let stripped := lstrip_sep part in
        if Nat.eqb (String.length part - String.length stripped) 2
        then ("//", stripped) else ("/", stripped)
      else ("", part)
  | EmptyString => ("", part)
  end.

Definition keeps_part (x : string) : bool :=
  negb (String.eqb x "") && negb (String.eqb x ".").

Definition parse_path (s : string) : Path :=
  let '(rt, rel) := splitroot s in
  mkPath rt (List.filter keeps_part (split_sep rel)).

Definition name (p : Path) : string := List.last (parts p) "".

(** [s.rfind(c)] *)
Fixpoint rfind (c : Ascii.ascii) (s : string) : option nat :=
  match s with
  | EmptyString => None
  | String a rest =>
      match rfind c rest with
      | Some i => Some (S i)
      | None => if Ascii.eqb a c then Some 0 else None
      end
  end.

Definition suffix_of (nm : string) : string :=
  match rfind "."%char nm with
  | Some i =>
      if (0 <? i)%nat && (i <? String.length nm - 1)%nat
      then substring i (String.length nm - i) nm else ""
  | None => ""
  end.

Definition suffix (p : Path) : string := suffix_of (name p).

Fixpoint contains_char (c : Ascii.ascii) (s : string) : bool :=
  match s with
  | EmptyString => false
  | String a rest => Ascii.eqb a c || contains_char c rest
  end.

Definition startswith_dot (s : string) : bool :=
  match s with String "."%char _ => true | _ => false end.

Definition with_suffix (p : Path) (sfx : string) : result Path :=
  if contains_char "/"%char sfx then Err ValueError
  else if (negb (String.eqb sfx "") && negb (startswith_dot sfx))
          || String.eqb sfx "."
  then Err ValueError
  else
    let nm := name p in
    if String.eqb nm "" then Err ValueError
    else
      let old_suffix := suffix p in
      let nm' :=
        if String.eqb old_suffix "" then nm +:+ sfx
        else substring 0 (String.length nm - String.length old_suffix) nm
             +:+ sfx in
      Ok (mkPath (root p) (removelast (parts p) ++ [nm'])).

(** [sep.join(l)] *)
Fixpoint join (sep : string) (l : list string) : string :=
  match l with
  | [] => ""
  | [x] => x
  | x :: rest => x +:+ sep +:+ join sep rest
  end.

Definition str (p : Path) : string :=
  match root p, parts p with
  | "", [] => "."
  | rt, ps => rt +:+ join "/" ps
  end.

(** ** Printing and raising *)

Definition io (A : Type) : Type := list line * result A.

Definition io_ret {A} (a : A) : io A := ([], Ok a).

Definition io_bind {A B} (m : io A) (k : A -> io B) : io B :=
  match m with
  | (out, Ok a) => let '(out', r) := k a in (out ++ out', r)
  | (out, Err e) => (out, Err e)
  end.

Definition lift {A} (r : result A) : io A := ([], r).
Definition print (l : line) : io unit := ([l], Ok tt).
Definition raise {A} (e : exn) : io A := ([], Err e).

Declare Scope io_scope.
Delimit Scope io_scope with io.
Notation "x <- m ;; k" := (io_bind m (fun x => k))
  (at level 100, m at next level, right associativity) : io_scope.
Notation "m ;; k" := (io_bind m (fun _ => k))
  (at level 100, right associativity) : io_scope.

(** [for x in l: body(x)] *)
Fixpoint for_each {A} (l : list A) (body : A -> io unit) : io unit :=
  match l with
  | [] => io_ret tt
  | x :: rest => (body x ;; for_each rest body)%io
  end.

(** [if c: body] *)
Definition when (c : bool) (body : io unit) : io unit :=
  if c then body else io_ret tt.

Definition stdout {A} (m : io A) : list line := fst m.
Definition outcome {A} (m : io A) : result A := snd m.

(** ** util.py *)

Definition PREFIX : string := "- ".

(** [zz(source,msg,warn=False)]: "Handles unrecoverable error by raising
    SystemExit with message on source and nature of problem, or issues a
    warning and returns." *)
Definition zz (source : string) (msg : line) (warn : bool) : io unit :=
  if warn then
    print (PStr PREFIX :: PStr "WARNING from " :: PStr source
             :: PStr " - " :: msg)
  else
    let zzmsg := PStr PREFIX :: PStr "ERROR from " :: PStr source
                   :: PStr " - " :: msg in
    raise (SystemExit zzmsg).

(** ** configs.py *)

(** [x in types], for a list [types] of strings: only an equal string is
    in it. *)
Definition contained (x : value) (types : list string) : bool :=
  match x with
  | VStr s => existsb (String.eqb s) types
  | _ => false
  end.

(** [enumerate(l)] *)
Definition enumerate {A} (l : list A) : list (nat * A) :=
  combine (seq 0 (length l)) l.

Section get_configs.

(** [open(file)] and [[*yaml.safe_load_all(strm)]]: the documents of
    the file at a path, or the exception of a missing or malformed
    file. *)
Variable load_all : string -> result (list value).

(** [files = [Path(cfile).with_suffix('.yaml') for cfile in cfiles]] *)
Definition files_of (cfiles : list string) : result (list Path) :=
  mapM (fun cfile => with_suffix (parse_path cfile) ".yaml") cfiles.

(** [fdicts]: one list of documents per file. *)
Definition fdicts_of (files : list Path) : result (list (list value)) :=
  mapM (fun file => load_all (str file)) files.

(** [cdicts]: [finaldict(combo)] for each [combo] of
    [itertools.product] over the lists of [fdicts]. *)
Definition cdicts_of (fdicts : list (list value)) : result (list value) :=
  mapM finaldict (product fdicts).

(** The loop under [if types:]. *)
Definition check_types (types : list string) (cdicts : list value)
  : io unit :=
  for_each cdicts (fun cdict =>
    (tag <- lift (get cdict "type" VNone) ;;
     when (negb (contained tag types))
       (zz "getconfigs"
           [PStr "Config file does not have type";
            PStr " in allowed types "; PTypes types; PStr "."]
           false))%io).

Definition get_configs (cfiles : list string) (types : list string)
    (verbose : Z) : io (list value) :=
  (files <- lift (files_of cfiles) ;;
   fdicts <- lift (fdicts_of files) ;;
   cdicts <- lift (cdicts_of fdicts) ;;
   let nd := length cdicts in
   when (1 <=? verbose)%Z
     (let filestrs := map str files in
      print [PStr PREFIX; PStr "Read "; PNat nd; PStr " config(s) from ";
             PStr (join " << " filestrs)]) ;;
   when (2 <=? verbose)%Z
     (for_each (enumerate cdicts) (fun '(ic, c) =>
        print [PStr PREFIX; PStr "CONFIG "; PNat (ic + 1); PStr "/";
               PNat nd; PStr ":"; PStr (String "010"%char ""); PValue c])) ;;
   when (negb (bool_decide (types = [])))
     (check_types types cdicts) ;;
   io_ret cdicts)%io.

End get_configs.

(** ** Well-formed values and shapes *)

Definition keys {V} (items : list (string * V)) : list string :=
  map fst items.

(** A Python dict holds a key once; [wf] says so of every dict inside a
    value. *)
Fixpoint wf (v : value) : bool :=
  match v with
  | VList elems => forallb wf elems
  | VDict items =>
      bool_decide (NoDup (map fst items))
      && forallb (fun kv => wf (snd kv)) items
  | _ => true
  end.

(** The shape of a configuration: which keys hold a nested mapping and
    which hold a plain value. *)
Inductive shape : Type :=
| Leaf
| Node (fields : list (string * shape)).

Fixpoint field (key : string) (fields : list (string * shape))
  : option shape :=
  match fields with
  | [] => None
  | (k, s) :: rest => if String.eqb k key then Some s else field key rest
  end.

Fixpoint conforms (s : shape) (v : value) {struct v} : bool :=
  match v with
  | VDict items =>
      match s with
      | Node fields =>
          forallb (fun kv =>
                     match field (fst kv) fields with
                     | Some s' => conforms s' (snd kv)
                     | None => false
                     end) items
      | Leaf => false
      end
  | _ => match s with Leaf => true | Node _ => false end
  end.

(** Frames of [rupdate] that a call with override [v] needs at most:
    one for the call, and those of the deepest nested mapping. *)
Fixpoint frames (v : value) : nat :=
  match v with
  | VDict items => S (list_max (map (fun kv => frames (snd kv)) items))
  | _ => 1
  end.

(** ** Notions used to state what the helpers return *)

(** What [dict1c.get(key,{})] hands to the recursive call. *)
Definition get_or_empty (key : string) (items : dict_items) : value :=
  match dict_get key items with
  | Some v => v
  | None => VDict []
  end.

(** The value the loop leaves at [k], given the items still to come and
    the dict [d] it started from. *)
Definition merged_at (k : string) (items d dr : dict_items) : Prop :=
  match dict_get k items with
  | None => dict_get k dr = dict_get k d
  | Some v =>
      if isinstance_dict v
      then exists new,
          rupdate (get_or_empty k d) v = Ok new /\ dict_get k dr = Some new
      else dict_get k dr = Some v
  end.

(** The fold of the specification: start from the empty mapping and
    merge the documents of a combination from left to right. *)
Definition fold_merge (combo : list value) : result value :=
  fold_left (fun acc d => a <- acc ;; rupdate a d) combo (Ok (VDict [])).

(** The Cartesian product as nested loops, the first pool outermost, so
    that the last pool varies fastest. *)
Fixpoint lex_product {A} (pools : list (list A)) : list (list A) :=
  match pools with
  | [] => [[]]
  | pool :: rest => flat_map (fun x => map (cons x) (lex_product rest)) pool
  end.

Definition list_prod (dims : list nat) : nat := fold_right Nat.mul 1 dims.

(** Position of the combination with indices [idx] in the iteration:
    the mixed-radix number with digits [idx], most significant first. *)
Fixpoint rank (dims idx : list nat) : nat :=
  match dims, idx with
  | _ :: ds, i :: idx' => i * list_prod ds + rank ds idx'
  | _, _ => 0
  end.

(** The combination with indices [idx]: document [i] of each pool. *)
Fixpoint select {A} (pools : list (list A)) (idx : list nat)
  : option (list A) :=
  match pools, idx with
  | [], [] => Some []
  | pool :: rest, i :: idx' =>
      match pool !! i, select rest idx' with
      | Some x, Some xs => Some (x :: xs)
      | _, _ => None
      end
  | _, _ => None
  end.

(** The value read under ['type'], [None] when the key is missing. *)
Definition type_of (cdict : dict_items) : value :=
  match dict_get "type" cdict with
  | Some v => v
  | None => VNone
  end.

Definition type_allowed (types : list string) (cdict : value) : bool :=
  match cdict with
  | VDict items => contained (type_of items) types
  | _ => false
  end.

(** The message of the error exit of [get_configs]. *)
Definition type_error (types : list string) : exn :=
  SystemExit
    [PStr PREFIX; PStr "ERROR from "; PStr "getconfigs"; PStr " - ";
     PStr "Config file does not have type"; PStr " in allowed types ";
     PTypes types; PStr "."].

(** The check under [if types:], as a result. *)
Definition validate (types : list string) (cdicts : list value)
  : result unit :=
  outcome (when (negb (bool_decide (types = [])))
             (check_types types cdicts)).

(** ** The scenario of the test files

    [base.yaml] holds one document and [override.yaml] two; nothing else
    is on the disk. *)

Definition demo_base : value :=
  VDict [("a", VInt 1);
         ("b", VDict [("x", VInt 1); ("y", VInt 2)]);
         ("type", VStr "svc")].

Definition demo_override : list value :=
  [VDict [("b", VDict [("y", VInt 9)])];
   VDict [("b", VDict [("y", VInt 9)]); ("type", VStr "other")]].

Definition demo_disk (path : string) : result (list value) :=
  if String.eqb path "base.yaml" then Ok [demo_base]
  else if String.eqb path "override.yaml" then Ok demo_override
  else Err (FileNotFoundError path).

Definition demo_shape : list (string * shape) :=
  [("a", Leaf); ("b", Node [("x", Leaf); ("y", Leaf)]); ("type", Leaf)].

Definition demo_merged (tag : string) : value :=
  VDict [("a", VInt 1);
         ("b", VDict [("x", VInt 1); ("y", VInt 9)]);
         ("type", VStr tag)].

(** ** The helpers over a store of objects

    Lists and dicts are objects of a store and a value refers to them
    by location, so that [dict1.copy()] makes a new object that holds
    the same references as the old one, and [dict1c[key] = val] changes
    one object in place.  None, booleans, numbers and strings cannot be
    changed and are kept by value. *)
Module Store.

Abbreviation loc := nat.

Inductive ref : Type :=
| RNone
| RBool (b : bool)
| RInt (n : Z)
| RFloat (bits : Z)
| RStr (s : string)
| RObj (l : loc).

Inductive obj : Type :=
| OList (elems : list ref)
| ODict (items : list (string * ref)).

(** Objects in the order they were made: a new object gets the
    location [length h]. *)
Abbreviation store := (list obj).

(** A computation reads and changes the store, and returns or raises. *)
Definition M (A : Type) : Type := store -> result (A * store).

Definition ret {A} (a : A) : M A := fun h => Ok (a, h).

Definition bind {A B} (m : M A) (k : A -> M B) : M B :=
  fun h =>
    match m h with
    | Ok (a, h') => k a h'
    | Err e => Err e
    end.

Definition raise {A} (e : exn) : M A := fun _ => Err e.

Declare Scope store_scope.
Delimit Scope store_scope with store.
Notation "x <- m ;; k" := (bind m (fun x => k))
  (at level 100, m at next level, right associativity) : store_scope.
Notation "m ;; k" := (bind m (fun _ => k))
  (at level 100, right associativity) : store_scope.
Local Open Scope store_scope.

Fixpoint mapM {A B} (f : A -> M B) (l : list A) : M (list B) :=
  match l with
  | [] => ret []
  | x :: rest => y <- f x ;; ys <- mapM f rest ;; ret (y :: ys)
  end.

Definition alloc (o : obj) : M ref :=
  fun h => Ok (RObj (length h), h ++ [o]).

Definition deref (h : store) (x : ref) : option obj :=
  match x with
  | RObj l => h !! l
  | _ => None
  end.

Definition is_dict (h : store) (x : ref) : bool :=
  match deref h x with
  | Some (ODict _) => true
  | _ => false
  end.

(** [isinstance(x,dict)] *)
Definition isinstance_dict (x : ref) : M bool :=
  fun h => Ok (is_dict h x, h).

(** [x.copy()]: a new object with the contents of [x]. *)
Definition copy (x : ref) : M ref :=
  fun h =>
    match deref h x with
    | Some o => alloc o h
    | None => Err AttributeError
    end.

(** [x.items()]: the items of [x] when the loop starts; [rupdate] does
    not change [dict2] while it walks it. *)
Definition items_of (x : ref) : M (list (string * ref)) :=
  fun h =>
    match deref h x with
    | Some (ODict items) => Ok (items, h)
    | _ => Err AttributeError
    end.

(** [x.get(key, default)] *)
Definition get (x : ref) (key : string) (default : ref) : M ref :=
  fun h =>
    match deref h x with
    | Some (ODict items) =>
        Ok (match dict_get key items with Some v => v | None => default end,
            h)
    | _ => Err AttributeError
    end.

(** [x[key] = val] with a string key: the dict [x] is changed in
    place. *)
Definition setitem (x : ref) (key : string) (val : ref) : M unit :=
  fun h =>
    match x, deref h x with
    | RObj l, Some (ODict items) =>
        Ok (tt, <[l := ODict (dict_set key val items)]> h)
    | _, _ => Err TypeError
    end.

(** The loop of [rupdate]; [rec] is [rupdate] itself, one frame
    deeper. *)
Fixpoint rupdate_loop (rec : ref -> ref -> M ref) (dict1c : ref)
    (items : list (string * ref)) : M unit :=
  match items with
  | [] => ret tt
  | (key, val) :: rest =>
      isdict <- isinstance_dict val ;;
      if isdict : bool then
        empty <- alloc (ODict []) ;;
        cur <- get dict1c key empty ;;
        new <- rec cur val ;;
        setitem dict1c key new ;;
        rupdate_loop rec dict1c rest
      else
        setitem dict1c key val ;;
        rupdate_loop rec dict1c rest
  end.

(** [rupdate(dict1,dict2)]; [depth] is the number of frames left before
    the interpreter's recursion limit, which a cyclic document
    reaches. *)
Fixpoint rupdate (depth : nat) (dict1 dict2 : ref) : M ref :=
  match depth with
  | 0 => raise RecursionError
  | S depth =>
      dict1c <- copy dict1 ;;
      items <- items_of dict2 ;;
      rupdate_loop (rupdate depth) dict1c items ;;
      ret dict1c
  end.

Fixpoint finaldict_from (depth : nat) (fd : ref) (dicts : list ref)
  : M ref :=
  match dicts with
  | [] => ret fd
  | d :: rest => fd <- rupdate depth fd d ;; finaldict_from depth fd rest
  end.

(** [finaldict(dicts)] *)
Definition finaldict (depth : nat) (dicts : list ref) : M ref :=
  fd <- alloc (ODict []) ;; finaldict_from depth fd dicts.

(** [cdicts]: [finaldict(combo)] for each [combo] of [itertools.product]
    over the lists of [fdicts]. *)
Definition cdicts_of (depth : nat) (fdicts : list (list ref))
  : M (list ref) :=
  mapM (finaldict depth) (product fdicts).

Fixpoint all_some {A} (l : list (option A)) : option (list A) :=
  match l with
  | [] => Some []
  | Some x :: rest =>
      match all_some rest with
      | Some xs => Some (x :: xs)
      | None => None
      end
  | None :: _ => None
  end.

(** The value a reference stands for, read off the store down to
    [fuel] levels. *)
Fixpoint read (fuel : nat) (h : store) (x : ref) : option value :=
  match x with
  | RNone => Some VNone
  | RBool b => Some (VBool b)
  | RInt n => Some (VInt n)
  | RFloat bits => Some (VFloat bits)
  | RStr s => Some (VStr s)
  | RObj l =>
      match fuel with
      | 0 => None
      | S fuel =>
          match h !! l with
          | Some (OList elems) =>
              match all_some (map (read fuel h) elems) with
              | Some vs => Some (VList vs)
              | None => None
              end
          | Some (ODict items) =>
              match all_some (map (read fuel h) (map snd items)) with
              | Some vs => Some (VDict (combine (map fst items) vs))
              | None => None
              end
          | None => None
          end
      end
  end.

(** [x[key]] and [x[i]], to follow a path into a configuration. *)
Definition getitem (x : ref) (key : string) : M ref :=
  fun h =>
    match deref h x with
    | Some (ODict items) =>
        match dict_get key items with
        | Some v => Ok (v, h)
        | None => Err KeyError
        end
    | _ => Err TypeError
    end.

Definition getindex (x : ref) (i : nat) : M ref :=
  fun h =>
    match deref h x with
    | Some (OList elems) =>
        match elems !! i with
        | Some v => Ok (v, h)
        | None => Err IndexError
        end
    | _ => Err TypeError
    end.

(** ** Well-formed stores and reachability *)

Definition valid (h : store) (x : ref) : bool :=
  match x with
  | RObj l => bool_decide (l < length h)
  | _ => true
  end.

Definition refs_of (o : obj) : list ref :=
  match o with
  | OList elems => elems
  | ODict items => map snd items
  end.

(** No object refers outside the store. *)
Definition closed (h : store) : bool :=
  forallb (fun o => forallb (valid h) (refs_of o)) h.

(** [h'] is [h] with more objects: what was there is unchanged. *)
Definition extends (h h' : store) : Prop :=
  length h <= length h' /\ forall l, l < length h -> h' !! l = h !! l.

(** What can be reached from a value through mappings only, and
    through mappings and lists. *)
Inductive mreach (h : store) : ref -> loc -> Prop :=
| mreach_here l items :
    h !! l = Some (ODict items) -> mreach h (RObj l) l
| mreach_item l items key x l' :
    h !! l = Some (ODict items) -> (key, x) ∈ items ->
    mreach h x l' -> mreach h (RObj l) l'.

Inductive reach (h : store) : ref -> loc -> Prop :=
| reach_here l o :
    h !! l = Some o -> reach h (RObj l) l
| reach_ref l o x l' :
    h !! l = Some o -> x ∈ refs_of o ->
    reach h x l' -> reach h (RObj l) l'.

(** A value made at or after [n], or not a dict at all. *)
Definition new_or_plain (n : loc) (h : store) (x : ref) : Prop :=
  match x with
  | RObj l => n <= l \/ is_dict h x = false
  | _ => True
  end.

(** No dict made at or after [n] holds a dict made before [n]. *)
Definition separated (n : loc) (h : store) : Prop :=
  forall l items key x,
    n <= l -> h !! l = Some (ODict items) -> (key, x) ∈ items ->
    new_or_plain n h x.

(** Some object of the store holds the reference [x]. *)
Definition mentioned (h : store) (x : ref) : Prop :=
  exists l o, h !! l = Some o /\ x ∈ refs_of o.

(** The reference [x] stands for the value [v]: the store read from
    [x] down, references followed, gives [v]. *)
Inductive repr (h : store) : ref -> value -> Prop :=
| repr_None : repr h RNone VNone
| repr_Bool b : repr h (RBool b) (VBool b)
| repr_Int n : repr h (RInt n) (VInt n)
| repr_Float bits : repr h (RFloat bits) (VFloat bits)
| repr_Str s : repr h (RStr s) (VStr s)
| repr_List l elems vs :
    h !! l = Some (OList elems) ->
    Forall2 (repr h) elems vs ->
    repr h (RObj l) (VList vs)
| repr_Dict l items vitems :
    h !! l = Some (ODict items) ->
    Forall2 (fun kx kv => fst kx = fst kv /\ repr h (snd kx) (snd kv))
      items vitems ->
    repr h (RObj l) (VDict vitems).

End Store.

(** What one call of [rupdate] does to the store: the result is a new
    object, the objects that were there are unchanged, a closed store
    stays closed, and no new dict gets to hold an old one. *)
Definition rupdate_post (dict1 : Store.ref) (h : Store.store)
    (r : Store.ref) (h' : Store.store) : Prop :=
  r = Store.RObj (length h)
  /\ length h < length h'
  /\ Store.extends h h'
  /\ (Store.closed h = true -> Store.closed h' = true)
  /\ (forall n,
         n <= length h -> Store.separated n h ->
         Store.new_or_plain n h dict1 -> Store.separated n h')
  /\ (Store.is_dict h dict1 = true -> Store.is_dict h' r = true).

(** What [finaldict] does to the store. *)
Definition finaldict_post (lo : Store.loc) (h : Store.store)
    (r : Store.ref) (h' : Store.store) : Prop :=
  (exists lr, r = Store.RObj lr /\ lo <= lr /\ lr < length h')
  /\ Store.is_dict h' r = true
  /\ Store.extends h h'
  /\ (Store.closed h = true -> Store.closed h' = true)
  /\ (forall n, n <= lo -> Store.separated n h -> Store.separated n h').

(** Configurations that stand apart: what can be reached through
    mappings from each lies in a range of locations of its own, the
    ranges following each other from [lo] upwards. *)
Fixpoint apart (h : Store.store) (lo : Store.loc) (cfgs : list Store.ref)
  : Prop :=
  match cfgs with
  | [] => True
  | c :: rest =>
      exists mid,
        lo <= mid
        /\ (forall l, Store.mreach h c l -> lo <= l < mid)
        /\ apart h mid rest
  end.

(** ** A document with a list, and two overrides *)

(** [{a: [{x: 1}]}] at location 2, with its list at 1 and the mapping
    inside the list at 0; the overrides [{b: 1}] and [{b: 2}] at 3 and
    4. *)
Definition demo_store : Store.store :=
  [Store.ODict [("x", Store.RInt 1)];
   Store.OList [Store.RObj 0];
   Store.ODict [("a", Store.RObj 1)];
   Store.ODict [("b", Store.RInt 1)];
   Store.ODict [("b", Store.RInt 2)]].

Definition demo_fdicts : list (list Store.ref) :=
  [[Store.RObj 2]; [Store.RObj 3; Store.RObj 4]].

(** [{a: {x: 1}}] at location 1 and [{}] at 2. *)
Definition demo_nested : Store.store :=
  [Store.ODict [("x", Store.RInt 1)];
   Store.ODict [("a", Store.RObj 0)];
   Store.ODict []].

(** [c['a'][0]['x'] = 2] *)
Definition demo_assign (c : Store.ref) : Store.M unit :=
  Store.bind (Store.getitem c "a") (fun lst =>
  Store.bind (Store.getindex lst 0) (fun inner =>
  Store.setitem inner "x" (Store.RInt 2))).

(** The store after [cdicts_of] has run on [demo_store]: the two
    configurations are at 7 and 10. *)
Definition demo_store_after : Store.store :=
  demo_store ++
  [Store.ODict [];
   Store.ODict [("a", Store.RObj 1)];
   Store.ODict [("a", Store.RObj 1); ("b", Store.RInt 1)];
   Store.ODict [];
   Store.ODict [("a", Store.RObj 1)];
   Store.ODict [("a", Store.RObj 1); ("b", Store.RInt 2)]].

(** ** Notions used to relate the store to the values *)

(** A call does not start to hold a reference to an object that was
    in the store and that nothing held. *)
Definition keeps_unheld (h h' : Store.store) : Prop :=
  forall l,
    l < length h -> Store.mentioned h' (Store.RObj l) ->
    Store.mentioned h (Store.RObj l).

(** The items still to come are held by an object other than the copy
    at [lc]. *)
Definition held_elsewhere (lc : Store.loc) (h : Store.store)
    (items : list (string * Store.ref)) : Prop :=
  forall k x,
    (k, x) ∈ items ->
    exists l o, l <> lc /\ h !! l = Some o /\ x ∈ Store.refs_of o.

(** The items of a dict in the store against the items of a dict
    value: the same keys in the same order, each reference standing
    for the value. *)
Definition repr_items (h : Store.store) (items : list (string * Store.ref))
    (vitems : dict_items) : Prop :=
  Forall2 (fun kx kv => fst kx = fst kv /\ Store.repr h (snd kx) (snd kv))
    items vitems.

(** [Store.rupdate] on references gives what [rupdate] gives on the
    values they stand for: the same exception, or a new object that
    stands for the merged value. *)
Definition rupdate_refined (depth : nat) (h : Store.store)
    (x1 x2 : Store.ref) (res : result value) : Prop :=
  match res with
  | Ok v =>
      exists h',
        Store.rupdate depth x1 x2 h = Ok (Store.RObj (length h), h')
        /\ Store.repr h' (Store.RObj (length h)) v
  | Err e => Store.rupdate depth x1 x2 h = Err e
  end.

Definition loop_refined (rec : Store.ref -> Store.ref -> Store.M Store.ref)
    (lc : Store.loc) (items : list (string * Store.ref)) (h : Store.store)
    (res : result value) : Prop :=
  match res with
  | Ok v =>
      exists h',
        Store.rupdate_loop rec (Store.RObj lc) items h = Ok (tt, h')
        /\ Store.repr h' (Store.RObj lc) v
  | Err e => Store.rupdate_loop rec (Store.RObj lc) items h = Err e
  end.

(** The values that the documents of [demo_store] stand for. *)
Definition demo_values : list (list value) :=
  [[VDict [("a", VList [VDict [("x", VInt 1)]])]];
   [VDict [("b", VInt 1)]; VDict [("b", VInt 2)]]].

(** A document that lacks the key, in a store. *)
Definition lacks_key (h : Store.store) (k : string) (p : Store.ref) : Prop :=
  exists itemsp,
    Store.deref h p = Some (Store.ODict itemsp)
    /\ NoDup (keys itemsp) /\ dict_get k itemsp = None.

(** [{k: [1]}] at location 1 with its list at 0, and [{k: {}}] at 3
    with its empty mapping at 2. *)
Definition demo_list_store : Store.store :=
  [Store.OList [Store.RInt 1];
   Store.ODict [("k", Store.RObj 0)];
   Store.ODict [];
   Store.ODict [("k", Store.RObj 2)]].

(** ** util.py: [stoi]

    [sum(ord(c)*7**p for p,c in enumerate(s))] over Python's unbounded
    integers.  A string is a sequence of 8-bit characters here, [ord]
    is the code of a character. *)
Definition ord (c : ascii) : Z := Z.of_nat (nat_of_ascii c).

Definition sum_of (l : list Z) : Z := fold_left Z.add l 0%Z.

Definition stoi (s : string) : Z :=
  sum_of (map (fun '(p, c) => (ord c * 7 ^ Z.of_nat p)%Z)
            (enumerate (list_ascii_of_string s))).

(** ** util.py: class [NTVI]

    One object and the four lists it holds: [names], [etypes], [vals]
    and [infos].  A method that changes the object returns its new
    state.  The lists of an object are its own: no other name refers
    to them. *)
Module NTVI.

(** [l.index(x)]: the position of the first element equal to [x];
    ValueError when there is none. *)
Fixpoint index (x : string) (l : list string) : result nat :=
  match l with
  | [] => Err ValueError
  | y :: rest =>
      if String.eqb y x then Ok 0 else i <- index x rest ;; Ok (S i)
  end.

(** [l[i]] and [l[i] = v] for an index that is not negative. *)
Definition getitem {A} (l : list A) (i : nat) : result A :=
  match l !! i with
  | Some v => Ok v
  | None => Err IndexError
  end.

Definition setitem {A} (l : list A) (i : nat) (v : A) : result (list A) :=
  if bool_decide (i < length l) then Ok (<[i:=v]> l) else Err IndexError.

(** [l.insert(i, x)]: a negative index counts from the end, and an
    index outside the list is moved to its nearer end. *)
Definition insert {A} (i : Z) (x : A) (l : list A) : list A :=
  let n := Z.of_nat (length l) in
  let i := if (i <? 0)%Z then (i + n)%Z else i in
  let i := if (i <? 0)%Z then 0%Z else i in
  let i := if (n <? i)%Z then n else i in
  take (Z.to_nat i) l ++ x :: drop (Z.to_nat i) l.

(** [try: ... except ValueError: ...] *)
Definition except_ValueError {A} (body handler : result A) : result A :=
  match body with
  | Err ValueError => handler
  | _ => body
  end.

Record t {E V : Type} : Type := mk {
  names : list string;
  etypes : list E;
  vals : list V;
  infos : list string
}.
Arguments t : clear implicits.

Section methods.
Context {E V : Type}.

(** The result [None] is Python's None. *)
Definition val (self : t E V) (name : string) : result (option V) :=
  except_ValueError
    (i <- index name (names self) ;;
     v <- getitem (vals self) i ;;
     Ok (Some v))
    (Ok None).

Definition replaceval (self : t E V) (name : string) (newval : V)
    : result (t E V) :=
  i <- index name (names self) ;;
  vals' <- setitem (vals self) i newval ;;
  Ok (mk E V (names self) (etypes self) vals' (infos self)).

Definition insertval (self : t E V) (name : string) (etype : E) (val : V)
    (index : Z) (info : option string) : t E V :=
  let names' := insert index name (names self) in
  let etypes' := insert index etype (etypes self) in
  let vals' := insert index val (vals self) in
  let infos' := match info with
                | Some info => insert index info (infos self)
                | None => infos self
                end in
  mk E V names' etypes' vals' infos'.

Definition merge (self : t E V) (ntvi2 : option (t E V)) : t E V :=
  match ntvi2 with
  | None => self
  | Some ntvi2 =>
      mk E V (names self ++ names ntvi2) (etypes self ++ etypes ntvi2)
        (vals self ++ vals ntvi2) (infos self ++ infos ntvi2)
  end.

End methods.

End NTVI.

(** The three lists that go together have one length. *)
Definition aligned {E V} (self : NTVI.t E V) : Prop :=
  length (NTVI.etypes self) = length (NTVI.names self)
  /\ length (NTVI.vals self) = length (NTVI.names self).

Definition demo_ntvi : NTVI.t string Z :=
  NTVI.mk string Z ["a"; "b"] ["int"; "int"] [1; 2]%Z [].

(** Where [l.insert(i, x)] puts [x]. *)
Definition insert_position (i : Z) (n : nat) : nat :=
  Z.to_nat (Z.min (Z.of_nat n)
              (Z.max 0 (if (i <? 0)%Z then i + Z.of_nat n else i))).

(** ** util.py: class [CpuTimer]

    One timer and its attributes.  The clock ([time.perf_counter]) is
    read by [__init__], [mark] and [zero]; the reading is an argument
    [now] here.  Times are Python floats: they are kept abstract, with
    their zero, sum and difference, and no law of arithmetic is used.
    A method that changes the timer returns its new state. *)
Module CpuTimer.

Section timer.
Context {T : Type}.
Variable t0 : T.
Variables add sub : T -> T -> T.

(** What [print_times] prints, line by line: the rule of 70 dashes, the
    line of the total, and the line of one item as [print_times1]
    formats it. *)
Inductive report : Type :=
| Rule
| Total (name : string) (ttot : T)
| Item (desc : string) (t ttot : T) (ljust : bool).

Definition out (A : Type) : Type := (list report * result A)%type.

Definition ret {A} (a : A) : out A := ([], Ok a).

Definition bind {A B} (m : out A) (k : A -> out B) : out B :=
  match m with
  | (o, Ok a) => let '(o', r) := k a in (o ++ o', r)
  | (o, Err e) => (o, Err e)
  end.

Definition lift {A} (r : result A) : out A := ([], r).
Definition emit (r : report) : out unit := ([r], Ok tt).

Fixpoint for_each {A} (l : list A) (body : A -> out unit) : out unit :=
  match l with
  | [] => ret tt
  | x :: rest => bind (body x) (fun _ => for_each rest body)
  end.

(** [d[key]] of a dict: KeyError when the key is missing. *)
Definition getitem {V} (key : string) (d : list (string * V)) : result V :=
  match dict_get key d with
  | Some v => Ok v
  | None => Err KeyError
  end.

(** [key in d] *)
Definition contains {V} (key : string) (d : list (string * V)) : bool :=
  match dict_get key d with
  | Some _ => true
  | None => false
  end.

(** The attributes; a timer that is off has only [off]: the others are
    not set by [__init__], and are given values here that nothing
    reads. *)
Record timer : Type := mk {
  off : bool;
  name : string;
  defitems : list (string * string);
  clk : T;
  ts : list (string * T);
  nests : list (string * option string)
}.

Definition mark (self : timer) (item nesting : option string) (now : T)
    : timer :=
  if off self then self
  else
    let clk0 := clk self in
    let self := mk (off self) (name self) (defitems self) now (ts self)
                  (nests self) in
    match item with
    | None | Some "" => self
    | Some item =>
        let dt := sub (clk self) clk0 in
        match getitem item (ts self) with
        | Ok told =>
            mk (off self) (name self) (defitems self) (clk self)
              (dict_set item (add told dt) (ts self)) (nests self)
        | Err _ =>
            mk (off self) (name self) (defitems self) (clk self)
              (dict_set item dt (ts self))
              (dict_set item nesting (nests self))
        end
    end.

Definition init (name : string) (on : bool)
    (defitems : option (list (string * string))) (now : T) : timer :=
  if negb on then mk true "" [] t0 [] []
  else
    let defitems := match defitems with None => [] | Some d => d end in
    mark (mk false name defitems t0 [] []) None None now.

Definition t (self : timer) (item : string) : T :=
  if off self then t0
  else match dict_get item (ts self) with
       | Some x => x
       | None => t0
       end.

(** [sum(self.ts[j] for j in self.ts)] *)
Definition total (self : timer) : result T :=
  tvals <- mapM (fun j => getitem j (ts self)) (keys (ts self)) ;;
  Ok (fold_left add tvals t0).

Definition ttot (self : timer) : result T :=
  if off self then Ok t0 else total self.

Definition print_times1 (desc : string) (t ttot : T) (ljust : bool)
    : out unit :=
  emit (Item desc t ttot ljust).

Definition count (c : ascii) (s : string) : nat :=
  length (List.filter (Ascii.eqb c) (list_ascii_of_string s)).

Fixpoint times (n : nat) (s : string) : string :=
  match n with
  | O => ""
  | S n => s +:+ times n s
  end.

(** [l.sort(key=lambda x : x[0])]: the sort keeps the order of items
    with equal keys; strings compare by the codes of their
    characters. *)
Fixpoint sort_insert (x : string * string * T)
    (l : list (string * string * T)) : list (string * string * T) :=
  match l with
  | [] => [x]
  | y :: rest =>
      if String.ltb (fst (fst y)) (fst (fst x)) then y :: sort_insert x rest
      else x :: y :: rest
  end.

Definition sort (l : list (string * string * T))
    : list (string * string * T) :=
  foldr sort_insert [] l.

Definition print_times2 (nestitems : list (string * string * T))
    : list (string * T) :=
  let nestitems1 :=
    map (fun '(nesting, desc, t) =>
           let desc2 := times (count "." nesting) "   " +:+ nesting
                        +:+ " " +:+ desc in
           (nesting, desc2, t))
      nestitems in
  map (fun '(_, desc2, t) => (desc2, t)) (sort nestitems1).

(** The loop over the additional items: one without nesting is printed
    at once, one with nesting is appended to [nestitems]. *)
Fixpoint print_additems (self : timer) (ttot : T) (additems : list string)
    (nestitems : list (string * string * T))
    : out (list (string * string * T)) :=
  match additems with
  | [] => ret nestitems
  | item :: rest =>
      let desc := item in
      bind (lift (getitem item (ts self))) (fun t =>
      bind (lift (getitem item (nests self))) (fun nesting =>
      match nesting with
      | None | Some "" =>
          bind (print_times1 desc t ttot false) (fun _ =>
          print_additems self ttot rest nestitems)
      | Some nesting =>
          print_additems self ttot rest (nestitems ++ [(nesting, desc, t)])
      end))
  end.

Definition print_times (self : timer) : out unit :=
  if off self then ret tt
  else
    bind (lift (total self)) (fun ttot =>
    bind (emit Rule) (fun _ =>
    bind (emit (Total (name self) ttot)) (fun _ =>
    bind (for_each (defitems self)
            (fun '(item, desc) =>
               if contains item (ts self) then
                 bind (lift (getitem item (ts self))) (fun t =>
                 print_times1 desc t ttot false)
               else ret tt)) (fun _ =>
    let additems :=
      List.filter
        (fun item => negb (bool_decide (item ∈ map fst (defitems self))))
        (keys (ts self)) in
    bind (print_additems self ttot additems []) (fun nestitems =>
    let nestitems2 := print_times2 nestitems in
    bind (for_each nestitems2
            (fun '(desc2, t) => print_times1 desc2 t ttot true)) (fun _ =>
    emit Rule)))))).

Definition zero (self : timer) (now : T) : timer :=
  mark (mk (off self) (name self) (defitems self) (clk self) [] [])
    None None now.

(** The calls that change a timer, and a sequence of them. *)
Inductive call : Type :=
| Mark (item nesting : option string) (now : T)
| Zero (now : T).

Definition step (self : timer) (c : call) : timer :=
  match c with
  | Mark item nesting now => mark self item nesting now
  | Zero now => zero self now
  end.

Definition run (self : timer) (calls : list call) : timer :=
  fold_left step calls self.

Definition is_mark (c : call) : bool :=
  match c with
  | Mark _ _ _ => true
  | Zero _ => false
  end.

End timer.

Arguments report : clear implicits.
Arguments out : clear implicits.
Arguments timer : clear implicits.
Arguments call : clear implicits.

End CpuTimer.

(** What [mark] keeps true of a timer: [ts] and [nests] have the same
    keys, in the same order, each once. *)
Definition timer_inv {T} (self : CpuTimer.timer T) : Prop :=
  NoDup (keys (CpuTimer.ts self))
  /\ keys (CpuTimer.nests self) = keys (CpuTimer.ts self).

(** The line that [print_times] prints for one item: with the
    description of a predefined item; else, for an item with a
    nesting, left-justified with the indented nesting before the item;
    else with the item itself.  The time is what [t] returns. *)
Definition timer_nested {T} (self : CpuTimer.timer T) (item : string)
    : bool :=
  match dict_get item (CpuTimer.nests self) with
  | Some (Some (String _ _)) => true
  | _ => false
  end.

Definition timer_nesting {T} (self : CpuTimer.timer T) (item : string)
    : string :=
  match dict_get item (CpuTimer.nests self) with
  | Some (Some nesting) => nesting
  | _ => ""
  end.

Definition timer_line {T} (t0 : T) (self : CpuTimer.timer T) (ttot : T)
    (item : string) : CpuTimer.report T :=
  let t := CpuTimer.t t0 self item in
  match dict_get item (CpuTimer.defitems self) with
  | Some desc => CpuTimer.Item desc t ttot false
  | None =>
      if timer_nested self item then
        let nesting := timer_nesting self item in
        CpuTimer.Item
          (CpuTimer.times (CpuTimer.count "." nesting) "   "
           +:+ nesting +:+ " " +:+ item)
          t ttot true
      else CpuTimer.Item item t ttot false
  end.

Definition demo_calls : list (CpuTimer.call Z) :=
  [CpuTimer.Mark (Some "e4a") None 5%Z;
   CpuTimer.Mark None None 6%Z;
   CpuTimer.Mark (Some "inner") (Some "1.1") 9%Z;
   CpuTimer.Mark (Some "e4a") (Some "2") 10%Z].

(** * Properties *)

(** ** The loop of [rupdate] *)

Lemma rupdate_unfold dict1 dict2 :
  rupdate dict1 dict2 =
  (dict1c <- copy dict1 ;;
   items <- items_of dict2 ;;
   rupdate_loop items dict1c).
Proof.
  destruct dict2; simpl; try (destruct (copy dict1); reflexivity).
  destruct (copy dict1) as [dict1c|]; simpl; [|reflexivity].
  revert dict1c. induction items as [|[key val] rest IH]; intros; [reflexivity|].
  cbn [rupdate_loop]. destruct val; simpl; try (destruct (setitem _ _ _); simpl; auto).
  destruct (get dict1c key (VDict [])); simpl; [|reflexivity].
  match goal with |- context [bind ?m _] => destruct m end; simpl; [|reflexivity].
  destruct (setitem _ _ _); simpl; auto.
Qed.

(** ** Facts about [dict_get] and [dict_set] *)

Lemma dict_get_set_eq {V} key (val : V) items :
  dict_get key (dict_set key val items) = Some val.
Proof.
  induction items as [|[k v] rest IH]; simpl.
  - rewrite String.eqb_refl. reflexivity.
  - destruct (String.eqb k key) eqn:E; simpl; rewrite E; auto.
Qed.

Lemma dict_get_set_ne {V} key key' (val : V) items :
  key <> key' ->
  dict_get key' (dict_set key val items) = dict_get key' items.
Proof.
  intros Hne. induction items as [|[k v] rest IH]; simpl.
  - destruct (String.eqb_spec key key'); congruence.
  - destruct (String.eqb_spec k key) as [->|Hk]; simpl.
    + destruct (String.eqb_spec key key'); congruence.
    + destruct (String.eqb_spec k key'); auto.
Qed.

Lemma dict_get_None {V} key (items : list (string * V)) :
  dict_get key items = None <-> key ∉ keys items.
Proof.
  induction items as [|[k v] rest IH]; simpl.
  - split; [intros _; apply not_elem_of_nil | reflexivity].
  - rewrite not_elem_of_cons.
    destruct (String.eqb_spec k key) as [->|Hk]; simpl.
    + split; [discriminate | intros [H _]; congruence].
    + rewrite IH. split; [intros H; split; [congruence | exact H] | tauto].
Qed.

Lemma dict_get_Some_elem {V} key (val : V) items :
  dict_get key items = Some val -> (key, val) ∈ items.
Proof.
  induction items as [|[k v] rest IH]; simpl; [discriminate|].
  destruct (String.eqb_spec k key) as [->|Hk].
  - intros [= ->]. apply list_elem_of_here.
  - intros H. apply list_elem_of_further, IH, H.
Qed.

Lemma dict_set_fresh {V} key (val : V) items :
  dict_get key items = None ->
  dict_set key val items = items ++ [(key, val)].
Proof.
  induction items as [|[k v] rest IH]; simpl; [reflexivity|].
  destruct (String.eqb k key); [discriminate|].
  intros H. rewrite IH; auto.
Qed.

Lemma dict_get_app {V} key (items items' : list (string * V)) :
  dict_get key (items ++ items') =
  match dict_get key items with
  | Some v => Some v
  | None => dict_get key items'
  end.
Proof.
  induction items as [|[k v] rest IH]; simpl; [reflexivity|].
  destruct (String.eqb k key); auto.
Qed.

Lemma keys_dict_set {V} key (val : V) items :
  keys (dict_set key val items) =
  if bool_decide (key ∈ keys items) then keys items else keys items ++ [key].
Proof.
  induction items as [|[k v] rest IH]; [reflexivity|].
  cbn [dict_set keys map fst].
  destruct (String.eqb_spec k key) as [->|Hk].
  - rewrite bool_decide_eq_true_2; [reflexivity | apply list_elem_of_here].
  - cbn [map fst]. fold (keys rest). fold (keys (dict_set key val rest)).
    rewrite IH.
    destruct (decide (key ∈ keys rest)) as [Hin|Hin].
    + rewrite !bool_decide_eq_true_2; auto using list_elem_of_further.
    + rewrite !bool_decide_eq_false_2; auto.
      rewrite not_elem_of_cons. split; congruence.
Qed.

Lemma NoDup_keys_dict_set {V} key (val : V) items :
  NoDup (keys items) -> NoDup (keys (dict_set key val items)).
Proof.
  intros H. rewrite keys_dict_set. case_bool_decide; [exact H|].
  apply NoDup_app. split; [exact H|]. split.
  - intros x Hx Hx'. apply list_elem_of_singleton in Hx'. congruence.
  - apply NoDup_singleton.
Qed.

Lemma wf_dict items :
  wf (VDict items) = true <->
  NoDup (keys items) /\ Forall (fun kv => wf (snd kv) = true) items.
Proof.
  cbn [wf]. rewrite andb_true_iff, bool_decide_eq_true, forallb_forall.
  rewrite List.Forall_forall. reflexivity.
Qed.

Lemma wf_dict_get key val items :
  wf (VDict items) = true -> dict_get key items = Some val -> wf val = true.
Proof.
  rewrite wf_dict. intros [_ H] Hget.
  apply dict_get_Some_elem in Hget.
  rewrite Forall_forall in H. apply (H _ Hget).
Qed.

Lemma wf_dict_set key val items :
  wf (VDict items) = true -> wf val = true ->
  wf (VDict (dict_set key val items)) = true.
Proof.
  rewrite !wf_dict. intros [Hnd Hall] Hval. split.
  - apply NoDup_keys_dict_set, Hnd.
  - clear Hnd. induction Hall as [|[k v] rest Hv Hrest IH]; simpl.
    + repeat constructor. exact Hval.
    + destruct (String.eqb k key); constructor; auto.
Qed.

(** ** What [rupdate] returns *)

Lemma rupdate_dict dict1 items :
  rupdate dict1 (VDict items) =
  (dict1c <- copy dict1 ;; rupdate_loop items dict1c).
Proof. rewrite rupdate_unfold. destruct (copy dict1); reflexivity. Qed.

Lemma rupdate_loop_cons_dict key val rest d :
  isinstance_dict val = true ->
  rupdate_loop ((key, val) :: rest) (VDict d) =
  (new <- rupdate (get_or_empty key d) val ;;
   rupdate_loop rest (VDict (dict_set key new d))).
Proof.
  intros H. cbn [rupdate_loop]. rewrite H. cbn [get bind].
  fold (get_or_empty key d).
  destruct (rupdate (get_or_empty key d) val); reflexivity.
Qed.

Lemma rupdate_loop_cons_other key val rest d :
  isinstance_dict val = false ->
  rupdate_loop ((key, val) :: rest) (VDict d) =
  rupdate_loop rest (VDict (dict_set key val d)).
Proof. intros H. cbn [rupdate_loop]. rewrite H. reflexivity. Qed.

Lemma rupdate_loop_lookup items :
  NoDup (keys items) ->
  forall d r,
    rupdate_loop items (VDict d) = Ok r ->
    exists dr, r = VDict dr /\ forall k, merged_at k items d dr.
Proof.
  induction items as [|[key val] rest IH]; intros Hnd d r Hrun.
  - injection Hrun as <-. exists d. split; [reflexivity|].
    intros k. reflexivity.
  - cbn [keys map fst] in Hnd. apply NoDup_cons in Hnd as [Hfresh Hnd].
    fold (keys rest) in Hfresh, Hnd.
    apply dict_get_None in Hfresh.
    destruct (isinstance_dict val) eqn:Hval.
    + rewrite rupdate_loop_cons_dict in Hrun by exact Hval.
      destruct (rupdate (get_or_empty key d) val) as [new|] eqn:Hnew;
        [|discriminate].
      cbn [bind] in Hrun.
      destruct (IH Hnd _ _ Hrun) as (dr & -> & Hdr).
      exists dr. split; [reflexivity|]. intros k.
      specialize (Hdr k). unfold merged_at in *. cbn [dict_get].
      destruct (String.eqb_spec key k) as [<-|Hk].
      * rewrite Hval. exists new. split; [exact Hnew|].
        rewrite Hfresh in Hdr. rewrite Hdr. apply dict_get_set_eq.
      * unfold get_or_empty in *.
        rewrite dict_get_set_ne in Hdr by exact Hk. exact Hdr.
    + rewrite rupdate_loop_cons_other in Hrun by exact Hval.
      destruct (IH Hnd _ _ Hrun) as (dr & -> & Hdr).
      exists dr. split; [reflexivity|]. intros k.
      specialize (Hdr k). unfold merged_at in *. cbn [dict_get].
      destruct (String.eqb_spec key k) as [<-|Hk].
      * rewrite Hval. rewrite Hfresh in Hdr. rewrite Hdr.
        apply dict_get_set_eq.
      * unfold get_or_empty in *.
        rewrite dict_get_set_ne in Hdr by exact Hk. exact Hdr.
Qed.

(** Merging into the empty dict rebuilds the override item by item. *)
Lemma rupdate_loop_rebuild items :
  Forall (fun kv => isinstance_dict (snd kv) = true ->
                    rupdate (VDict []) (snd kv) = Ok (snd kv)) items ->
  forall pre,
    NoDup (keys (pre ++ items)) ->
    rupdate_loop items (VDict pre) = Ok (VDict (pre ++ items)).
Proof.
  induction 1 as [|[key val] rest Hval _ IH]; intros pre Hnd.
  - rewrite app_nil_r. reflexivity.
  - assert (Hfresh : dict_get key pre = None).
    { apply dict_get_None. unfold keys in Hnd. rewrite map_app in Hnd.
      apply NoDup_app in Hnd as (_ & Hdisj & _). intros Hin.
      apply (Hdisj _ Hin). apply list_elem_of_here. }
    replace (pre ++ (key, val) :: rest) with ((pre ++ [(key, val)]) ++ rest)
      in * by (rewrite <- app_assoc; reflexivity).
    destruct (isinstance_dict val) eqn:Hd.
    + rewrite rupdate_loop_cons_dict by exact Hd.
      unfold get_or_empty. rewrite Hfresh. cbn [snd] in Hval.
      rewrite (Hval Hd). cbn [bind].
      rewrite dict_set_fresh by exact Hfresh. apply IH, Hnd.
    + rewrite rupdate_loop_cons_other by exact Hd.
      rewrite dict_set_fresh by exact Hfresh. apply IH, Hnd.
Qed.

(** [merge({}, B) = B] for a well-formed mapping [B]. *)
Lemma rupdate_empty_l dict2 :
  isinstance_dict dict2 = true -> wf dict2 = true ->
  rupdate (VDict []) dict2 = Ok dict2.
Proof.
  induction dict2 as [| | | | | |items IH] using values_ind;
    try discriminate.
  intros _ Hwf. rewrite rupdate_dict. cbn [copy bind].
  apply wf_dict in Hwf as [Hnd Hall].
  apply (rupdate_loop_rebuild items); [|exact Hnd].
  rewrite Forall_forall in *. intros kv Hin Hd.
  apply (IH kv Hin Hd), (Hall kv Hin).
Qed.

(** [merge(A, {}) = A]. *)
Lemma rupdate_empty_r items : rupdate (VDict items) (VDict []) = Ok (VDict items).
Proof. reflexivity. Qed.

(** A merge that starts from a dict ends with a dict. *)
Lemma rupdate_loop_is_dict items :
  forall d r, rupdate_loop items (VDict d) = Ok r -> isinstance_dict r = true.
Proof.
  induction items as [|[key val] rest IH]; intros d r Hrun.
  - injection Hrun as <-. reflexivity.
  - destruct (isinstance_dict val) eqn:Hval.
    + rewrite rupdate_loop_cons_dict in Hrun by exact Hval.
      destruct (rupdate _ val); [|discriminate]. eapply IH, Hrun.
    + rewrite rupdate_loop_cons_other in Hrun by exact Hval.
      eapply IH, Hrun.
Qed.

Lemma rupdate_is_dict dict1 dict2 r :
  isinstance_dict dict1 = true -> rupdate dict1 dict2 = Ok r ->
  isinstance_dict r = true.
Proof.
  destruct dict1; try discriminate. intros _.
  rewrite rupdate_unfold. cbn [copy bind].
  destruct (items_of dict2) as [its|]; [|discriminate].
  apply rupdate_loop_is_dict.
Qed.

(** The contents of a successful merge of two mappings, key by key. *)
Lemma rupdate_lookup A B R :
  NoDup (keys B) ->
  rupdate (VDict A) (VDict B) = Ok R ->
  exists r,
    R = VDict r /\
    forall k,
      (dict_get k B = None -> dict_get k r = dict_get k A) /\
      (forall v, dict_get k B = Some v -> isinstance_dict v = false ->
                 dict_get k r = Some v) /\
      (forall v, dict_get k B = Some v -> isinstance_dict v = true ->
                 dict_get k A = None ->
                 exists new, rupdate (VDict []) v = Ok new /\
                             dict_get k r = Some new) /\
      (forall v a, dict_get k B = Some v -> isinstance_dict v = true ->
                   dict_get k A = Some a ->
                   exists new, rupdate a v = Ok new /\
                               dict_get k r = Some new).
Proof.
  intros Hnd Hrun. rewrite rupdate_dict in Hrun. cbn [copy bind] in Hrun.
  destruct (rupdate_loop_lookup B Hnd A R Hrun) as (r & -> & Hr).
  exists r. split; [reflexivity|]. intros k. specialize (Hr k).
  unfold merged_at, get_or_empty in Hr.
  repeat split.
  - intros HB. rewrite HB in Hr. exact Hr.
  - intros v HB Hv. rewrite HB, Hv in Hr. exact Hr.
  - intros v HB Hv HA. rewrite HB, Hv, HA in Hr. exact Hr.
  - intros v a HB Hv HA. rewrite HB, Hv, HA in Hr. exact Hr.
Qed.

(** [rupdate] keeps values well formed. *)
Lemma rupdate_wf dict2 :
  forall dict1 r,
    wf dict1 = true -> wf dict2 = true ->
    rupdate dict1 dict2 = Ok r -> wf r = true.
Proof.
  induction dict2 as [| | | | | |items IH] using values_ind;
    intros dict1 r H1 H2 Hrun;
    try (rewrite rupdate_unfold in Hrun; destruct (copy dict1);
         discriminate).
  rewrite rupdate_dict in Hrun.
  destruct (copy dict1) as [dict1c|] eqn:Hc; [|discriminate].
  assert (Hwfc : wf dict1c = true).
  { destruct dict1; try discriminate; injection Hc as <-; exact H1. }
  cbn [bind] in Hrun. clear Hc H1.
  apply wf_dict in H2 as [_ Hall].
  revert dict1c r Hwfc Hrun.
  induction items as [|[key val] rest IHrest]; intros dict1c r Hwfc Hrun.
  - injection Hrun as <-. exact Hwfc.
  - apply Forall_cons in IH as [IHval IH].
    apply Forall_cons in Hall as [Hval Hall]. cbn [snd] in *.
    cbn [rupdate_loop] in Hrun.
    destruct (isinstance_dict val) eqn:Hd.
    + destruct dict1c as [| | | | | |d]; try discriminate.
      cbn [get bind] in Hrun.
      destruct (rupdate _ val) as [new|] eqn:Hnew; [|discriminate].
      cbn [bind setitem] in Hrun.
      apply (IHrest IH Hall _ _) in Hrun; [exact Hrun|].
      apply wf_dict_set; [exact Hwfc|].
      eapply IHval; [|exact Hval|exact Hnew].
      destruct (dict_get key d) eqn:Hg; [|reflexivity].
      eapply wf_dict_get; eauto.
    + destruct dict1c as [| | | | | |d]; try discriminate.
      cbn [bind setitem] in Hrun.
      apply (IHrest IH Hall _ _) in Hrun; [exact Hrun|].
      apply wf_dict_set; assumption.
Qed.

(** ** Merging documents of one shape never fails *)

Lemma conforms_dict fields items :
  conforms (Node fields) (VDict items) = true <->
  Forall (fun kv => exists s, field (fst kv) fields = Some s /\
                              conforms s (snd kv) = true) items.
Proof.
  cbn [conforms]. rewrite forallb_forall, List.Forall_forall.
  split; intros H kv Hin; specialize (H kv Hin).
  - destruct (field (fst kv) fields) as [s|]; [|discriminate]. eauto.
  - destruct H as (s & -> & H). exact H.
Qed.

Lemma conforms_Node_is_dict fields v :
  conforms (Node fields) v = true -> isinstance_dict v = true.
Proof. destruct v; simpl; congruence. Qed.

Lemma conforms_Leaf_not_dict v :
  conforms Leaf v = true -> isinstance_dict v = false.
Proof. destruct v; simpl; congruence. Qed.

Lemma conforms_dict_get fields items key v :
  conforms (Node fields) (VDict items) = true ->
  dict_get key items = Some v ->
  exists s, field key fields = Some s /\ conforms s v = true.
Proof.
  rewrite conforms_dict, Forall_forall. intros H Hget.
  apply dict_get_Some_elem in Hget. apply (H _ Hget).
Qed.

Lemma conforms_dict_set fields items key s v :
  conforms (Node fields) (VDict items) = true ->
  field key fields = Some s -> conforms s v = true ->
  conforms (Node fields) (VDict (dict_set key v items)) = true.
Proof.
  rewrite !conforms_dict. intros H Hs Hv.
  induction H as [|[k x] rest Hx Hrest IH]; cbn [dict_set].
  - repeat constructor. exists s. auto.
  - destruct (String.eqb_spec k key) as [->|Hk]; constructor; auto.
    exists s. auto.
Qed.

Lemma conforms_rupdate dict2 :
  forall fields dict1,
    conforms (Node fields) dict1 = true ->
    conforms (Node fields) dict2 = true ->
    exists r, rupdate dict1 dict2 = Ok r /\
              conforms (Node fields) r = true.
Proof.
  induction dict2 as [| | | | | |items IH] using values_ind;
    intros fields dict1 H1 H2; try discriminate.
  destruct dict1 as [| | | | | |d]; try discriminate.
  rewrite rupdate_dict. cbn [copy bind].
  apply conforms_dict in H2.
  revert d H1.
  induction items as [|[key val] rest IHrest]; intros d H1.
  - exists (VDict d). split; [reflexivity | exact H1].
  - apply Forall_cons in IH as [IHval IH].
    apply Forall_cons in H2 as [(s & Hs & Hval) H2]. cbn [fst snd] in *.
    destruct s as [|fields'].
    + rewrite rupdate_loop_cons_other
        by (apply conforms_Leaf_not_dict, Hval).
      apply (IHrest IH H2).
      eapply conforms_dict_set; eauto.
    + rewrite rupdate_loop_cons_dict
        by (eapply conforms_Node_is_dict, Hval).
      destruct (IHval fields' (get_or_empty key d)) as (new & -> & Hnew);
        [|exact Hval|].
      { unfold get_or_empty. destruct (dict_get key d) as [a|] eqn:Hg;
          [|reflexivity].
        destruct (conforms_dict_get _ _ _ _ H1 Hg) as (s' & Hs' & Ha).
        congruence. }
      cbn [bind]. apply (IHrest IH H2).
      eapply conforms_dict_set; eauto.
Qed.

(** ** [finaldict] *)

Lemma fold_left_merge_Err combo e :
  fold_left (fun acc d => a <- acc ;; rupdate a d) combo (Err e) = Err e.
Proof. induction combo; simpl; auto. Qed.

Lemma finaldict_from_fold fd dicts :
  finaldict_from fd dicts =
  fold_left (fun acc d => a <- acc ;; rupdate a d) dicts (Ok fd).
Proof.
  revert fd. induction dicts as [|d rest IH]; intros fd; [reflexivity|].
  cbn [finaldict_from fold_left bind].
  destruct (rupdate fd d) as [fd'|e]; cbn [bind].
  - apply IH.
  - symmetry. apply fold_left_merge_Err.
Qed.

Lemma finaldict_fold_merge combo : finaldict combo = fold_merge combo.
Proof. apply finaldict_from_fold. Qed.

Lemma finaldict_from_is_dict dicts :
  forall fd r,
    isinstance_dict fd = true -> finaldict_from fd dicts = Ok r ->
    isinstance_dict r = true.
Proof.
  induction dicts as [|d rest IH]; intros fd r Hfd Hrun.
  - injection Hrun as <-. exact Hfd.
  - cbn [finaldict_from] in Hrun.
    destruct (rupdate fd d) as [fd'|] eqn:Hstep; [|discriminate].
    eapply IH; [|exact Hrun]. eapply rupdate_is_dict; eauto.
Qed.

Lemma finaldict_is_dict dicts r :
  finaldict dicts = Ok r -> isinstance_dict r = true.
Proof. apply finaldict_from_is_dict. reflexivity. Qed.

Lemma finaldict_pair doc1 doc2 :
  isinstance_dict doc1 = true -> wf doc1 = true ->
  finaldict [doc1; doc2] = rupdate doc1 doc2.
Proof.
  intros Hd Hwf. unfold finaldict. cbn [finaldict_from].
  rewrite rupdate_empty_l by assumption. cbn [bind].
  destruct (rupdate doc1 doc2); reflexivity.
Qed.

Lemma conforms_finaldict_from fields dicts :
  Forall (fun d => conforms (Node fields) d = true) dicts ->
  forall fd,
    conforms (Node fields) fd = true ->
    exists r, finaldict_from fd dicts = Ok r /\
              conforms (Node fields) r = true.
Proof.
  induction 1 as [|d rest Hd _ IH]; intros fd Hfd.
  - exists fd. split; [reflexivity | exact Hfd].
  - cbn [finaldict_from].
    destruct (conforms_rupdate d fields fd Hfd Hd) as (fd' & -> & Hfd').
    cbn [bind]. apply IH, Hfd'.
Qed.

Lemma conforms_finaldict fields dicts :
  Forall (fun d => conforms (Node fields) d = true) dicts ->
  exists r, finaldict dicts = Ok r /\ conforms (Node fields) r = true.
Proof. intros H. apply conforms_finaldict_from; [exact H | reflexivity]. Qed.

(** ** [mapM] *)

Lemma mapM_length {A B} (f : A -> result B) l ys :
  mapM f l = Ok ys -> length ys = length l.
Proof.
  revert ys. induction l as [|x rest IH]; intros ys H.
  - injection H as <-. reflexivity.
  - cbn [mapM] in H. destruct (f x); [|discriminate].
    cbn [bind] in H. destruct (mapM f rest) as [ys'|]; [|discriminate].
    injection H as <-. cbn [length]. f_equal. apply IH. reflexivity.
Qed.

Lemma mapM_lookup {A B} (f : A -> result B) l ys n x :
  mapM f l = Ok ys -> l !! n = Some x ->
  exists y, ys !! n = Some y /\ f x = Ok y.
Proof.
  revert ys n. induction l as [|x' rest IH]; intros ys n H Hn.
  - destruct n; discriminate.
  - cbn [mapM] in H. destruct (f x') as [y'|] eqn:Hy; [|discriminate].
    cbn [bind] in H. destruct (mapM f rest) as [ys'|]; [|discriminate].
    injection H as <-. destruct n as [|n].
    + injection Hn as <-. exists y'. split; [reflexivity | exact Hy].
    + apply (IH ys' n eq_refl Hn).
Qed.

Lemma mapM_Forall {A B} (f : A -> result B) (P : B -> Prop) l ys :
  mapM f l = Ok ys ->
  Forall (fun x => forall y, f x = Ok y -> P y) l -> Forall P ys.
Proof.
  revert ys. induction l as [|x rest IH]; intros ys H Hall.
  - injection H as <-. constructor.
  - cbn [mapM] in H. destruct (f x) as [y|] eqn:Hy; [|discriminate].
    cbn [bind] in H. destruct (mapM f rest) as [ys'|]; [|discriminate].
    injection H as <-. apply Forall_cons in Hall as [Hx Hall].
    constructor; [apply Hx, Hy | apply IH; auto].
Qed.

Lemma mapM_ext {A B} (f g : A -> result B) l :
  (forall x, f x = g x) -> mapM f l = mapM g l.
Proof.
  intros H. induction l as [|x rest IH]; [reflexivity|].
  cbn [mapM]. rewrite H, IH. reflexivity.
Qed.

Lemma mapM_total {A B} (f : A -> result B) l :
  Forall (fun x => exists y, f x = Ok y) l -> exists ys, mapM f l = Ok ys.
Proof.
  induction 1 as [|x rest (y & Hy) _ (ys & Hys)].
  - exists []. reflexivity.
  - exists (y :: ys). cbn [mapM]. rewrite Hy. cbn [bind]. rewrite Hys.
    reflexivity.
Qed.

(** ** [itertools.product]: size and order *)

Lemma flat_map_snoc_app {A} (a : list A) (pool : list A) (L : list (list A)) :
  flat_map (fun x => map (app x) L) (map (fun y => a ++ [y]) pool) =
  map (app a) (flat_map (fun y => map (cons y) L) pool).
Proof.
  induction pool as [|p pool IH]; [reflexivity|].
  cbn [map flat_map]. rewrite IH, map_app, map_map. f_equal.
  apply map_ext. intros l. rewrite <- app_assoc. reflexivity.
Qed.

Lemma product_fold_lex {A} (pools : list (list A)) :
  forall acc,
    fold_left
      (fun result pool =>
         flat_map (fun x => map (fun y => x ++ [y]) pool) result)
      pools acc =
    flat_map (fun x => map (app x) (lex_product pools)) acc.
Proof.
  induction pools as [|pool rest IH]; intros acc.
  - cbn [fold_left lex_product map].
    induction acc as [|a acc IHacc]; [reflexivity|].
    cbn [flat_map]. rewrite app_nil_r, <- IHacc. reflexivity.
  - cbn [fold_left lex_product]. rewrite IH.
    induction acc as [|a acc IHacc]; [reflexivity|].
    cbn [flat_map]. rewrite flat_map_app, IHacc. f_equal.
    apply flat_map_snoc_app.
Qed.

Lemma product_lex {A} (pools : list (list A)) :
  product pools = lex_product pools.
Proof.
  unfold product. rewrite product_fold_lex. cbn [flat_map].
  rewrite app_nil_r. rewrite <- (map_id (lex_product pools)) at 2.
  apply map_ext. reflexivity.
Qed.

Lemma flat_map_uniform_length {A B} (f : A -> list B) (l : list A) n :
  Forall (fun x => length (f x) = n) l ->
  length (flat_map f l) = length l * n.
Proof.
  induction 1 as [|x rest Hx _ IH]; [reflexivity|].
  cbn [flat_map length]. rewrite length_app, Hx, IH. lia.
Qed.

Lemma flat_map_uniform_lookup {A B} (f : A -> list B) (l : list A) n :
  Forall (fun x => length (f x) = n) l ->
  forall i j x,
    l !! i = Some x -> j < n ->
    flat_map f l !! (i * n + j) = f x !! j.
Proof.
  induction 1 as [|x' rest Hx _ IH]; intros i j x Hi Hj.
  - destruct i; discriminate.
  - cbn [flat_map]. destruct i as [|i].
    + injection Hi as <-. rewrite lookup_app_l by lia. reflexivity.
    + rewrite lookup_app_r by lia.
      replace (S i * n + j - length (f x')) with (i * n + j) by lia.
      apply IH; assumption.
Qed.

Lemma lex_product_length {A} (pools : list (list A)) :
  length (lex_product pools) = list_prod (map length pools).
Proof.
  induction pools as [|pool rest IH]; [reflexivity|].
  cbn [lex_product map list_prod fold_right].
  rewrite (flat_map_uniform_length _ _ (length (lex_product rest))).
  - rewrite IH. reflexivity.
  - apply Forall_forall. intros x _. apply length_map.
Qed.

Lemma product_length {A} (pools : list (list A)) :
  length (product pools) = list_prod (map length pools).
Proof. rewrite product_lex. apply lex_product_length. Qed.

Lemma product_empty_pool {A} (pools : list (list A)) :
  [] ∈ pools -> product pools = [].
Proof.
  intros Hin. apply length_zero_iff_nil. rewrite product_length.
  induction pools as [|pool rest IH]; [inversion Hin|].
  cbn [map list_prod fold_right].
  apply elem_of_cons in Hin as [<-|Hin]; [reflexivity|].
  fold (list_prod (map length rest)). rewrite IH by exact Hin. lia.
Qed.

Lemma select_rank_lt {A} (pools : list (list A)) :
  forall idx combo,
    select pools idx = Some combo ->
    rank (map length pools) idx < list_prod (map length pools).
Proof.
  induction pools as [|pool rest IH]; intros idx combo Hsel.
  - destruct idx; [simpl; lia | discriminate].
  - destruct idx as [|i idx]; [discriminate|]. cbn [select] in Hsel.
    destruct (pool !! i) as [x|] eqn:Hi; [|discriminate].
    destruct (select rest idx) as [xs|] eqn:Hrest; [|discriminate].
    apply lookup_lt_Some in Hi. specialize (IH _ _ Hrest).
    cbn [map rank list_prod fold_right].
    fold (list_prod (map length rest)). nia.
Qed.

Lemma lex_product_lookup {A} (pools : list (list A)) :
  forall idx combo,
    select pools idx = Some combo ->
    lex_product pools !! rank (map length pools) idx = Some combo.
Proof.
  induction pools as [|pool rest IH]; intros idx combo Hsel.
  - destruct idx; [|discriminate]. injection Hsel as <-. reflexivity.
  - destruct idx as [|i idx]; [discriminate|]. cbn [select] in Hsel.
    destruct (pool !! i) as [x|] eqn:Hi; [|discriminate].
    destruct (select rest idx) as [xs|] eqn:Hrest; [|discriminate].
    injection Hsel as <-.
    cbn [lex_product map rank]. rewrite <- lex_product_length.
    rewrite (flat_map_uniform_lookup _ _ (length (lex_product rest)))
      with (x := x).
    + rewrite list_lookup_fmap, (IH _ _ Hrest). reflexivity.
    + apply Forall_forall. intros y _. apply length_map.
    + exact Hi.
    + rewrite lex_product_length. eapply select_rank_lt, Hrest.
Qed.

Lemma product_lookup {A} (pools : list (list A)) idx combo :
  select pools idx = Some combo ->
  product pools !! rank (map length pools) idx = Some combo.
Proof. rewrite product_lex. apply lex_product_lookup. Qed.

(** Every position below the size of the product is the rank of one
    choice of indices. *)
Lemma rank_onto {A} (pools : list (list A)) :
  forall n,
    n < list_prod (map length pools) ->
    exists idx combo, select pools idx = Some combo /\
                      rank (map length pools) idx = n.
Proof.
  induction pools as [|pool rest IH]; intros n Hn.
  - exists [], []. split; [reflexivity|]. simpl in *. lia.
  - cbn [map list_prod fold_right] in Hn.
    fold (list_prod (map length rest)) in Hn.
    set (P := list_prod (map length rest)) in *.
    assert (HP : 0 < P) by (destruct P; lia).
    destruct (IH (n mod P)) as (idx & xs & Hsel & Hrank).
    { apply Nat.mod_upper_bound. lia. }
    assert (Hi : n / P < length pool).
    { apply Nat.Div0.div_lt_upper_bound. lia. }
    destruct (lookup_lt_is_Some_2 pool _ Hi) as [x Hx].
    exists (n / P :: idx), (x :: xs). split.
    + cbn [select]. rewrite Hx, Hsel. reflexivity.
    + cbn [map rank]. fold P. rewrite Hrank.
      rewrite (Nat.div_mod_eq n P) at 3. lia.
Qed.

Lemma product_conforms (P : value -> Prop) (pools : list (list value)) :
  Forall (Forall P) pools -> Forall (Forall P) (lex_product pools).
Proof.
  induction 1 as [|pool rest Hpool _ IH]; cbn [lex_product].
  - repeat constructor.
  - apply Forall_forall. intros combo Hin.
    apply list_elem_of_In, in_flat_map in Hin as (x & Hx & Hin).
    apply in_map_iff in Hin as (xs & <- & Hxs).
    rewrite Forall_forall in Hpool. rewrite Forall_forall in IH.
    constructor.
    + apply Hpool, list_elem_of_In, Hx.
    + apply IH, list_elem_of_In, Hxs.
Qed.

(** ** What [get_configs] returns *)

Lemma outcome_bind {A B} (m : io A) (k : A -> io B) :
  outcome (io_bind m k) = (a <- outcome m ;; outcome (k a)).
Proof.
  destruct m as [out [a|e]]; cbn [io_bind outcome snd bind]; [|reflexivity].
  destruct (k a). reflexivity.
Qed.

Lemma outcome_for_each_print {A} (l : list A) (body : A -> io unit) :
  (forall x, outcome (body x) = Ok tt) ->
  outcome (for_each l body) = Ok tt.
Proof.
  intros Hbody. induction l as [|x rest IH]; [reflexivity|].
  cbn [for_each]. rewrite outcome_bind, Hbody. exact IH.
Qed.

Lemma check_types_cons_allowed types cdict rest :
  type_allowed types cdict = true ->
  check_types types (cdict :: rest) = check_types types rest.
Proof.
  intros H. destruct cdict as [| | | | | |items]; try discriminate.
  unfold check_types. cbn [for_each lift get io_bind].
  fold (type_of items). cbn [type_allowed] in H. rewrite H.
  cbn [negb when io_ret app].
  destruct (for_each rest _) as [out r]. reflexivity.
Qed.

Lemma check_types_cons_refused types items rest :
  type_allowed types (VDict items) = false ->
  check_types types (VDict items :: rest) = ([], Err (type_error types)).
Proof.
  intros H. unfold check_types. cbn [for_each lift get io_bind].
  fold (type_of items). cbn [type_allowed] in H. rewrite H. reflexivity.
Qed.

Lemma check_types_pass types cdicts :
  Forall (fun c => type_allowed types c = true) cdicts ->
  check_types types cdicts = ([], Ok tt).
Proof.
  induction 1 as [|c rest Hc _ IH]; [reflexivity|].
  rewrite check_types_cons_allowed by exact Hc. exact IH.
Qed.

Lemma check_types_stop types pre items post :
  Forall (fun c => type_allowed types c = true) pre ->
  type_allowed types (VDict items) = false ->
  check_types types (pre ++ VDict items :: post) =
  ([], Err (type_error types)).
Proof.
  induction 1 as [|c rest Hc _ IH]; intros Hbad.
  - apply check_types_cons_refused, Hbad.
  - cbn [app]. rewrite check_types_cons_allowed by exact Hc. apply IH, Hbad.
Qed.

Lemma check_types_Ok_inv types cdicts :
  Forall (fun c => isinstance_dict c = true) cdicts ->
  outcome (check_types types cdicts) = Ok tt ->
  Forall (fun c => type_allowed types c = true) cdicts.
Proof.
  induction 1 as [|c rest Hc _ IH]; intros Hrun; [constructor|].
  destruct c as [| | | | | |items]; try discriminate.
  destruct (type_allowed types (VDict items)) eqn:Hok.
  - rewrite check_types_cons_allowed in Hrun by exact Hok.
    constructor; [exact Hok | apply IH, Hrun].
  - rewrite check_types_cons_refused in Hrun by exact Hok. discriminate.
Qed.

Section get_configs_facts.
Variable load_all : string -> result (list value).

Lemma get_configs_outcome cfiles types verbose :
  outcome (get_configs load_all cfiles types verbose) =
  (files <- files_of cfiles ;;
   fdicts <- fdicts_of load_all files ;;
   cdicts <- cdicts_of fdicts ;;
   _ <- validate types cdicts ;;
   Ok cdicts).
Proof.
  unfold get_configs. rewrite outcome_bind. cbn [lift outcome snd].
  destruct (files_of cfiles) as [files|]; [|reflexivity]. cbn [bind].
  rewrite outcome_bind. cbn [lift outcome snd].
  destruct (fdicts_of load_all files) as [fdicts|]; [|reflexivity].
  cbn [bind]. rewrite outcome_bind. cbn [lift outcome snd].
  destruct (cdicts_of fdicts) as [cdicts|]; [|reflexivity]. cbn [bind].
  rewrite outcome_bind.
  replace (outcome (when (1 <=? verbose)%Z _)) with (Ok tt)
    by (destruct (1 <=? verbose)%Z; reflexivity).
  cbn [bind]. rewrite outcome_bind.
  match goal with
  | |- context [outcome (when (2 <=? verbose)%Z ?body)] =>
      replace (outcome (when (2 <=? verbose)%Z body)) with (Ok tt)
  end.
  2:{ destruct (2 <=? verbose)%Z; [|reflexivity]. cbn [when].
      symmetry.
      apply outcome_for_each_print. intros [ic c]. reflexivity. }
  cbn [bind]. rewrite outcome_bind. fold (validate types cdicts).
  destruct (validate types cdicts) as [[]|]; reflexivity.
Qed.

Lemma cdicts_of_all_dicts fdicts cdicts :
  cdicts_of fdicts = Ok cdicts ->
  Forall (fun c => isinstance_dict c = true) cdicts.
Proof.
  intros H. eapply mapM_Forall; [exact H|].
  apply Forall_forall. intros combo _ c. apply finaldict_is_dict.
Qed.

Lemma validate_no_types cdicts : validate [] cdicts = Ok tt.
Proof. reflexivity. Qed.
End get_configs_facts.

Example demo_get_configs :
  outcome (get_configs demo_disk ["base"; "override"] [] 0) =
  Ok [demo_merged "svc"; demo_merged "other"].
Proof. reflexivity. Qed.

Example demo_get_configs_typed :
  get_configs demo_disk ["base"; "override"] ["svc"] 0 =
  ([], Err (type_error ["svc"])).
Proof. reflexivity. Qed.

Example demo_wf : wf demo_base = true.
Proof. reflexivity. Qed.

Example demo_conforms :
  forallb (forallb (conforms (Node demo_shape))) [[demo_base]; demo_override]
  = true.
Proof. reflexivity. Qed.

(** ** The recursive merge on a mapping over a plain value *)

(** When the base holds a value without [copy] (None, a boolean, a
    number, a string) under a key where the override holds a mapping,
    [dict1c.get(key,{})] finds that value, not [{}], and the merge of
    the two mappings raises. *)
Lemma rupdate_mapping_over_scalar A B k a v :
  NoDup (keys B) ->
  dict_get k A = Some a -> copy a = Err AttributeError ->
  dict_get k B = Some v -> isinstance_dict v = true ->
  exists e, rupdate (VDict A) (VDict B) = Err e.
Proof.
  intros Hnd HA Ha HB Hv.
  destruct (rupdate (VDict A) (VDict B)) as [R|e] eqn:Hrun; [|eauto].
  destruct (rupdate_lookup A B R Hnd Hrun) as (r & _ & Hr).
  destruct (Hr k) as (_ & _ & _ & Hboth).
  destruct (Hboth v a HB Hv HA) as (new & Hnew & _).
  rewrite rupdate_unfold, Ha in Hnew. discriminate.
Qed.

(** C1 (code at the failing inputs).  Base [{k: [1]}] and override
    [{k: {}}] share the key [k]; the base value is a list, not a
    mapping, so the merged value at [k] should be the override's [{}].
    [rupdate] returns the base's list there.  With base [{k: 1}] and
    override [{k: {x: 2}}] it returns nothing: the call raises
    AttributeError. *)
Theorem rupdate_keeps_list_under_empty_mapping :
  rupdate (VDict [("k", VList [VInt 1])]) (VDict [("k", VDict [])])
  = Ok (VDict [("k", VList [VInt 1])])
  /\ VDict [("k", VList [VInt 1])] <> VDict [("k", VDict [])]
  /\ rupdate (VDict [("k", VInt 1)]) (VDict [("k", VDict [("x", VInt 2)])])
     = Err AttributeError.
Proof. repeat split. discriminate. Qed.

(** C2 (code at the failing input).  Base [{k: 1}], override
    [{k: {x: 2}}]: the merge does not succeed, it raises AttributeError
    from [dict1.copy()] on the integer; merging the override's mapping
    into [{}], which the value at [k] should equal, succeeds.  With a
    list in the base and a non-empty mapping in the override the call
    raises TypeError. *)
Theorem rupdate_scalar_base_raises :
  rupdate (VDict [("k", VInt 1)]) (VDict [("k", VDict [("x", VInt 2)])])
  = Err AttributeError
  /\ rupdate (VDict []) (VDict [("x", VInt 2)]) = Ok (VDict [("x", VInt 2)])
  /\ rupdate (VDict [("k", VList [VInt 1])])
             (VDict [("k", VDict [("x", VInt 2)])])
     = Err TypeError.
Proof. repeat split. Qed.

(** ** The path that is opened *)

Lemma split_sep_plain s :
  contains_char "/"%char s = false -> split_sep s = [s].
Proof.
  induction s as [|c s IH]; [reflexivity|]. cbn [contains_char split_sep].
  destruct (Ascii.eqb c "/"); [discriminate|]. cbn [orb].
  intros H. rewrite (IH H). reflexivity.
Qed.

Lemma rfind_plain c s : contains_char c s = false -> rfind c s = None.
Proof.
  induction s as [|a s IH]; [reflexivity|]. cbn [contains_char rfind].
  destruct (Ascii.eqb a c); [discriminate|]. cbn [orb].
  intros H. rewrite (IH H). reflexivity.
Qed.

(** For a name without slash and without dot, the file opened is the
    name with [.yaml] appended. *)
Lemma files_of_plain_name cfile :
  cfile <> "" ->
  contains_char "/"%char cfile = false ->
  contains_char "."%char cfile = false ->
  files_of [cfile] = Ok [mkPath "" [cfile +:+ ".yaml"]]
  /\ str (mkPath "" [cfile +:+ ".yaml"]) = cfile +:+ ".yaml".
Proof.
  intros Hne Hslash Hdot. split; [|reflexivity].
  assert (Hparse : parse_path cfile = mkPath "" [cfile]).
  { unfold parse_path, splitroot.
    destruct cfile as [|c rest]; [congruence|].
    assert (Hc : Ascii.eqb c "/" = false).
    { cbn [contains_char] in Hslash.
      apply orb_false_iff in Hslash as [H _]. exact H. }
    rewrite Hc. rewrite split_sep_plain by exact Hslash.
    cbn [List.filter]. unfold keeps_part.
    assert (Hdotc : String.eqb (String c rest) "." = false).
    { apply String.eqb_neq. intros Heq. rewrite Heq in Hdot. discriminate. }
    replace (String.eqb (String c rest) "") with false by reflexivity.
    rewrite Hdotc. reflexivity. }
  unfold files_of. cbn [mapM]. rewrite Hparse.
  unfold with_suffix, suffix, name. cbn [parts root List.last].
  unfold suffix_of. rewrite (rfind_plain _ _ Hdot).
  apply String.eqb_neq in Hne. rewrite Hne. reflexivity.
Qed.

(** C8 (code at the failing input).  For the identifier [run.v2] the
    file opened is [run.yaml]: [with_suffix] replaces the part after
    the last dot of the name, it does not append.  On a disk that holds
    [run.v2.yaml] and nothing else, the call ends with the
    FileNotFoundError of [run.yaml]. *)
Theorem get_configs_replaces_suffix :
  files_of ["run.v2"] = Ok [mkPath "" ["run.yaml"]]
  /\ str (mkPath "" ["run.yaml"]) = "run.yaml"
  /\ "run.yaml" <> "run.v2" +:+ ".yaml"
  /\ outcome
       (get_configs
          (fun path =>
             if String.eqb path "run.v2.yaml" then Ok [VDict []]
             else Err (FileNotFoundError path))
          ["run.v2"] [] 1)
     = Err (FileNotFoundError "run.yaml").
Proof. repeat split. discriminate. Qed.

(** ** The list of configurations *)

Section get_configs_list.
Variable load_all : string -> result (list value).

(** C3.  When [get_configs] returns, the list has as many configurations
    as the product of the numbers of documents of the files.  If some
    file has no document, it returns the empty list, whatever the other
    files hold and whatever types are asked for.  When all documents
    have one shape and no types are asked for, it does return. *)
Theorem get_configs_count cfiles types verbose files fdicts :
  files_of cfiles = Ok files ->
  fdicts_of load_all files = Ok fdicts ->
  (forall cdicts,
      outcome (get_configs load_all cfiles types verbose) = Ok cdicts ->
      length cdicts = list_prod (map length fdicts))
  /\ ([] ∈ fdicts ->
      outcome (get_configs load_all cfiles types verbose) = Ok [])
  /\ (forall fields,
         Forall (Forall (fun d => conforms (Node fields) d = true)) fdicts ->
         exists cdicts,
           outcome (get_configs load_all cfiles [] verbose) = Ok cdicts
           /\ length cdicts = list_prod (map length fdicts)).
Proof.
  intros Hfiles Hfdicts. repeat split.
  - intros cdicts. rewrite get_configs_outcome, Hfiles. cbn [bind].
    rewrite Hfdicts. cbn [bind].
    destruct (cdicts_of fdicts) as [cs|] eqn:Hcs; [|discriminate].
    cbn [bind]. destruct (validate types cs); [|discriminate].
    intros [= <-]. rewrite (mapM_length _ _ _ Hcs). apply product_length.
  - intros Hempty. rewrite get_configs_outcome, Hfiles. cbn [bind].
    rewrite Hfdicts. cbn [bind]. unfold cdicts_of.
    rewrite (product_empty_pool _ Hempty). cbn [mapM bind].
    unfold validate. destruct (bool_decide (types = [])); reflexivity.
  - intros fields Hshape.
    destruct (mapM_total finaldict (product fdicts)) as (cdicts & Hcs).
    { rewrite product_lex.
      eapply Forall_impl; [apply product_conforms, Hshape|].
      intros combo Hcombo.
      destruct (conforms_finaldict fields combo Hcombo) as (r & Hr & _).
      eauto. }
    exists cdicts. split.
    + rewrite get_configs_outcome, Hfiles. cbn [bind].
      rewrite Hfdicts. cbn [bind]. unfold cdicts_of. rewrite Hcs.
      reflexivity.
    + rewrite (mapM_length _ _ _ Hcs). apply product_length.
Qed.

(** C4.  The list of configurations is the fold of the specification
    over the nested-loop product of the documents, the first file
    outermost.  When [get_configs] returns, the configuration built from
    document [i1] of the first file, ..., document [in] of the last
    file stands at position [rank] of these indices, the mixed-radix
    number in which the index into the last file is the least
    significant digit, and it is the fold from the empty mapping of
    these documents, in file order, through [rupdate].  Every position
    of the list is reached this way. *)
Theorem get_configs_order cfiles types verbose files fdicts cdicts :
  files_of cfiles = Ok files ->
  fdicts_of load_all files = Ok fdicts ->
  outcome (get_configs load_all cfiles types verbose) = Ok cdicts ->
  cdicts_of fdicts = mapM fold_merge (lex_product fdicts)
  /\ (forall idx combo,
         select fdicts idx = Some combo ->
         exists c, cdicts !! rank (map length fdicts) idx = Some c
                   /\ fold_merge combo = Ok c)
  /\ (forall n c,
         cdicts !! n = Some c ->
         exists idx combo,
           select fdicts idx = Some combo
           /\ rank (map length fdicts) idx = n
           /\ fold_merge combo = Ok c).
Proof.
  intros Hfiles Hfdicts Hout. split.
  { unfold cdicts_of. rewrite product_lex. apply mapM_ext.
    apply finaldict_fold_merge. }
  revert Hout. rewrite get_configs_outcome, Hfiles. cbn [bind].
  rewrite Hfdicts. cbn [bind].
  destruct (cdicts_of fdicts) as [cs|] eqn:Hcs; [|discriminate].
  cbn [bind]. destruct (validate types cs); [|discriminate].
  intros [= <-].
  assert (Hfwd : forall idx combo,
             select fdicts idx = Some combo ->
             exists c, cs !! rank (map length fdicts) idx = Some c
                       /\ fold_merge combo = Ok c).
  { intros idx combo Hsel. apply product_lookup in Hsel.
    destruct (mapM_lookup _ _ _ _ _ Hcs Hsel) as (c & Hc & Hfd).
    exists c. split; [exact Hc|]. rewrite <- finaldict_fold_merge.
    exact Hfd. }
  split; [exact Hfwd|].
  intros n c Hn.
  assert (Hlt : n < list_prod (map length fdicts)).
  { rewrite <- product_length, <- (mapM_length _ _ _ Hcs).
    eapply lookup_lt_Some, Hn. }
  destruct (rank_onto fdicts n Hlt) as (idx & combo & Hsel & Hrank).
  exists idx, combo. repeat split; [exact Hsel | exact Hrank |].
  destruct (Hfwd idx combo Hsel) as (c' & Hc' & Hfold).
  rewrite Hrank, Hn in Hc'. injection Hc' as <-. exact Hfold.
Qed.

End get_configs_list.

Section get_configs_checks.
Variable load_all : string -> result (list value).

Lemma type_allowed_tag types c :
  type_allowed types c = true ->
  exists items s,
    c = VDict items /\ dict_get "type" items = Some (VStr s) /\ s ∈ types.
Proof.
  destruct c as [| | | | | |items]; try discriminate.
  cbn [type_allowed]. unfold type_of.
  destruct (dict_get "type" items) as [tag|] eqn:Hg; [|discriminate].
  destruct tag as [| | | |s| |]; try discriminate. cbn [contained].
  intros H. apply existsb_exists in H as (s' & Hin & Heq).
  apply String.eqb_eq in Heq as <-.
  exists items, s. split; [reflexivity|]. split; [exact Hg|].
  apply list_elem_of_In, Hin.
Qed.

Lemma validate_types types cdicts :
  types <> [] -> validate types cdicts = outcome (check_types types cdicts).
Proof.
  intros H. unfold validate. rewrite bool_decide_eq_false_2 by exact H.
  reflexivity.
Qed.

(** C5.  With a non-empty list of allowed types: a configuration
    without the key ['type'] is never allowed; if [get_configs]
    returns, every configuration holds under ['type'] a string of the
    list; at the first configuration that is not allowed the call ends
    with the SystemExit of [zz], whatever configurations follow it
    (they are not looked at: the check gives the same exit when
    anything at all, even a value without [get], stands after the
    offender). *)
Theorem get_configs_type_check cfiles types verbose files fdicts cdicts :
  types <> [] ->
  files_of cfiles = Ok files ->
  fdicts_of load_all files = Ok fdicts ->
  cdicts_of fdicts = Ok cdicts ->
  (forall items,
      dict_get "type" items = None ->
      type_allowed types (VDict items) = false)
  /\ (forall r,
         outcome (get_configs load_all cfiles types verbose) = Ok r ->
         r = cdicts
         /\ Forall (fun c => exists items s,
                        c = VDict items
                        /\ dict_get "type" items = Some (VStr s)
                        /\ s ∈ types) cdicts)
  /\ (forall pre c post,
         cdicts = pre ++ c :: post ->
         Forall (fun c' => type_allowed types c' = true) pre ->
         type_allowed types c = false ->
         outcome (get_configs load_all cfiles types verbose)
         = Err (type_error types)
         /\ forall post',
             check_types types (pre ++ c :: post')
             = ([], Err (type_error types))).
Proof.
  intros Htypes Hfiles Hfdicts Hcs.
  assert (Hout : outcome (get_configs load_all cfiles types verbose) =
                 (_ <- outcome (check_types types cdicts) ;; Ok cdicts)).
  { rewrite get_configs_outcome, Hfiles. cbn [bind].
    rewrite Hfdicts. cbn [bind]. rewrite Hcs. cbn [bind].
    rewrite validate_types by exact Htypes. reflexivity. }
  pose proof (cdicts_of_all_dicts fdicts cdicts Hcs) as Hdicts.
  split; [|split].
  - intros items Hmiss. cbn [type_allowed]. unfold type_of.
    rewrite Hmiss. reflexivity.
  - intros r Hr. rewrite Hout in Hr.
    destruct (outcome (check_types types cdicts)) as [[]|] eqn:Hchk;
      [|discriminate].
    injection Hr as <-. split; [reflexivity|].
    eapply Forall_impl;
      [apply (check_types_Ok_inv types _ Hdicts Hchk)|].
    intros c. apply type_allowed_tag.
  - intros pre c post -> Hpre Hbad.
    apply Forall_app in Hdicts as [_ Hc].
    apply Forall_cons in Hc as [Hc _].
    destruct c as [| | | | | |items]; try discriminate.
    split.
    + rewrite Hout, check_types_stop by assumption. reflexivity.
    + intros post'. apply check_types_stop; assumption.
Qed.

(** When every configuration is allowed, the list is returned. *)
Lemma get_configs_all_allowed cfiles types verbose files fdicts cdicts :
  files_of cfiles = Ok files ->
  fdicts_of load_all files = Ok fdicts ->
  cdicts_of fdicts = Ok cdicts ->
  Forall (fun c => type_allowed types c = true) cdicts ->
  outcome (get_configs load_all cfiles types verbose) = Ok cdicts.
Proof.
  intros Hfiles Hfdicts Hcs Hall.
  rewrite get_configs_outcome, Hfiles. cbn [bind].
  rewrite Hfdicts. cbn [bind]. rewrite Hcs. cbn [bind].
  unfold validate. destruct (bool_decide (types = [])); [reflexivity|].
  cbn [negb when]. rewrite check_types_pass by exact Hall. reflexivity.
Qed.

(** C6.  With no files and no types asked for, [get_configs] returns
    the list of one configuration, the empty mapping: [product] of no
    pools is the list of the one empty combination, and [finaldict] of
    no documents is [{}]. *)
Theorem get_configs_no_files verbose :
  product ([] : list (list value)) = [[]]
  /\ finaldict [] = Ok (VDict [])
  /\ outcome (get_configs load_all [] [] verbose) = Ok [VDict []].
Proof.
  repeat split. rewrite get_configs_outcome. reflexivity.
Qed.

(** With types asked for, the one empty configuration has no ['type']
    and the call exits. *)
Lemma get_configs_no_files_typed types verbose :
  types <> [] ->
  outcome (get_configs load_all [] types verbose) = Err (type_error types).
Proof.
  intros H. rewrite get_configs_outcome. cbn [files_of fdicts_of mapM bind].
  unfold cdicts_of. cbn [product fold_left mapM finaldict finaldict_from bind].
  rewrite validate_types by exact H.
  rewrite check_types_cons_refused; reflexivity.
Qed.

(** C7.  Two files of one document each, [doc1] a well-formed mapping:
    folding the two documents from the empty mapping is merging them
    directly, and [get_configs] returns the list of that one merge (or
    ends with the exception of the merge); with types asked for, what
    it returns, if it returns, is still that list. *)
Theorem get_configs_two_documents cfiles types verbose files doc1 doc2 :
  files_of cfiles = Ok files ->
  fdicts_of load_all files = Ok [[doc1]; [doc2]] ->
  isinstance_dict doc1 = true ->
  wf doc1 = true ->
  (fd <- rupdate (VDict []) doc1 ;; rupdate fd doc2) = rupdate doc1 doc2
  /\ finaldict [doc1; doc2] = rupdate doc1 doc2
  /\ outcome (get_configs load_all cfiles [] verbose)
     = (merged <- rupdate doc1 doc2 ;; Ok [merged])
  /\ (forall cdicts,
         outcome (get_configs load_all cfiles types verbose) = Ok cdicts ->
         exists merged, rupdate doc1 doc2 = Ok merged /\ cdicts = [merged]).
Proof.
  intros Hfiles Hfdicts Hd Hwf.
  assert (Hcs : cdicts_of [[doc1]; [doc2]] =
                (merged <- rupdate doc1 doc2 ;; Ok [merged])).
  { unfold cdicts_of. cbn [product fold_left flat_map map app mapM].
    rewrite finaldict_pair by assumption.
    destruct (rupdate doc1 doc2); reflexivity. }
  repeat split.
  - rewrite rupdate_empty_l by assumption. reflexivity.
  - apply finaldict_pair; assumption.
  - rewrite get_configs_outcome, Hfiles. cbn [bind].
    rewrite Hfdicts. cbn [bind]. rewrite Hcs.
    destruct (rupdate doc1 doc2); reflexivity.
  - intros cdicts. rewrite get_configs_outcome, Hfiles. cbn [bind].
    rewrite Hfdicts. cbn [bind]. rewrite Hcs.
    destruct (rupdate doc1 doc2) as [merged|]; [|discriminate].
    cbn [bind]. destruct (validate types [merged]); [|discriminate].
    intros [= <-]. eauto.
Qed.

(** C10.  The result of [get_configs] is a function of the files read
    and of [types]; [verbose] changes what is printed and nothing of
    what is returned or raised. *)
Theorem get_configs_verbose_independent cfiles types verbose verbose' :
  outcome (get_configs load_all cfiles types verbose)
  = outcome (get_configs load_all cfiles types verbose').
Proof. rewrite !get_configs_outcome. reflexivity. Qed.

End get_configs_checks.

(** The theorems above, at the scenario of the test files. *)

Lemma get_configs_count_witness :
  (forall cdicts,
      outcome (get_configs demo_disk ["base"; "override"] [] 1) = Ok cdicts ->
      length cdicts = list_prod (map length [[demo_base]; demo_override]))
  /\ ([] ∈ [[demo_base]; demo_override] ->
      outcome (get_configs demo_disk ["base"; "override"] [] 1) = Ok [])
  /\ (forall fields,
         Forall (Forall (fun d => conforms (Node fields) d = true))
           [[demo_base]; demo_override] ->
         exists cdicts,
           outcome (get_configs demo_disk ["base"; "override"] [] 1)
           = Ok cdicts
           /\ length cdicts
              = list_prod (map length [[demo_base]; demo_override])).
Proof.
  exact (get_configs_count demo_disk ["base"; "override"] [] 1
           [mkPath "" ["base.yaml"]; mkPath "" ["override.yaml"]]
           [[demo_base]; demo_override] eq_refl eq_refl).
Defined.

Lemma get_configs_order_witness :
  cdicts_of [[demo_base]; demo_override]
  = mapM fold_merge (lex_product [[demo_base]; demo_override])
  /\ (forall idx combo,
         select [[demo_base]; demo_override] idx = Some combo ->
         exists c,
           [demo_merged "svc"; demo_merged "other"]
             !! rank (map length [[demo_base]; demo_override]) idx = Some c
           /\ fold_merge combo = Ok c)
  /\ (forall n c,
         [demo_merged "svc"; demo_merged "other"] !! n = Some c ->
         exists idx combo,
           select [[demo_base]; demo_override] idx = Some combo
           /\ rank (map length [[demo_base]; demo_override]) idx = n
           /\ fold_merge combo = Ok c).
Proof.
  exact (get_configs_order demo_disk ["base"; "override"] [] 1
           [mkPath "" ["base.yaml"]; mkPath "" ["override.yaml"]]
           [[demo_base]; demo_override]
           [demo_merged "svc"; demo_merged "other"]
           eq_refl eq_refl eq_refl).
Defined.

Lemma get_configs_type_check_witness :
  outcome (get_configs demo_disk ["base"; "override"] ["svc"] 1)
  = Err (type_error ["svc"])
  /\ forall post',
      check_types ["svc"] ([demo_merged "svc"] ++ demo_merged "other" :: post')
      = ([], Err (type_error ["svc"])).
Proof.
  refine (proj2 (proj2
    (get_configs_type_check demo_disk ["base"; "override"] ["svc"] 1
       [mkPath "" ["base.yaml"]; mkPath "" ["override.yaml"]]
       [[demo_base]; demo_override]
       [demo_merged "svc"; demo_merged "other"]
       _ eq_refl eq_refl eq_refl))
    [demo_merged "svc"] (demo_merged "other") [] eq_refl _ eq_refl).
  - discriminate.
  - repeat constructor.
Defined.

Lemma get_configs_two_documents_witness :
  (fd <- rupdate (VDict []) demo_base ;; rupdate fd (VDict [("a", VInt 2)]))
  = rupdate demo_base (VDict [("a", VInt 2)])
  /\ finaldict [demo_base; VDict [("a", VInt 2)]]
     = rupdate demo_base (VDict [("a", VInt 2)])
  /\ outcome
       (get_configs
          (fun path => if String.eqb path "base.yaml" then Ok [demo_base]
                       else Ok [VDict [("a", VInt 2)]])
          ["base"; "other"] [] 1)
     = (merged <- rupdate demo_base (VDict [("a", VInt 2)]) ;; Ok [merged])
  /\ (forall cdicts,
         outcome
           (get_configs
              (fun path => if String.eqb path "base.yaml" then Ok [demo_base]
                           else Ok [VDict [("a", VInt 2)]])
              ["base"; "other"] ["svc"] 1) = Ok cdicts ->
         exists merged,
           rupdate demo_base (VDict [("a", VInt 2)]) = Ok merged
           /\ cdicts = [merged]).
Proof.
  exact (get_configs_two_documents
           (fun path => if String.eqb path "base.yaml" then Ok [demo_base]
                        else Ok [VDict [("a", VInt 2)]])
           ["base"; "other"] ["svc"] 1
           [mkPath "" ["base.yaml"]; mkPath "" ["other.yaml"]]
           demo_base (VDict [("a", VInt 2)])
           eq_refl eq_refl eq_refl eq_refl).
Defined.

(** ** The store: what a merge changes and what it leaves alone *)

Lemma store_bind_Ok {A B} (m : Store.M A) (k : A -> Store.M B) h b h' :
  Store.bind m k h = Ok (b, h') ->
  exists a h1, m h = Ok (a, h1) /\ k a h1 = Ok (b, h').
Proof.
  unfold Store.bind. destruct (m h) as [[a h1]|]; [|discriminate]. eauto.
Qed.

Lemma extends_refl h : Store.extends h h.
Proof. split; auto. Qed.

Lemma extends_trans h1 h2 h3 :
  Store.extends h1 h2 -> Store.extends h2 h3 -> Store.extends h1 h3.
Proof.
  intros [Hl1 H1] [Hl2 H2]. split; [lia|].
  intros l Hl. rewrite H2 by lia. apply H1, Hl.
Qed.

Lemma extends_alloc h o : Store.extends h (h ++ [o]).
Proof.
  split; [rewrite length_app; lia|].
  intros l Hl. apply lookup_app_l, Hl.
Qed.

Lemma valid_obj h l : Store.valid h (Store.RObj l) = true <-> l < length h.
Proof. apply bool_decide_eq_true. Qed.

Lemma valid_mono h h' x :
  length h <= length h' -> Store.valid h x = true -> Store.valid h' x = true.
Proof.
  destruct x; auto. rewrite !valid_obj. lia.
Qed.

Lemma closed_lookup h :
  Store.closed h = true <->
  forall l o x, h !! l = Some o -> x ∈ Store.refs_of o ->
                Store.valid h x = true.
Proof.
  unfold Store.closed. rewrite forallb_forall. split.
  - intros H l o x Hl Hx.
    apply list_elem_of_lookup_2, list_elem_of_In in Hl.
    specialize (H o Hl). rewrite forallb_forall in H.
    apply H, list_elem_of_In, Hx.
  - intros H o Ho. apply forallb_forall. intros x Hx.
    apply list_elem_of_In, list_elem_of_lookup in Ho as [l Hl].
    apply (H l o x Hl), list_elem_of_In, Hx.
Qed.

Lemma deref_Some h x o :
  Store.deref h x = Some o -> exists l, x = Store.RObj l /\ h !! l = Some o.
Proof. destruct x; try discriminate. eauto. Qed.

Lemma closed_alloc h o :
  Store.closed h = true ->
  (forall x, x ∈ Store.refs_of o -> Store.valid h x = true) ->
  Store.closed (h ++ [o]) = true.
Proof.
  rewrite !closed_lookup. intros Hc Ho l o' x Hl Hx.
  apply (valid_mono h); [rewrite length_app; lia|].
  apply lookup_app_Some in Hl as [Hl|[_ Hl]].
  - eapply Hc; eauto.
  - apply list_lookup_singleton_Some in Hl as [_ <-]. apply Ho, Hx.
Qed.

Lemma elem_of_dict_set {V} key (val : V) items k x :
  (k, x) ∈ dict_set key val items -> x = val \/ (k, x) ∈ items.
Proof.
  induction items as [|[k' v'] rest IH]; cbn [dict_set].
  - intros H. apply list_elem_of_singleton in H. left. congruence.
  - destruct (String.eqb k' key).
    + intros H. apply elem_of_cons in H as [H|H]; [left; congruence|].
      right. apply list_elem_of_further, H.
    + intros H. apply elem_of_cons in H as [H|H].
      * right. rewrite H. apply list_elem_of_here.
      * destruct (IH H) as [?|?]; [left | right]; auto.
        apply list_elem_of_further. assumption.
Qed.

Lemma refs_of_dict_elem items x :
  x ∈ Store.refs_of (Store.ODict items) <-> exists k, (k, x) ∈ items.
Proof.
  cbn [Store.refs_of]. rewrite list_elem_of_fmap. split.
  - intros ([k y] & -> & H). eauto.
  - intros (k & H). exists (k, x). auto.
Qed.

(** [x[key] = val] changes the one dict [x] and keeps every object of
    its kind. *)
Lemma setitem_Ok x key val h u h' :
  Store.setitem x key val h = Ok (u, h') ->
  exists l items,
    x = Store.RObj l /\ h !! l = Some (Store.ODict items) /\
    h' = <[l := Store.ODict (dict_set key val items)]> h.
Proof.
  unfold Store.setitem. destruct x as [| | | | |l]; try discriminate.
  cbn [Store.deref]. destruct (h !! l) as [[|items]|] eqn:Hl; try discriminate.
  intros [= _ <-]. eauto.
Qed.

Lemma is_dict_insert_dict h l items items' x :
  h !! l = Some (Store.ODict items) ->
  Store.is_dict (<[l := Store.ODict items']> h) x = Store.is_dict h x.
Proof.
  intros Hl. destruct x as [| | | | |l']; try reflexivity.
  unfold Store.is_dict. cbn [Store.deref].
  destruct (decide (l = l')) as [<-|Hne].
  - rewrite list_lookup_insert_eq by (eapply lookup_lt_Some, Hl).
    rewrite Hl. reflexivity.
  - rewrite list_lookup_insert_ne by exact Hne. reflexivity.
Qed.

Lemma is_dict_extends h h' x :
  Store.extends h h' -> Store.valid h x = true ->
  Store.is_dict h' x = Store.is_dict h x.
Proof.
  intros [_ H] Hx. destruct x as [| | | | |l]; try reflexivity.
  apply valid_obj in Hx. unfold Store.is_dict. cbn [Store.deref].
  rewrite H by exact Hx. reflexivity.
Qed.

Lemma is_dict_valid h x : Store.is_dict h x = true -> Store.valid h x = true.
Proof.
  destruct x as [| | | | |l]; try discriminate.
  unfold Store.is_dict. cbn [Store.deref].
  destruct (h !! l) eqn:Hl; [|discriminate]. intros _.
  apply valid_obj. eapply lookup_lt_Some, Hl.
Qed.

Lemma new_or_plain_extends n h h' x :
  n <= length h -> Store.extends h h' ->
  Store.new_or_plain n h x -> Store.new_or_plain n h' x.
Proof.
  intros Hn Hext. destruct x as [| | | | |l]; auto. cbn.
  intros [H|H]; [left; exact H|].
  destruct (decide (l < length h)) as [Hl|Hl]; [|left; lia].
  right. rewrite (is_dict_extends h h') by (auto; apply valid_obj, Hl).
  exact H.
Qed.

Lemma separated_alloc n h o :
  n <= length h -> Store.separated n h ->
  (forall items key x,
      o = Store.ODict items -> (key, x) ∈ items ->
      Store.new_or_plain n h x) ->
  Store.separated n (h ++ [o]).
Proof.
  intros Hn Hsep Ho l items key x Hl Hitems Hx.
  apply (new_or_plain_extends n h); [exact Hn | apply extends_alloc |].
  apply lookup_app_Some in Hitems as [Hitems|[_ Hitems]].
  - eapply Hsep; eauto.
  - apply list_lookup_singleton_Some in Hitems as [_ ->]. eapply Ho; eauto.
Qed.

Lemma separated_setitem n h l items key val :
  h !! l = Some (Store.ODict items) ->
  Store.separated n h -> Store.new_or_plain n h val ->
  Store.separated n (<[l := Store.ODict (dict_set key val items)]> h).
Proof.
  intros Hl Hsep Hval l' items' k x Hn Hl' Hx.
  assert (Hsame : forall y,
             Store.new_or_plain n h y ->
             Store.new_or_plain n
               (<[l := Store.ODict (dict_set key val items)]> h) y).
  { intros [| | | | |ly]; auto. cbn [Store.new_or_plain].
    rewrite (is_dict_insert_dict h l items) by exact Hl. auto. }
  apply Hsame.
  destruct (decide (l = l')) as [<-|Hne].
  - rewrite list_lookup_insert_eq in Hl' by (eapply lookup_lt_Some, Hl).
    injection Hl' as <-.
    apply elem_of_dict_set in Hx as [->|Hx]; [exact Hval|].
    eapply Hsep; eauto.
  - rewrite list_lookup_insert_ne in Hl' by exact Hne.
    eapply Hsep; eauto.
Qed.

Lemma closed_setitem h l items key val :
  h !! l = Some (Store.ODict items) ->
  Store.closed h = true -> Store.valid h val = true ->
  Store.closed (<[l := Store.ODict (dict_set key val items)]> h) = true.
Proof.
  rewrite !closed_lookup. intros Hl Hc Hval l' o x Hl' Hx.
  apply (valid_mono h); [rewrite length_insert; lia|].
  destruct (decide (l = l')) as [<-|Hne].
  - rewrite list_lookup_insert_eq in Hl' by (eapply lookup_lt_Some, Hl).
    injection Hl' as <-.
    apply refs_of_dict_elem in Hx as (k & Hx).
    apply elem_of_dict_set in Hx as [->|Hx]; [exact Hval|].
    eapply Hc; [exact Hl|]. apply refs_of_dict_elem. eauto.
  - rewrite list_lookup_insert_ne in Hl' by exact Hne. eapply Hc; eauto.
Qed.

Lemma store_get_Ok x key default h cur h' :
  Store.get x key default h = Ok (cur, h') ->
  h' = h /\
  exists l items,
    x = Store.RObj l /\ h !! l = Some (Store.ODict items) /\
    ((exists k, (k, cur) ∈ items) \/ cur = default).
Proof.
  unfold Store.get. destruct (Store.deref h x) as [[|items]|] eqn:Hx;
    try discriminate.
  apply deref_Some in Hx as (l & -> & Hl).
  intros [= <- <-]. split; [reflexivity|]. exists l, items.
  split; [reflexivity|]. split; [exact Hl|].
  destruct (dict_get key items) as [v|] eqn:Hg; [left | right; reflexivity].
  exists key. apply dict_get_Some_elem, Hg.
Qed.

Section rupdate_loop_store.
Variable rec : Store.ref -> Store.ref -> Store.M Store.ref.
Hypothesis Hrec :
  forall d1 d2 h r h', rec d1 d2 h = Ok (r, h') -> rupdate_post d1 h r h'.

Lemma rupdate_loop_post items :
  forall lc h u h',
    Store.rupdate_loop rec (Store.RObj lc) items h = Ok (u, h') ->
    lc < length h ->
    length h <= length h'
    /\ (forall l, l < length h -> l <> lc -> h' !! l = h !! l)
    /\ (forall x, Store.valid h x = true ->
                  Store.is_dict h' x = Store.is_dict h x)
    /\ (Store.closed h = true ->
        (forall k x, (k, x) ∈ items -> Store.valid h x = true) ->
        Store.closed h' = true)
    /\ (forall n, n <= lc -> Store.separated n h -> Store.separated n h').
Proof using Hrec.
  induction items as [|[key val] rest IH]; intros lc h u h' Hrun Hlc.
  - injection Hrun as <- <-. repeat split; auto.
  - cbn [Store.rupdate_loop] in Hrun.
    apply store_bind_Ok in Hrun as (isd & h0 & Hisd & Hrun).
    injection Hisd as <- <-.
    destruct (Store.is_dict h val) eqn:Hval.
    + apply store_bind_Ok in Hrun as (empty & ha & Hempty & Hrun).
      injection Hempty as <- <-.
      apply store_bind_Ok in Hrun as (cur & ha' & Hget & Hrun).
      apply store_get_Ok in Hget as (-> & l & items_c & [= <-] & Hc & Hcur).
      apply store_bind_Ok in Hrun as (new & hb & Hnew & Hrun).
      apply Hrec in Hnew as (-> & Hlen & Hext & Hclosed & Hsep & _).
      apply store_bind_Ok in Hrun as ([] & hc & Hset & Hrun).
      apply setitem_Ok in Hset as (l & items_b & [= <-] & Hb & ->).
      rewrite length_app in Hlen. cbn [length] in Hlen.
      apply IH in Hrun as (Hlen' & Hframe & Hkind & Hclosed' & Hsep');
        [|rewrite length_insert; lia].
      rewrite length_insert in *.
      pose proof (extends_alloc h (Store.ODict [])) as Ha.
      pose proof (extends_trans _ _ _ Ha Hext) as Hhb.
      split; [lia|]. split; [|split; [|split]].
      * intros l' Hl' Hne. rewrite Hframe by (auto; lia).
        rewrite list_lookup_insert_ne by auto. apply Hhb, Hl'.
      * intros x Hx. rewrite Hkind.
        -- rewrite (is_dict_insert_dict hb lc items_b) by exact Hb.
           apply is_dict_extends; assumption.
        -- eapply valid_mono; [|exact Hx]. rewrite length_insert. lia.
      * intros Hcl Hitems. apply Hclosed'.
        -- apply closed_setitem; [exact Hb | |].
           ++ apply Hclosed, closed_alloc; [exact Hcl|].
              intros x Hx. cbn in Hx. inversion Hx.
           ++ apply valid_obj. rewrite length_app. cbn [length]. lia.
        -- intros k x Hx. eapply valid_mono;
             [|apply (Hitems k x), list_elem_of_further, Hx].
           rewrite length_insert. lia.
      * intros n Hn Hs. apply Hsep'; [exact Hn|].
        assert (Hsa : Store.separated n (h ++ [Store.ODict []])).
        { apply separated_alloc; [lia | exact Hs |].
          intros items0 k x [= <-] Hx. inversion Hx. }
        apply separated_setitem; [exact Hb | |].
        -- apply Hsep; [rewrite length_app; lia | exact Hsa |].
           destruct Hcur as [(k & Hk)| ->].
           ++ eapply Hsa; [exact Hn | exact Hc | exact Hk].
           ++ left. lia.
        -- left. rewrite length_app. lia.
    + apply store_bind_Ok in Hrun as ([] & hc & Hset & Hrun).
      apply setitem_Ok in Hset as (l & items_c & [= <-] & Hc & ->).
      apply IH in Hrun as (Hlen' & Hframe & Hkind & Hclosed' & Hsep');
        [|rewrite length_insert; lia].
      rewrite length_insert in *.
      split; [lia|]. split; [|split; [|split]].
      * intros l' Hl' Hne. rewrite Hframe by (auto; lia).
        apply list_lookup_insert_ne. auto.
      * intros x Hx. rewrite Hkind.
        -- apply (is_dict_insert_dict h lc items_c), Hc.
        -- eapply valid_mono; [|exact Hx]. rewrite length_insert. lia.
      * intros Hcl Hitems. apply Hclosed'.
        -- apply closed_setitem; [exact Hc | exact Hcl |].
           apply (Hitems key), list_elem_of_here.
        -- intros k x Hx. eapply valid_mono;
             [|apply (Hitems k x), list_elem_of_further, Hx].
           rewrite length_insert. lia.
      * intros n Hn Hs. apply Hsep'; [exact Hn|].
        apply separated_setitem; [exact Hc | exact Hs |].
        destruct val as [| | | | |lv]; cbn; auto.
Qed.

End rupdate_loop_store.

Lemma store_rupdate_post depth :
  forall d1 d2 h r h',
    Store.rupdate depth d1 d2 h = Ok (r, h') -> rupdate_post d1 h r h'.
Proof.
  induction depth as [|depth IH]; intros d1 d2 h r h' Hrun; [discriminate|].
  cbn [Store.rupdate] in Hrun.
  apply store_bind_Ok in Hrun as (dict1c & h1 & Hcopy & Hrun).
  unfold Store.copy in Hcopy.
  destruct (Store.deref h d1) as [o|] eqn:Hd1; [|discriminate].
  injection Hcopy as <- <-.
  apply deref_Some in Hd1 as (l1 & -> & Hl1).
  apply store_bind_Ok in Hrun as (items & h1' & Hitems & Hrun).
  unfold Store.items_of in Hitems.
  destruct (Store.deref (h ++ [o]) d2) as [[|items2]|] eqn:Hd2;
    try discriminate.
  injection Hitems as <- <-.
  apply deref_Some in Hd2 as (l2 & -> & Hl2).
  apply store_bind_Ok in Hrun as ([] & h2 & Hloop & Hret).
  injection Hret as <- <-.
  apply (rupdate_loop_post _ IH) in Hloop
    as (Hlen & Hframe & Hkind & Hclosed & Hsep);
    [|rewrite length_app; cbn [length]; lia].
  rewrite length_app in Hlen. cbn [length] in Hlen.
  split; [reflexivity|]. split; [lia|]. split; [|split; [|split]].
  - split; [lia|]. intros l Hl.
    rewrite Hframe by (rewrite ?length_app; cbn [length]; lia).
    apply lookup_app_l, Hl.
  - intros Hcl.
    assert (Hcl1 : Store.closed (h ++ [o]) = true).
    { apply closed_alloc; [exact Hcl|]. intros x Hx.
      eapply closed_lookup; eauto. }
    apply Hclosed; [exact Hcl1|]. intros k x Hx.
    eapply (proj1 (closed_lookup _) Hcl1); [exact Hl2|].
    apply refs_of_dict_elem. eauto.
  - intros n Hn Hs Hd1. apply Hsep; [exact Hn|].
    apply separated_alloc; [exact Hn | exact Hs |].
    intros items0 k x -> Hx. destruct Hd1 as [Hd1|Hd1].
    + eapply Hs; eauto.
    + unfold Store.is_dict in Hd1. cbn [Store.deref] in Hd1.
      rewrite Hl1 in Hd1. discriminate.
  - intros Hd. rewrite Hkind.
    + unfold Store.is_dict in *. cbn [Store.deref] in *.
      rewrite Hl1 in Hd. rewrite list_lookup_middle by reflexivity.
      exact Hd.
    + apply valid_obj. rewrite length_app. cbn [length]. lia.
Qed.

(** ** What is reached from a configuration *)

Lemma mreach_head h x l :
  Store.mreach h x l -> exists lx, x = Store.RObj lx /\ Store.is_dict h x = true.
Proof.
  intros H. destruct H as [l items Hl|l items key x l' Hl _ _];
    exists l; (split; [reflexivity|]);
    unfold Store.is_dict; cbn [Store.deref]; rewrite Hl; reflexivity.
Qed.

Lemma separated_mreach n h x l :
  Store.separated n h -> Store.mreach h x l ->
  (forall lx, x = Store.RObj lx -> n <= lx) -> n <= l.
Proof.
  intros Hsep H. induction H as [l items Hl|l items key x l' Hl Hx Hreach IH];
    intros Hnew; [apply Hnew; reflexivity|].
  apply IH. intros lx ->.
  specialize (Hsep l items key (Store.RObj lx) (Hnew l eq_refl) Hl Hx).
  destruct Hsep as [Hge|Hplain]; [exact Hge|].
  apply mreach_head in Hreach as (_ & _ & Hd). congruence.
Qed.

Lemma closed_mreach_below h1 h' x l :
  Store.closed h1 = true -> Store.extends h1 h' ->
  Store.mreach h' x l -> Store.valid h1 x = true -> l < length h1.
Proof.
  intros Hcl [_ Hext] H.
  induction H as [l items Hl|l items key x l' Hl Hx Hreach IH]; intros Hv;
    apply valid_obj in Hv; [exact Hv|].
  apply IH. rewrite Hext in Hl by exact Hv.
  eapply (proj1 (closed_lookup h1) Hcl); [exact Hl|].
  apply refs_of_dict_elem. eauto.
Qed.

Lemma separated_at_end h : Store.separated (length h) h.
Proof.
  intros l items key x Hl Hitems _.
  apply lookup_lt_Some in Hitems. lia.
Qed.

Lemma store_finaldict_from_post depth dicts :
  forall lf h r h',
    Store.finaldict_from depth (Store.RObj lf) dicts h = Ok (r, h') ->
    Store.is_dict h (Store.RObj lf) = true ->
    finaldict_post lf h r h'.
Proof.
  induction dicts as [|d rest IH]; intros lf h r h' Hrun Hfd.
  - injection Hrun as <- <-. repeat split; auto.
    exists lf. repeat split; auto.
    apply is_dict_valid, valid_obj in Hfd. exact Hfd.
  - cbn [Store.finaldict_from] in Hrun.
    apply store_bind_Ok in Hrun as (fd' & h1 & Hstep & Hrun).
    pose proof (is_dict_valid _ _ Hfd) as Hlf. apply valid_obj in Hlf.
    apply store_rupdate_post in Hstep
      as (-> & Hlen & Hext & Hclosed & Hsep & Hkind).
    apply IH in Hrun
      as ((lr & -> & Hlo & Hhi) & Hd & Hext' & Hclosed' & Hsep');
      [|apply Hkind, Hfd].
    split; [exists lr; repeat split; auto; lia|].
    split; [exact Hd|]. split; [eapply extends_trans; eauto|].
    split; [auto|].
    intros n Hn Hs. apply Hsep'; [lia|].
    apply Hsep; [lia | exact Hs | left; exact Hn].
Qed.

Lemma store_finaldict_post depth dicts h r h' :
  Store.finaldict depth dicts h = Ok (r, h') ->
  finaldict_post (length h) h r h'.
Proof.
  unfold Store.finaldict. intros Hrun.
  apply store_bind_Ok in Hrun as (fd & h1 & Halloc & Hrun).
  injection Halloc as <- <-.
  apply store_finaldict_from_post in Hrun
      as (Hr & Hd & Hext & Hclosed & Hsep).
  2:{ unfold Store.is_dict. cbn [Store.deref].
      rewrite list_lookup_middle by reflexivity. reflexivity. }
  split; [exact Hr|]. split; [exact Hd|].
  split; [eapply extends_trans; [apply extends_alloc | exact Hext]|].
  split.
  - intros Hcl. apply Hclosed, closed_alloc; [exact Hcl|].
    intros x Hx. inversion Hx.
  - intros n Hn Hs. apply Hsep; [exact Hn|].
    apply separated_alloc; [exact Hn | exact Hs |].
    intros items k x [= <-] Hx. inversion Hx.
Qed.

Lemma apart_lower h cfgs :
  forall lo c l,
    apart h lo cfgs -> c ∈ cfgs -> Store.mreach h c l -> lo <= l.
Proof.
  induction cfgs as [|c' rest IH]; intros lo c l Hap Hin Hreach.
  - inversion Hin.
  - destruct Hap as (mid & Hmid & Hc & Hrest).
    apply elem_of_cons in Hin as [->|Hin].
    + apply Hc, Hreach.
    + specialize (IH mid c l Hrest Hin Hreach). lia.
Qed.

Lemma apart_disjoint h cfgs :
  forall lo i j ci cj l,
    apart h lo cfgs -> i < j ->
    cfgs !! i = Some ci -> cfgs !! j = Some cj ->
    Store.mreach h ci l -> Store.mreach h cj l -> False.
Proof.
  induction cfgs as [|c rest IH]; intros lo i j ci cj l Hap Hij Hi Hj Hri Hrj.
  - destruct i; discriminate.
  - destruct Hap as (mid & Hmid & Hc & Hrest).
    destruct j as [|j]; [lia|]. cbn in Hj.
    destruct i as [|i].
    + injection Hi as <-. apply Hc in Hri.
      apply list_elem_of_lookup_2 in Hj.
      pose proof (apart_lower h rest mid cj l Hrest Hj Hrj). lia.
    + cbn in Hi. eapply (IH mid i j); eauto. lia.
Qed.

Lemma store_mapM_finaldict_post depth combos :
  forall h cfgs h',
    Store.mapM (Store.finaldict depth) combos h = Ok (cfgs, h') ->
    Store.closed h = true ->
    Store.extends h h'
    /\ Store.closed h' = true
    /\ (forall n, n <= length h -> Store.separated n h ->
                  Store.separated n h')
    /\ Forall (fun c => exists lc, c = Store.RObj lc /\ length h <= lc
                                   /\ Store.is_dict h' c = true) cfgs
    /\ apart h' (length h) cfgs.
Proof.
  induction combos as [|combo rest IH]; intros h cfgs h' Hrun Hcl.
  - injection Hrun as <- <-. repeat split; auto using extends_refl.
  - cbn [Store.mapM] in Hrun.
    apply store_bind_Ok in Hrun as (c & h1 & Hc & Hrun).
    apply store_bind_Ok in Hrun as (cs & h2 & Hcs & Hret).
    injection Hret as <- <-.
    apply store_finaldict_post in Hc
      as ((lc & -> & Hlo & Hhi) & Hd & Hext & Hclosed & Hsep).
    apply IH in Hcs as (Hext' & Hclosed' & Hsep' & Hall & Hap);
      [|apply Hclosed, Hcl].
    pose proof (proj1 Hext) as Hlen.
    assert (Hsepn : forall n, n <= length h -> Store.separated n h ->
                              Store.separated n h2).
    { intros n Hn Hs. apply Hsep'; [lia|]. apply Hsep; assumption. }
    split; [eapply extends_trans; eauto|]. split; [exact Hclosed'|].
    split; [exact Hsepn|]. split.
    + constructor.
      * exists lc. split; [reflexivity|]. split; [exact Hlo|].
        rewrite (is_dict_extends h1 h2); auto. apply valid_obj, Hhi.
      * eapply Forall_impl; [exact Hall|].
        intros c (lc' & -> & Hlc' & Hd'). exists lc'.
        split; [reflexivity|]. split; [lia | exact Hd'].
    + exists (length h1). split; [exact Hlen|]. split; [|exact Hap].
      intros l Hreach. split.
      * eapply separated_mreach; [|exact Hreach|].
        -- apply Hsepn; [lia | apply separated_at_end].
        -- intros lx [= <-]. exact Hlo.
      * eapply closed_mreach_below; [| exact Hext' | exact Hreach |].
        -- apply Hclosed, Hcl.
        -- apply valid_obj, Hhi.
Qed.

(** ** The store against the values: [Store.rupdate] computes [rupdate] *)

Lemma mentioned_alloc_empty h x :
  Store.mentioned (h ++ [Store.ODict []]) x -> Store.mentioned h x.
Proof.
  intros (l & o & Hl & Hx).
  apply lookup_app_Some in Hl as [Hl|[_ Hl]].
  - exists l, o. auto.
  - apply list_lookup_singleton_Some in Hl as [_ <-]. inversion Hx.
Qed.

Lemma mentioned_setitem h l items key val x :
  h !! l = Some (Store.ODict items) ->
  Store.mentioned (<[l := Store.ODict (dict_set key val items)]> h) x ->
  Store.mentioned h x \/ x = val.
Proof.
  intros Hl (l' & o & Hl' & Hx).
  destruct (decide (l = l')) as [<-|Hne].
  - rewrite list_lookup_insert_eq in Hl' by (eapply lookup_lt_Some, Hl).
    injection Hl' as <-.
    apply refs_of_dict_elem in Hx as (k & Hx).
    apply elem_of_dict_set in Hx as [->|Hx]; [right; reflexivity|].
    left. exists l, (Store.ODict items). split; [exact Hl|].
    apply refs_of_dict_elem. eauto.
  - rewrite list_lookup_insert_ne in Hl' by exact Hne.
    left. exists l', o. auto.
Qed.

Section rupdate_loop_unheld.
Variable rec : Store.ref -> Store.ref -> Store.M Store.ref.
Hypothesis Hrec :
  forall d1 d2 h r h',
    rec d1 d2 h = Ok (r, h') ->
    rupdate_post d1 h r h'
    /\ (Store.closed h = true -> Store.valid h d2 = true ->
        keeps_unheld h h').

Lemma held_elsewhere_valid lc h items k x :
  Store.closed h = true -> held_elsewhere lc h items ->
  (k, x) ∈ items -> Store.valid h x = true.
Proof.
  intros Hcl Hitems Hx. destruct (Hitems k x Hx) as (l & o & _ & Hl & Ho).
  eapply closed_lookup; eauto.
Qed.

Lemma rupdate_loop_unheld items :
  forall lc h u h',
    Store.rupdate_loop rec (Store.RObj lc) items h = Ok (u, h') ->
    Store.closed h = true ->
    held_elsewhere lc h items ->
    length h <= length h' /\ keeps_unheld h h'.
Proof using Hrec.
  induction items as [|[key val] rest IH]; intros lc h u h' Hrun Hcl Hitems.
  - injection Hrun as <- <-. split; [lia|]. intros l _ H. exact H.
  - pose proof (held_elsewhere_valid _ _ _ key val Hcl Hitems
                  (list_elem_of_here _ _)) as Hvalid.
    cbn [Store.rupdate_loop] in Hrun.
    apply store_bind_Ok in Hrun as (isd & h0 & Hisd & Hrun).
    injection Hisd as <- <-.
    destruct (Store.is_dict h val) eqn:Hval.
    + apply store_bind_Ok in Hrun as (empty & ha & Hempty & Hrun).
      injection Hempty as <- <-.
      apply store_bind_Ok in Hrun as (cur & ha' & Hget & Hrun).
      apply store_get_Ok in Hget as (-> & _).
      apply store_bind_Ok in Hrun as (new & hb & Hnew & Hrun).
      assert (Hcla : Store.closed (h ++ [Store.ODict []]) = true).
      { apply closed_alloc; [exact Hcl|]. intros x Hx. inversion Hx. }
      apply Hrec in Hnew as ((-> & Hlen & Hext & Hclb & _) & Hkeep).
      specialize (Hclb Hcla).
      specialize (Hkeep Hcla
                    (valid_mono _ _ _ (proj1 (extends_alloc _ _)) Hvalid)).
      apply store_bind_Ok in Hrun as ([] & hc & Hset & Hrun).
      apply setitem_Ok in Hset as (l & items_b & [= <-] & Hb & ->).
      rewrite length_app in Hlen. cbn [length] in Hlen.
      apply IH in Hrun as (Hlen' & Hkeep').
      * rewrite length_insert in Hlen'. split; [lia|].
        intros l Hl Hm. apply mentioned_alloc_empty.
        apply Hkeep; [rewrite length_app; lia|].
        apply Hkeep' in Hm; [|rewrite length_insert; lia].
        apply (mentioned_setitem hb lc items_b) in Hm as [Hm|Hm];
          [exact Hm | | exact Hb].
        injection Hm as ->. rewrite length_app in Hl. lia.
      * apply closed_setitem; [exact Hb | exact Hclb |].
        apply valid_obj. rewrite length_app. cbn [length]. lia.
      * intros k x Hx.
        destruct (Hitems k x (list_elem_of_further _ _ _ Hx))
          as (l & o & Hne & Hl & Ho).
        exists l, o. split; [exact Hne|]. split; [|exact Ho].
        rewrite list_lookup_insert_ne by auto.
        rewrite (proj2 Hext) by
          (rewrite length_app; apply lookup_lt_Some in Hl; lia).
        apply lookup_app_l_Some, Hl.
    + apply store_bind_Ok in Hrun as ([] & hc & Hset & Hrun).
      apply setitem_Ok in Hset as (l & items_c & [= <-] & Hc & ->).
      apply IH in Hrun as (Hlen' & Hkeep').
      * rewrite length_insert in Hlen'. split; [lia|].
        intros l Hl Hm.
        apply Hkeep' in Hm; [|rewrite length_insert; lia].
        apply (mentioned_setitem h lc items_c) in Hm as [Hm|Hm];
          [exact Hm | | exact Hc].
        destruct (Hitems key val (list_elem_of_here _ _))
          as (l' & o & _ & Hl' & Ho).
        exists l', o. rewrite Hm. auto.
      * apply closed_setitem; assumption.
      * intros k x Hx.
        destruct (Hitems k x (list_elem_of_further _ _ _ Hx))
          as (l & o & Hne & Hl & Ho).
        exists l, o. split; [exact Hne|]. split; [|exact Ho].
        rewrite list_lookup_insert_ne by auto. exact Hl.
Qed.

End rupdate_loop_unheld.

Lemma store_rupdate_unheld depth :
  forall d1 d2 h r h',
    Store.rupdate depth d1 d2 h = Ok (r, h') ->
    Store.closed h = true -> Store.valid h d2 = true ->
    keeps_unheld h h'.
Proof.
  induction depth as [|depth IH]; intros d1 d2 h r h' Hrun Hcl Hv;
    [discriminate|].
  cbn [Store.rupdate] in Hrun.
  apply store_bind_Ok in Hrun as (dict1c & h1 & Hcopy & Hrun).
  unfold Store.copy in Hcopy.
  destruct (Store.deref h d1) as [o|] eqn:Hd1; [|discriminate].
  injection Hcopy as <- <-.
  apply deref_Some in Hd1 as (l1 & -> & Hl1).
  apply store_bind_Ok in Hrun as (items & h1' & Hitems & Hrun).
  unfold Store.items_of in Hitems.
  destruct (Store.deref (h ++ [o]) d2) as [[|items2]|] eqn:Hd2;
    try discriminate.
  injection Hitems as <- <-.
  apply deref_Some in Hd2 as (l2 & -> & Hl2).
  apply valid_obj in Hv.
  apply store_bind_Ok in Hrun as ([] & h2 & Hloop & Hret).
  injection Hret as <- <-.
  apply (rupdate_loop_unheld (Store.rupdate depth)) in Hloop
    as (_ & Hkeep).
  - intros l Hl Hm.
    apply Hkeep in Hm; [|rewrite length_app; lia].
    destruct Hm as (l' & o' & Hl' & Hx).
    apply lookup_app_Some in Hl' as [Hl'|[_ Hl']].
    + exists l', o'. auto.
    + apply list_lookup_singleton_Some in Hl' as [_ <-].
      exists l1, o. auto.
  - intros a b h0 r0 h0' H0. split.
    + eapply store_rupdate_post, H0.
    + intros Hcl0 Hv0. eapply IH; eauto.
  - apply closed_alloc; [exact Hcl|]. intros x Hx.
    eapply closed_lookup; eauto.
  - intros k x Hx.
    exists l2, (Store.ODict items2). split; [lia|].
    split; [exact Hl2|]. apply refs_of_dict_elem. eauto.
Qed.

Lemma Forall2_impl_elem {A B} (R R' : A -> B -> Prop) l1 l2 :
  Forall2 R l1 l2 ->
  (forall a b, a ∈ l1 -> R a b -> R' a b) ->
  Forall2 R' l1 l2.
Proof.
  induction 1 as [|a b l1 l2 Hab _ IH]; intros Himpl; constructor.
  - apply Himpl; [apply list_elem_of_here | exact Hab].
  - apply IH. intros a' b' Hin. apply Himpl, list_elem_of_further, Hin.
Qed.

Lemma Forall2_Forall_r {A B} (R R' : A -> B -> Prop) (P : B -> Prop) l1 l2 :
  Forall2 R l1 l2 -> Forall P l2 ->
  (forall a b, a ∈ l1 -> P b -> R a b -> R' a b) ->
  Forall2 R' l1 l2.
Proof.
  induction 1 as [|a b l1 l2 Hab _ IH]; intros HP Himpl; constructor.
  - apply Forall_cons in HP as [Hb _].
    apply Himpl; [apply list_elem_of_here | exact Hb | exact Hab].
  - apply Forall_cons in HP as [_ HP]. apply IH; [exact HP|].
    intros a' b' Hin. apply Himpl, list_elem_of_further, Hin.
Qed.

Lemma repr_is_dict h x v :
  Store.repr h x v -> Store.is_dict h x = isinstance_dict v.
Proof.
  intros H. destruct H; try reflexivity;
    unfold Store.is_dict; cbn [Store.deref]; rewrite H; reflexivity.
Qed.

Lemma repr_valid h x v : Store.repr h x v -> Store.valid h x = true.
Proof.
  intros H. destruct H; try reflexivity;
    apply valid_obj; eapply lookup_lt_Some; eassumption.
Qed.

(** A value read from the store is read the same after a change that
    keeps the objects it is read from: more objects ... *)
Lemma repr_extends h h' v :
  Store.extends h h' ->
  forall x, Store.repr h x v -> Store.repr h' x v.
Proof.
  intros [_ Hext].
  induction v as [| | | | |vs IH|vitems IH] using values_ind;
    intros x Hx; inversion Hx; subst; try constructor.
  - econstructor.
    + rewrite Hext by (eapply lookup_lt_Some; eassumption). eassumption.
    + eapply Forall2_Forall_r; [eassumption | exact IH|].
      intros a b _ Hb Hab. apply Hb, Hab.
  - econstructor.
    + rewrite Hext by (eapply lookup_lt_Some; eassumption). eassumption.
    + eapply Forall2_Forall_r; [eassumption | exact IH|].
      intros a b _ Hb [Hk Hab]. split; [exact Hk | apply Hb, Hab].
Qed.

(** ... or another dict at a location that nothing refers to. *)
Lemma repr_insert h lc o v :
  ~ Store.mentioned h (Store.RObj lc) ->
  forall x, x <> Store.RObj lc ->
            Store.repr h x v -> Store.repr (<[lc := o]> h) x v.
Proof.
  intros Hun.
  induction v as [| | | | |vs IH|vitems IH] using values_ind;
    intros x Hne Hx; inversion Hx; subst; try constructor.
  - econstructor.
    + rewrite list_lookup_insert_ne by congruence. eassumption.
    + eapply Forall2_Forall_r; [eassumption | exact IH|].
      intros a b Ha Hb Hab. apply Hb; [|exact Hab].
      intros ->. apply Hun. eexists _, _. split; [eassumption|].
      exact Ha.
  - econstructor.
    + rewrite list_lookup_insert_ne by congruence. eassumption.
    + eapply Forall2_Forall_r; [eassumption | exact IH|].
      intros a b Ha Hb [Hk Hab]. split; [exact Hk|].
      apply Hb; [|exact Hab].
      intros Heq. apply Hun. eexists _, _. split; [eassumption|].
      apply refs_of_dict_elem. exists (fst a). rewrite <- Heq.
      destruct a. exact Ha.
Qed.

Lemma repr_items_get h items vitems key :
  repr_items h items vitems ->
  match dict_get key items, dict_get key vitems with
  | Some x, Some v => Store.repr h x v
  | None, None => True
  | _, _ => False
  end.
Proof.
  induction 1 as [|[k x] [k' v] items vitems [Hk Hxv] _ IH]; [exact I|].
  cbn [fst snd] in *. subst k'. cbn [dict_get].
  destruct (String.eqb k key); [exact Hxv | exact IH].
Qed.

Lemma repr_items_set h items vitems key x v :
  repr_items h items vitems -> Store.repr h x v ->
  repr_items h (dict_set key x items) (dict_set key v vitems).
Proof.
  intros H Hxv.
  induction H as [|[k x'] [k' v'] items vitems [Hk Hxv'] Htail IH].
  - repeat constructor. exact Hxv.
  - cbn [fst snd] in *. subst k'. cbn [dict_set].
    destruct (String.eqb k key); constructor; auto.
Qed.

Lemma repr_items_elem h items vitems k x :
  repr_items h items vitems -> (k, x) ∈ items ->
  exists v, (k, v) ∈ vitems /\ Store.repr h x v.
Proof.
  induction 1 as [|[k1 x1] [k2 v2] items vitems [Hk Hxv] _ IH]; intros Hin.
  - inversion Hin.
  - cbn [fst snd] in *. subst k2.
    apply elem_of_cons in Hin as [[= -> ->]|Hin].
    + exists v2. split; [apply list_elem_of_here | exact Hxv].
    + destruct (IH Hin) as (v & Hv & Hr). exists v.
      split; [apply list_elem_of_further, Hv | exact Hr].
Qed.

Lemma held_elsewhere_step lc h h' kv rest :
  held_elsewhere lc h (kv :: rest) ->
  (forall l, l < length h -> l <> lc -> h' !! l = h !! l) ->
  held_elsewhere lc h' rest.
Proof.
  intros Hheld Hframe k x Hx.
  destruct (Hheld k x (list_elem_of_further _ _ _ Hx))
    as (l & o & Hne & Hl & Ho).
  exists l, o. split; [exact Hne|]. split; [|exact Ho].
  rewrite Hframe; [exact Hl | eapply lookup_lt_Some, Hl | exact Hne].
Qed.

(** One turn of the loop in the store, by the kind of the item and of
    the copy. *)
Lemma store_loop_dict_step rec lc key val rest h aitems :
  Store.is_dict h val = true ->
  h !! lc = Some (Store.ODict aitems) ->
  Store.rupdate_loop rec (Store.RObj lc) ((key, val) :: rest) h =
  match rec (match dict_get key aitems with
             | Some y => y
             | None => Store.RObj (length h)
             end) val (h ++ [Store.ODict []]) with
  | Ok (new, hb) =>
      match hb !! lc with
      | Some (Store.ODict bitems) =>
          Store.rupdate_loop rec (Store.RObj lc) rest
            (<[lc := Store.ODict (dict_set key new bitems)]> hb)
      | _ => Err TypeError
      end
  | Err e => Err e
  end.
Proof.
  intros Hval Hl. cbn [Store.rupdate_loop].
  unfold Store.bind, Store.isinstance_dict, Store.alloc, Store.get,
    Store.setitem.
  rewrite Hval. cbn [Store.deref].
  rewrite lookup_app_l by (eapply lookup_lt_Some, Hl). rewrite Hl.
  destruct (rec _ val _) as [[new hb]|]; [|reflexivity].
  destruct (hb !! lc) as [[|bitems]|]; reflexivity.
Qed.

Lemma store_loop_dict_list rec lc key val rest h elems :
  Store.is_dict h val = true ->
  h !! lc = Some (Store.OList elems) ->
  Store.rupdate_loop rec (Store.RObj lc) ((key, val) :: rest) h
  = Err AttributeError.
Proof.
  intros Hval Hl. cbn [Store.rupdate_loop].
  unfold Store.bind, Store.isinstance_dict, Store.alloc, Store.get.
  rewrite Hval. cbn [Store.deref].
  rewrite lookup_app_l by (eapply lookup_lt_Some, Hl). rewrite Hl.
  reflexivity.
Qed.

Lemma store_loop_plain_step rec lc key val rest h aitems :
  Store.is_dict h val = false ->
  h !! lc = Some (Store.ODict aitems) ->
  Store.rupdate_loop rec (Store.RObj lc) ((key, val) :: rest) h =
  Store.rupdate_loop rec (Store.RObj lc) rest
    (<[lc := Store.ODict (dict_set key val aitems)]> h).
Proof.
  intros Hval Hl. cbn [Store.rupdate_loop].
  unfold Store.bind, Store.isinstance_dict, Store.setitem.
  rewrite Hval. cbn [Store.deref]. rewrite Hl. reflexivity.
Qed.

Lemma store_loop_plain_list rec lc key val rest h elems :
  Store.is_dict h val = false ->
  h !! lc = Some (Store.OList elems) ->
  Store.rupdate_loop rec (Store.RObj lc) ((key, val) :: rest) h
  = Err TypeError.
Proof.
  intros Hval Hl. cbn [Store.rupdate_loop].
  unfold Store.bind, Store.isinstance_dict, Store.setitem.
  rewrite Hval. cbn [Store.deref]. rewrite Hl. reflexivity.
Qed.

Lemma rupdate_loop_cons_list key val rest elems :
  rupdate_loop ((key, val) :: rest) (VList elems) =
  Err (if isinstance_dict val then AttributeError else TypeError).
Proof. cbn [rupdate_loop]. destruct (isinstance_dict val); reflexivity. Qed.

Section rupdate_loop_refines.
Variable d : nat.
Variable h0 : Store.store.

Lemma rupdate_loop_refines vitems :
  Forall (fun kv =>
            forall v1 x1 x2 h,
              Store.closed h = true ->
              Store.repr h x1 v1 -> Store.repr h x2 (snd kv) ->
              rupdate_refined d h x1 x2 (rupdate v1 (snd kv))) vitems ->
  forall items,
    repr_items h0 items vitems ->
    forall acc lc h,
      Store.extends h0 h -> length h0 <= lc -> lc < length h ->
      Store.closed h = true ->
      ~ Store.mentioned h (Store.RObj lc) ->
      held_elsewhere lc h items ->
      Store.repr h (Store.RObj lc) acc ->
      loop_refined (Store.rupdate d) lc items h (rupdate_loop vitems acc).
Proof.
  induction 1 as [|[key v] vrest IHv _ IH]; intros items Hitems;
    inversion Hitems as [|[key' x] ? irest ? [Hk Hxv] Hrest]; subst;
    intros acc lc h Hext Hlo Hlc Hcl Hun Hheld Hacc.
  - exists h. split; [reflexivity | exact Hacc].
  - cbn [fst snd] in *. subst key'.
    pose proof (repr_extends _ _ _ Hext _ Hxv) as Hxv_h.
    pose proof (repr_is_dict _ _ _ Hxv_h) as Hkind.
    assert (Hx_ne : x <> Store.RObj lc).
    { intros ->. apply Hun.
      destruct (Hheld key _ (list_elem_of_here _ _)) as (l & o & _ & Hl & Ho).
      exists l, o. auto. }
    unfold loop_refined.
    inversion Hacc as [| | | | |l elems vs Hl Helems
                        |l aitems avitems Hl Haitems]; subst.
    { (* the copy is a list: the first item raises *)
      rewrite rupdate_loop_cons_list.
      destruct (isinstance_dict v) eqn:Hv.
      - eapply store_loop_dict_list; eauto.
      - eapply store_loop_plain_list; eauto. }
    destruct (isinstance_dict v) eqn:Hv.
    + (* a nested mapping: merge it into what the copy holds *)
      rewrite rupdate_loop_cons_dict by exact Hv.
      rewrite (store_loop_dict_step _ _ _ _ _ _ aitems) by assumption.
      set (ha := h ++ [Store.ODict []]).
      assert (Hha : Store.extends h ha) by apply extends_alloc.
      assert (Hcla : Store.closed ha = true).
      { apply closed_alloc; [exact Hcl|]. intros y Hy. inversion Hy. }
      set (cur := match dict_get key aitems with
                  | Some y => y
                  | None => Store.RObj (length h)
                  end).
      assert (Hcur : Store.repr ha cur (get_or_empty key avitems)).
      { pose proof (repr_items_get h aitems avitems key Haitems) as Hg.
        unfold cur, get_or_empty.
        destruct (dict_get key aitems) as [y|], (dict_get key avitems) as [w|];
          try contradiction.
        - eapply repr_extends; eauto.
        - econstructor; [|constructor]. unfold ha.
          apply list_lookup_middle. reflexivity. }
      specialize (IHv _ cur x ha Hcla Hcur
                    (repr_extends _ _ _ Hha _ Hxv_h)).
      unfold rupdate_refined in IHv.
      destruct (rupdate (get_or_empty key avitems) v) as [new|e] eqn:Hnew.
      2:{ cbn [bind]. rewrite IHv. reflexivity. }
      destruct IHv as (hb & Hrun & Hnewr). cbn [bind]. rewrite Hrun.
      pose proof (store_rupdate_post _ _ _ _ _ _ Hrun)
        as (_ & Hlenb & Hextb & Hclb & _).
      specialize (Hclb Hcla).
      pose proof (store_rupdate_unheld _ _ _ _ _ _ Hrun Hcla
                    (repr_valid _ _ _ (repr_extends _ _ _ Hha _ Hxv_h)))
        as Hkeep.
      assert (Hlen_a : length ha = S (length h)).
      { unfold ha. rewrite length_app. cbn [length]. lia. }
      assert (Hhb : Store.extends h hb) by (eapply extends_trans; eauto).
      assert (Hlb : hb !! lc = Some (Store.ODict aitems)).
      { rewrite (proj2 Hhb) by exact Hlc. exact Hl. }
      assert (Hunb : ~ Store.mentioned hb (Store.RObj lc)).
      { intros Hm. apply Hun, mentioned_alloc_empty.
        apply Hkeep; [lia | exact Hm]. }
      rewrite Hlb.
      set (hc := <[lc := Store.ODict
                          (dict_set key (Store.RObj (length ha)) aitems)]> hb).
      apply (IH irest Hrest (VDict (dict_set key new avitems)) lc hc).
      * split; [unfold hc; rewrite length_insert;
                pose proof (proj1 Hext); pose proof (proj1 Hhb); lia|].
        intros l0 Hl0. unfold hc.
        rewrite list_lookup_insert_ne by lia.
        rewrite (proj2 Hhb) by (pose proof (proj1 Hext); lia).
        apply (proj2 Hext), Hl0.
      * exact Hlo.
      * unfold hc. rewrite length_insert. pose proof (proj1 Hhb). lia.
      * apply closed_setitem; [exact Hlb | exact Hclb |].
        apply valid_obj. lia.
      * intros Hm. apply (mentioned_setitem hb lc aitems) in Hm as [Hm|Hm];
          [exact (Hunb Hm) | | exact Hlb].
        injection Hm as Hm. lia.
      * eapply held_elsewhere_step; [exact Hheld|].
        intros l0 Hl0 Hne. unfold hc.
        rewrite list_lookup_insert_ne by auto. apply (proj2 Hhb), Hl0.
      * econstructor.
        -- unfold hc. apply list_lookup_insert_eq.
           eapply lookup_lt_Some, Hlb.
        -- apply repr_items_set.
           ++ eapply Forall2_impl_elem; [exact Haitems|].
              intros [k y] [k' w] Hin [Hkk Hyw]. split; [exact Hkk|].
              cbn [snd] in *. apply repr_insert; [exact Hunb | |].
              ** intros ->. apply Hun. exists lc, (Store.ODict aitems).
                 split; [exact Hl|]. apply refs_of_dict_elem. eauto.
              ** eapply repr_extends; eauto.
           ++ apply repr_insert; [exact Hunb | | exact Hnewr].
              intros [= Heq]. lia.
    + (* a plain value: it replaces what the copy holds *)
      rewrite rupdate_loop_cons_other by exact Hv.
      rewrite (store_loop_plain_step _ _ _ _ _ _ aitems) by assumption.
      set (hc := <[lc := Store.ODict (dict_set key x aitems)]> h).
      apply (IH irest Hrest (VDict (dict_set key v avitems)) lc hc).
      * split; [unfold hc; rewrite length_insert; apply Hext|].
        intros l0 Hl0. unfold hc.
        rewrite list_lookup_insert_ne by lia. apply (proj2 Hext), Hl0.
      * exact Hlo.
      * unfold hc. rewrite length_insert. exact Hlc.
      * apply closed_setitem; [exact Hl | exact Hcl |].
        eapply repr_valid, Hxv_h.
      * intros Hm. apply (mentioned_setitem h lc aitems) in Hm as [Hm|Hm];
          [exact (Hun Hm) | | exact Hl].
        apply Hx_ne. congruence.
      * eapply held_elsewhere_step; [exact Hheld|].
        intros l0 Hl0 Hne. unfold hc.
        apply list_lookup_insert_ne. auto.
      * econstructor.
        -- unfold hc. apply list_lookup_insert_eq. eapply lookup_lt_Some, Hl.
        -- apply repr_items_set.
           ++ eapply Forall2_impl_elem; [exact Haitems|].
              intros [k y] [k' w] Hin [Hkk Hyw]. split; [exact Hkk|].
              cbn [snd] in *. apply repr_insert; [exact Hun | | exact Hyw].
              intros ->. apply Hun. exists lc, (Store.ODict aitems).
              split; [exact Hl|]. apply refs_of_dict_elem. eauto.
           ++ apply repr_insert; [exact Hun | exact Hx_ne | exact Hxv_h].
Qed.

End rupdate_loop_refines.

Lemma frames_items vitems d :
  frames (VDict vitems) <= S d ->
  Forall (fun kv => frames (snd kv) <= d) vitems.
Proof.
  cbn [frames]. intros H. apply le_S_n in H.
  apply list_max_le in H. rewrite List.Forall_forall in H.
  apply Forall_forall. intros kv Hin. apply H.
  apply in_map_iff. exists kv. split; [reflexivity|].
  apply list_elem_of_In, Hin.
Qed.

Lemma frames_pos v : 0 < frames v.
Proof. destruct v; cbn [frames]; lia. Qed.

Lemma closed_unheld_end h : Store.closed h = true ->
  forall o l, h !! l = Some o ->
  ~ Store.mentioned (h ++ [o]) (Store.RObj (length h)).
Proof.
  intros Hcl o l Hl (l' & o' & Hl' & Hx).
  assert (Hv : Store.valid h (Store.RObj (length h)) = true).
  { apply lookup_app_Some in Hl' as [Hl'|[_ Hl']].
    - eapply closed_lookup; eauto.
    - apply list_lookup_singleton_Some in Hl' as [_ <-].
      eapply closed_lookup; eauto. }
  apply valid_obj in Hv. lia.
Qed.

Lemma store_rupdate_refines_plain v2 v1 x1 x2 h depth :
  isinstance_dict v2 = false ->
  Store.repr h x1 v1 -> Store.repr h x2 v2 -> 0 < depth ->
  rupdate_refined depth h x1 x2 (rupdate v1 v2).
Proof.
  destruct depth as [|d]; intros Hv2 H1 H2 Hd; [lia|].
  assert (Hpure : rupdate v1 v2 = Err AttributeError).
  { rewrite rupdate_unfold.
    destruct v1; destruct v2; try reflexivity; discriminate. }
  rewrite Hpure. cbn [rupdate_refined Store.rupdate].
  unfold Store.bind, Store.copy, Store.alloc, Store.items_of.
  destruct (Store.deref h x1) as [o|]; [|reflexivity].
  assert (Hd2 : match Store.deref (h ++ [o]) x2 with
                | Some (Store.ODict _) => False
                | _ => True
                end).
  { inversion H2; subst; cbn [Store.deref]; try exact I.
    - rewrite lookup_app_l by (eapply lookup_lt_Some; eassumption).
      match goal with H : h !! _ = Some _ |- _ => rewrite H end. exact I.
    - discriminate. }
  destruct (Store.deref (h ++ [o]) x2) as [[|]|]; try reflexivity.
  contradiction.
Qed.

(** [Store.rupdate] computes [rupdate], given frames enough for the
    override. *)
Lemma store_rupdate_refines v2 :
  forall v1 x1 x2 h depth,
    Store.closed h = true ->
    Store.repr h x1 v1 -> Store.repr h x2 v2 ->
    frames v2 <= depth ->
    rupdate_refined depth h x1 x2 (rupdate v1 v2).
Proof.
  induction v2 as [| | | | |vs _|vitems IH] using values_ind;
    intros v1 x1 x2 h depth Hcl H1 H2 Hd;
    try (apply store_rupdate_refines_plain; auto; cbn [frames] in Hd; lia).
  destruct depth as [|d]; [cbn [frames] in Hd; lia|].
  pose proof (frames_items _ _ Hd) as Hframes.
  inversion H2 as [| | | | | |l2 items ? Hl2 Hitems]; subst.
  rewrite rupdate_dict.
  assert (Hcopy : (exists l1 o, x1 = Store.RObj l1 /\ h !! l1 = Some o
                                /\ copy v1 = Ok v1
                                /\ Store.repr (h ++ [o])
                                     (Store.RObj (length h)) v1)
                  \/ (Store.deref h x1 = None
                      /\ copy v1 = Err AttributeError)).
  { inversion H1; subst; try (right; split; reflexivity); left.
    - eexists _, _. split; [reflexivity|]. split; [eassumption|].
      split; [reflexivity|]. econstructor.
      + apply list_lookup_middle. reflexivity.
      + eapply Forall2_impl; [eassumption|].
        intros a b. apply repr_extends, extends_alloc.
    - eexists _, _. split; [reflexivity|]. split; [eassumption|].
      split; [reflexivity|]. econstructor.
      + apply list_lookup_middle. reflexivity.
      + eapply Forall2_impl; [eassumption|].
        intros a b [Hk Hab]. split; [exact Hk|].
        eapply repr_extends; [apply extends_alloc | exact Hab]. }
  destruct Hcopy as [(l1 & o & -> & Hl1 & -> & Hacc)|[Hnone ->]].
  2:{ cbn [bind rupdate_refined Store.rupdate].
      unfold Store.bind, Store.copy. rewrite Hnone. reflexivity. }
  cbn [bind].
  pose proof (rupdate_loop_refines d h vitems) as Hloop.
  specialize (Hloop
    ltac:(rewrite Forall_forall in IH; rewrite Forall_forall in Hframes;
          apply Forall_forall;
          intros kv Hin w y1 y2 h' Hcl' Hy1 Hy2;
          apply (IH kv Hin); auto)
    items Hitems v1 (length h) (h ++ [o])).
  specialize (Hloop (extends_alloc _ _) (le_n _)).
  specialize (Hloop ltac:(rewrite length_app; cbn [length]; lia)).
  specialize (Hloop ltac:(apply closed_alloc; [exact Hcl|];
                          intros y Hy; eapply closed_lookup; eauto)).
  specialize (Hloop (closed_unheld_end h Hcl o l1 Hl1)).
  specialize (Hloop
    ltac:(intros k y Hy; exists l2, (Store.ODict items);
          split; [apply lookup_lt_Some in Hl2; lia|];
          split; [apply lookup_app_l_Some, Hl2|];
          apply refs_of_dict_elem; eauto)
    Hacc).
  unfold loop_refined in Hloop. unfold rupdate_refined.
  cbn [Store.rupdate].
  unfold Store.bind, Store.copy, Store.alloc, Store.items_of.
  cbn [Store.deref]. rewrite Hl1. cbn [Store.deref].
  rewrite lookup_app_l by (eapply lookup_lt_Some, Hl2). rewrite Hl2.
  destruct (rupdate_loop vitems v1) as [v|e].
  - destruct Hloop as (h' & -> & Hv). exists h'. split; [reflexivity|].
    exact Hv.
  - rewrite Hloop. reflexivity.
Qed.

Lemma store_finaldict_from_refines depth h0 dicts vdicts :
  Forall2 (Store.repr h0) dicts vdicts ->
  Forall (fun v => frames v <= depth) vdicts ->
  forall fd vfd h,
    Store.extends h0 h -> Store.closed h = true ->
    Store.repr h fd vfd ->
    match finaldict_from vfd vdicts with
    | Ok v =>
        exists r h',
          Store.finaldict_from depth fd dicts h = Ok (r, h')
          /\ Store.repr h' r v /\ Store.extends h h'
          /\ Store.closed h' = true
    | Err e => Store.finaldict_from depth fd dicts h = Err e
    end.
Proof.
  induction 1 as [|d vd dicts vdicts Hd _ IH]; intros Hframes fd vfd h
    Hext Hcl Hfd.
  - exists fd, h. split; [reflexivity|]. split; [exact Hfd|].
    split; [apply extends_refl | exact Hcl].
  - apply Forall_cons in Hframes as [Hvd Hframes].
    cbn [finaldict_from Store.finaldict_from].
    pose proof (store_rupdate_refines vd vfd fd d h depth Hcl Hfd
                  (repr_extends _ _ _ Hext _ Hd) Hvd) as Hstep.
    unfold rupdate_refined in Hstep.
    destruct (rupdate vfd vd) as [vfd'|e]; cbn [bind].
    2:{ unfold Store.bind. rewrite Hstep. reflexivity. }
    destruct Hstep as (h1 & Hrun & Hfd').
    pose proof (store_rupdate_post _ _ _ _ _ _ Hrun)
      as (_ & _ & Hext1 & Hcl1 & _).
    specialize (IH Hframes _ vfd' h1
                  (extends_trans _ _ _ Hext Hext1) (Hcl1 Hcl) Hfd').
    destruct (finaldict_from vfd' vdicts) as [v|e].
    2:{ unfold Store.bind. rewrite Hrun. exact IH. }
    destruct IH as (r & h' & Hrun' & Hr & Hext' & Hcl').
    exists r, h'. split; [unfold Store.bind; rewrite Hrun; exact Hrun'|].
    split; [exact Hr|].
    split; [eapply extends_trans; eauto | exact Hcl'].
Qed.

Lemma store_finaldict_refines depth h dicts vdicts :
  Store.closed h = true ->
  Forall2 (Store.repr h) dicts vdicts ->
  Forall (fun v => frames v <= depth) vdicts ->
  match finaldict vdicts with
  | Ok v =>
      exists r h',
        Store.finaldict depth dicts h = Ok (r, h')
        /\ Store.repr h' r v /\ Store.extends h h'
        /\ Store.closed h' = true
  | Err e => Store.finaldict depth dicts h = Err e
  end.
Proof.
  intros Hcl Hdicts Hframes. unfold finaldict, Store.finaldict.
  pose proof (store_finaldict_from_refines depth h dicts vdicts Hdicts
                Hframes (Store.RObj (length h)) (VDict [])
                (h ++ [Store.ODict []]) (extends_alloc _ _)) as Hrun.
  specialize (Hrun ltac:(apply closed_alloc; [exact Hcl|];
                         intros y Hy; inversion Hy)).
  specialize (Hrun ltac:(econstructor; [|constructor];
                         apply list_lookup_middle; reflexivity)).
  unfold Store.bind, Store.alloc.
  destruct (finaldict_from (VDict []) vdicts) as [v|e]; [|exact Hrun].
  destruct Hrun as (r & h' & Hrun & Hr & Hext & Hcl').
  exists r, h'. split; [exact Hrun|]. split; [exact Hr|].
  split; [|exact Hcl'].
  eapply extends_trans; [apply extends_alloc | exact Hext].
Qed.

Lemma store_mapM_finaldict_refines depth h0 combos vcombos :
  Forall2 (Forall2 (Store.repr h0)) combos vcombos ->
  Forall (Forall (fun v => frames v <= depth)) vcombos ->
  forall h,
    Store.extends h0 h -> Store.closed h = true ->
    match mapM finaldict vcombos with
    | Ok vs =>
        exists rs h',
          Store.mapM (Store.finaldict depth) combos h = Ok (rs, h')
          /\ Forall2 (Store.repr h') rs vs /\ Store.extends h h'
    | Err e => Store.mapM (Store.finaldict depth) combos h = Err e
    end.
Proof.
  induction 1 as [|c vc combos vcombos Hc _ IH]; intros Hframes h Hext Hcl.
  - exists [], h. split; [reflexivity|]. split; [constructor|].
    apply extends_refl.
  - apply Forall_cons in Hframes as [Hvc Hframes].
    cbn [mapM Store.mapM].
    pose proof (store_finaldict_refines depth h c vc Hcl) as Hstep.
    specialize (Hstep
      ltac:(eapply Forall2_impl; [exact Hc|];
            intros a b; apply repr_extends, Hext) Hvc).
    destruct (finaldict vc) as [v|e]; cbn [bind].
    2:{ unfold Store.bind at 1. rewrite Hstep. reflexivity. }
    destruct Hstep as (r & h1 & Hrun & Hr & Hext1 & Hcl1).
    specialize (IH Hframes h1 (extends_trans _ _ _ Hext Hext1) Hcl1).
    destruct (mapM finaldict vcombos) as [vs|e]; cbn [bind].
    2:{ unfold Store.bind at 1. rewrite Hrun.
        unfold Store.bind at 1. rewrite IH. reflexivity. }
    destruct IH as (rs & h' & Hrun' & Hrs & Hext').
    exists (r :: rs), h'.
    split; [unfold Store.bind at 1; rewrite Hrun;
            unfold Store.bind at 1; rewrite Hrun'; reflexivity|].
    split.
    + constructor; [|exact Hrs]. eapply repr_extends; eauto.
    + eapply extends_trans; eauto.
Qed.

Lemma Forall2_lex_product {A B} (R : A -> B -> Prop) pools vpools :
  Forall2 (Forall2 R) pools vpools ->
  Forall2 (Forall2 R) (lex_product pools) (lex_product vpools).
Proof.
  induction 1 as [|pool vpool pools vpools Hpool _ IH]; cbn [lex_product].
  - repeat constructor.
  - induction Hpool as [|x v pool vpool Hxv _ IHpool]; cbn [flat_map].
    + constructor.
    + apply Forall2_app; [|exact IHpool].
      clear IHpool. induction IH as [|c vc cs vcs Hc _ IHcs]; cbn [map].
      * constructor.
      * constructor; [|exact IHcs]. constructor; assumption.
Qed.

(** [Store.cdicts_of] computes [cdicts_of]: on a closed store whose
    references stand for the documents, with frames enough for every
    document, it raises what [cdicts_of] raises or returns references
    that stand for the configurations [cdicts_of] returns. *)
Lemma store_cdicts_refines depth h fdicts vfdicts :
  Store.closed h = true ->
  Forall2 (Forall2 (Store.repr h)) fdicts vfdicts ->
  Forall (Forall (fun v => frames v <= depth)) vfdicts ->
  match cdicts_of vfdicts with
  | Ok vs =>
      exists rs h',
        Store.cdicts_of depth fdicts h = Ok (rs, h')
        /\ Forall2 (Store.repr h') rs vs
  | Err e => Store.cdicts_of depth fdicts h = Err e
  end.
Proof.
  intros Hcl Hdocs Hframes. unfold cdicts_of, Store.cdicts_of.
  pose proof (store_mapM_finaldict_refines depth h
                (product fdicts) (product vfdicts)) as Hrun.
  rewrite !product_lex in *.
  specialize (Hrun (Forall2_lex_product _ _ _ Hdocs)
                (product_conforms _ _ Hframes) h (extends_refl h) Hcl).
  destruct (mapM finaldict (lex_product vfdicts)) as [vs|e]; [|exact Hrun].
  destruct Hrun as (rs & h' & Hrun & Hrs & _). eauto.
Qed.

(** ** Values that are taken over by reference *)

Lemma deref_extends h h' x o :
  Store.extends h h' -> Store.deref h x = Some o -> Store.deref h' x = Some o.
Proof.
  intros [_ Hext] Hx. apply deref_Some in Hx as (l & -> & Hl).
  cbn [Store.deref]. rewrite Hext; [exact Hl|].
  eapply lookup_lt_Some, Hl.
Qed.

Lemma deref_valid h x o : Store.deref h x = Some o -> Store.valid h x = true.
Proof.
  intros Hx. apply deref_Some in Hx as (l & -> & Hl).
  apply valid_obj. eapply lookup_lt_Some, Hl.
Qed.

Lemma closed_item_valid h x items k v :
  Store.closed h = true ->
  Store.deref h x = Some (Store.ODict items) ->
  dict_get k items = Some v ->
  Store.valid h v = true.
Proof.
  intros Hcl Hx Hget. apply deref_Some in Hx as (l & -> & Hl).
  eapply (proj1 (closed_lookup h) Hcl l); [exact Hl|].
  cbn [Store.refs_of]. apply dict_get_Some_elem in Hget.
  apply list_elem_of_fmap. exists (k, v). auto.
Qed.

Section rupdate_loop_refs.
Variable rec : Store.ref -> Store.ref -> Store.M Store.ref.
Hypothesis Hrec :
  forall d1 d2 h r h', rec d1 d2 h = Ok (r, h') -> rupdate_post d1 h r h'.

(** The loop leaves under a key it does not meet what the copy held,
    and puts under a key whose value is not a dict that very value. *)
Lemma rupdate_loop_refs items :
  NoDup (keys items) ->
  forall lc h u h' cur,
    Store.rupdate_loop rec (Store.RObj lc) items h = Ok (u, h') ->
    h !! lc = Some (Store.ODict cur) ->
    exists fin,
      h' !! lc = Some (Store.ODict fin)
      /\ forall k,
          (dict_get k items = None -> dict_get k fin = dict_get k cur)
          /\ (forall v,
                 dict_get k items = Some v ->
                 Store.is_dict h v = false -> Store.valid h v = true ->
                 dict_get k fin = Some v).
Proof using Hrec.
  induction items as [|[key val] rest IH]; intros Hnd lc h u h' cur Hrun Hlc.
  - injection Hrun as <- <-. exists cur. split; [exact Hlc|].
    intros k. split; [reflexivity|discriminate].
  - cbn [keys map fst] in Hnd. apply NoDup_cons in Hnd as [Hfresh Hnd].
    assert (Hkey : dict_get key rest = None) by (apply dict_get_None, Hfresh).
    pose proof (lookup_lt_Some _ _ _ Hlc) as Hlt.
    cbn [Store.rupdate_loop] in Hrun.
    apply store_bind_Ok in Hrun as (isd & h0 & Hisd & Hrun).
    injection Hisd as <- <-.
    assert (Hstep :
             exists x hc,
               Store.rupdate_loop rec (Store.RObj lc) rest hc = Ok (u, h')
               /\ hc !! lc = Some (Store.ODict (dict_set key x cur))
               /\ (Store.is_dict h val = false -> x = val)
               /\ forall v, Store.valid h v = true ->
                            Store.is_dict hc v = Store.is_dict h v
                            /\ Store.valid hc v = true).
    { destruct (Store.is_dict h val) eqn:Hval.
      - apply store_bind_Ok in Hrun as (empty & ha & Hempty & Hrun).
        injection Hempty as <- <-.
        apply store_bind_Ok in Hrun as (cur0 & ha' & Hget & Hrun).
        apply store_get_Ok in Hget as (-> & _).
        apply store_bind_Ok in Hrun as (new & hb & Hnew & Hrun).
        apply Hrec in Hnew as (_ & Hlen & Hext & _).
        apply store_bind_Ok in Hrun as ([] & hc & Hset & Hrun).
        apply setitem_Ok in Hset as (l & items_b & [= <-] & Hb & ->).
        pose proof (extends_trans _ _ _ (extends_alloc h (Store.ODict []))
                      Hext) as Hhb.
        assert (Hcur : items_b = cur).
        { rewrite (proj2 Hhb lc Hlt), Hlc in Hb. congruence. }
        subst items_b.
        exists new, (<[lc := Store.ODict (dict_set key new cur)]> hb).
        split; [exact Hrun|]. split.
        { apply list_lookup_insert_eq. eapply lookup_lt_Some, Hb. }
        split; [discriminate|]. intros v Hv. split.
        + rewrite (is_dict_insert_dict hb lc cur) by exact Hb.
          apply is_dict_extends; assumption.
        + eapply valid_mono; [|exact Hv]. rewrite length_insert.
          apply Hhb.
      - apply store_bind_Ok in Hrun as ([] & hc & Hset & Hrun).
        apply setitem_Ok in Hset as (l & items_c & [= <-] & Hc & ->).
        assert (Hcur : items_c = cur) by congruence. subst items_c.
        exists val, (<[lc := Store.ODict (dict_set key val cur)]> h).
        split; [exact Hrun|]. split.
        { apply list_lookup_insert_eq. exact Hlt. }
        split; [reflexivity|]. intros v Hv. split.
        + apply (is_dict_insert_dict h lc cur), Hlc.
        + eapply valid_mono; [|exact Hv]. rewrite length_insert. lia. }
    destruct Hstep as (x & hc & Hrest & Hat & Hplain & Hstable).
    destruct (IH Hnd lc hc u h' _ Hrest Hat) as (fin & Hfin & Hk).
    exists fin. split; [exact Hfin|]. intros k. cbn [dict_get].
    destruct (Hk k) as [Hnone Hsome].
    destruct (String.eqb_spec key k) as [<- |Hne].
    + split; [discriminate|]. intros v [= <-] Hv _.
      rewrite (Hnone Hkey), dict_get_set_eq, (Hplain Hv). reflexivity.
    + split.
      * intros Hrestk. rewrite (Hnone Hrestk).
        apply dict_get_set_ne, Hne.
      * intros v Hget Hv Hvalid. destruct (Hstable v Hvalid) as [Hd Hv'].
        apply Hsome; [exact Hget| |exact Hv']. rewrite Hd. exact Hv.
Qed.

End rupdate_loop_refs.

(** What the dict returned by [rupdate] holds by reference: under a
    key that [dict2] does not have, the reference [dict1] holds; under
    a key where [dict2] holds something that is not a dict, that very
    reference. *)
Lemma store_rupdate_refs depth dict1 dict2 h r h' items1 items2 :
  Store.closed h = true ->
  Store.deref h dict1 = Some (Store.ODict items1) ->
  Store.deref h dict2 = Some (Store.ODict items2) ->
  NoDup (keys items2) ->
  Store.rupdate depth dict1 dict2 h = Ok (r, h') ->
  exists itemsr,
    Store.deref h' r = Some (Store.ODict itemsr)
    /\ forall k,
        (dict_get k items2 = None -> dict_get k itemsr = dict_get k items1)
        /\ (forall v,
               dict_get k items2 = Some v -> Store.is_dict h v = false ->
               dict_get k itemsr = Some v).
Proof.
  intros Hcl Hd1 Hd2 Hnd Hrun.
  destruct depth as [|depth]; [discriminate|].
  cbn [Store.rupdate] in Hrun.
  apply store_bind_Ok in Hrun as (dict1c & h1 & Hcopy & Hrun).
  unfold Store.copy in Hcopy. rewrite Hd1 in Hcopy.
  injection Hcopy as <- <-.
  apply store_bind_Ok in Hrun as (items & h1' & Hitems & Hrun).
  unfold Store.items_of in Hitems.
  rewrite (deref_extends h _ dict2 _ (extends_alloc h _) Hd2) in Hitems.
  injection Hitems as <- <-.
  apply store_bind_Ok in Hrun as ([] & h2 & Hloop & Hret).
  injection Hret as <- <-.
  destruct (rupdate_loop_refs (Store.rupdate depth)
              (store_rupdate_post depth) items2 Hnd (length h) _ tt h2 items1
              Hloop) as (fin & Hfin & Hk).
  { apply list_lookup_middle. reflexivity. }
  exists fin. split; [exact Hfin|]. intros k.
  destruct (Hk k) as [Hnone Hsome]. split; [exact Hnone|].
  intros v Hget Hv.
  pose proof (closed_item_valid h dict2 items2 k v Hcl Hd2 Hget) as Hvalid.
  apply Hsome; [exact Hget| |].
  - rewrite (is_dict_extends h) by (auto using extends_alloc). exact Hv.
  - eapply valid_mono; [|exact Hvalid]. rewrite length_app. lia.
Qed.

Lemma store_finaldict_from_app depth l1 :
  forall l2 fd h,
    Store.finaldict_from depth fd (l1 ++ l2) h
    = match Store.finaldict_from depth fd l1 h with
      | Ok (fd1, h1) => Store.finaldict_from depth fd1 l2 h1
      | Err e => Err e
      end.
Proof.
  induction l1 as [|d l1 IH]; intros l2 fd h; [reflexivity|].
  cbn [app Store.finaldict_from]. unfold Store.bind.
  destruct (Store.rupdate depth fd d h) as [[fd0 h0]|e]; [|reflexivity].
  apply IH.
Qed.

Lemma lacks_key_extends h h' k p :
  Store.extends h h' -> lacks_key h k p -> lacks_key h' k p.
Proof.
  intros Hext (itemsp & Hp & Hnd & Hk). exists itemsp.
  split; [eapply deref_extends; eassumption|]. auto.
Qed.

Lemma store_finaldict_from_keeps depth post :
  forall fd h c h' cur k v,
    Store.closed h = true ->
    Store.deref h fd = Some (Store.ODict cur) ->
    dict_get k cur = Some v ->
    Forall (lacks_key h k) post ->
    Store.finaldict_from depth fd post h = Ok (c, h') ->
    exists itemsc,
      Store.deref h' c = Some (Store.ODict itemsc)
      /\ dict_get k itemsc = Some v.
Proof.
  induction post as [|p post IH]; intros fd h c h' cur k v Hcl Hfd Hget Hpost
    Hrun.
  - injection Hrun as <- <-. eauto.
  - apply Forall_cons in Hpost as [(itemsp & Hp & Hnd & Hk) Hpost].
    cbn [Store.finaldict_from] in Hrun.
    apply store_bind_Ok in Hrun as (fd1 & h1 & Hstep & Hrun).
    destruct (store_rupdate_refs _ _ _ _ _ _ _ _ Hcl Hfd Hp Hnd Hstep)
      as (itemsr & Hr & Hkeys).
    apply store_rupdate_post in Hstep as (_ & _ & Hext & Hclosed & _).
    eapply (IH fd1 h1); [apply Hclosed, Hcl|exact Hr| | |exact Hrun].
    + rewrite (proj1 (Hkeys k) Hk). exact Hget.
    + eapply Forall_impl; [exact Hpost|].
      intros p'. apply lacks_key_extends, Hext.
Qed.

Lemma store_finaldict_last_wins depth pre d post h c h' itemsd k v :
  Store.closed h = true ->
  Store.deref h d = Some (Store.ODict itemsd) ->
  NoDup (keys itemsd) ->
  dict_get k itemsd = Some v ->
  Store.is_dict h v = false ->
  Forall (lacks_key h k) post ->
  Store.finaldict depth (pre ++ d :: post) h = Ok (c, h') ->
  exists itemsc,
    Store.deref h' c = Some (Store.ODict itemsc)
    /\ dict_get k itemsc = Some v.
Proof.
  intros Hcl Hd Hnd Hget Hv Hpost Hrun. unfold Store.finaldict in Hrun.
  apply store_bind_Ok in Hrun as (fd & h0 & Halloc & Hrun).
  injection Halloc as <- <-.
  pose proof (extends_alloc h (Store.ODict [])) as Hext0.
  assert (Hcl0 : Store.closed (h ++ [Store.ODict []]) = true).
  { apply closed_alloc; [exact Hcl|]. intros x Hx. inversion Hx. }
  rewrite store_finaldict_from_app in Hrun.
  destruct (Store.finaldict_from depth (Store.RObj (length h)) pre
              (h ++ [Store.ODict []])) as [[fd1 h1]|e] eqn:Hpre;
    [|discriminate].
  apply store_finaldict_from_post in Hpre
    as ((l1 & -> & _ & _) & Hdict1 & Hext1 & Hclosed1 & _).
  2:{ unfold Store.is_dict. cbn [Store.deref].
      rewrite list_lookup_middle by reflexivity. reflexivity. }
  pose proof (extends_trans _ _ _ Hext0 Hext1) as Hext.
  pose proof (Hclosed1 Hcl0) as Hcl1.
  unfold Store.is_dict in Hdict1.
  destruct (Store.deref h1 (Store.RObj l1)) as [[|A]|] eqn:HA;
    try discriminate.
  cbn [Store.finaldict_from] in Hrun.
  apply store_bind_Ok in Hrun as (fd2 & h2 & Hstep & Hrun).
  destruct (store_rupdate_refs _ _ _ _ _ _ _ _ Hcl1 HA
              (deref_extends _ _ _ _ Hext Hd) Hnd Hstep)
    as (itemsr & Hr & Hkeys).
  apply store_rupdate_post in Hstep as (_ & _ & Hext2 & Hclosed2 & _).
  eapply (store_finaldict_from_keeps depth post fd2 h2);
    [apply Hclosed2, Hcl1|exact Hr| | |exact Hrun].
  - apply (proj2 (Hkeys k)); [exact Hget|].
    rewrite (is_dict_extends h h1); [exact Hv|exact Hext|].
    eapply closed_item_valid; eassumption.
  - eapply Forall_impl; [exact Hpost|].
    intros p'. apply lacks_key_extends.
    eapply extends_trans; eassumption.
Qed.

Lemma store_mapM_finaldict_last_wins depth combos :
  forall h0 h cfgs h',
    Store.closed h0 = true -> Store.extends h0 h ->
    Store.closed h = true ->
    Store.mapM (Store.finaldict depth) combos h = Ok (cfgs, h') ->
    forall i pre d post c itemsd k v,
      combos !! i = Some (pre ++ d :: post) ->
      cfgs !! i = Some c ->
      Store.deref h0 d = Some (Store.ODict itemsd) ->
      NoDup (keys itemsd) ->
      dict_get k itemsd = Some v ->
      Store.is_dict h0 v = false ->
      Forall (lacks_key h0 k) post ->
      exists itemsc,
        Store.deref h' c = Some (Store.ODict itemsc)
        /\ dict_get k itemsc = Some v.
Proof.
  induction combos as [|combo rest IH];
    intros h0 h cfgs h' Hcl0 Hext0 Hcl Hrun i pre d post c itemsd k v
      Hi Hc Hd Hnd Hget Hv Hpost; [destruct i; discriminate|].
  cbn [Store.mapM] in Hrun.
  apply store_bind_Ok in Hrun as (c0 & h1 & Hc0 & Hrun).
  apply store_bind_Ok in Hrun as (cs & h2 & Hcs & Hret).
  injection Hret as <- <-.
  pose proof (store_finaldict_post _ _ _ _ _ Hc0)
    as (_ & _ & Hext1 & Hclosed1 & _).
  pose proof (Hclosed1 Hcl) as Hcl1.
  destruct i as [|i].
  - cbn in Hi, Hc. injection Hi as ->. injection Hc as ->.
    destruct (store_finaldict_last_wins depth pre d post h c h1 itemsd k v)
      as (itemsc & Hcat & Hk); auto.
    + eapply deref_extends; eassumption.
    + rewrite (is_dict_extends h0 h); [exact Hv|exact Hext0|].
      eapply closed_item_valid; eassumption.
    + eapply Forall_impl; [exact Hpost|].
      intros p'. apply lacks_key_extends, Hext0.
    + exists itemsc. split; [|exact Hk].
      apply (store_mapM_finaldict_post depth rest h1 cs h2) in Hcs
        as (Hext2 & _); [|exact Hcl1].
      eapply deref_extends; eassumption.
  - cbn in Hi, Hc.
    eapply (IH h0 h1 cs h2 Hcl0); eauto.
    eapply extends_trans; eassumption.
Qed.

(** ** Storage shared and not shared *)

(** C9 (counterexample).  The list of the document is not copied: both
    configurations and the document hold the same list object, and
    through it the same mapping at location 0.  After
    [c['a'][0]['x'] = 2] on the first configuration, the second
    configuration and the source document read [2] there too.  And
    [rupdate] alone, on [{a: {x: 1}}] and [{}], returns a dict whose
    ['a'] is the very mapping of its first argument. *)
Lemma cdicts_share_list_storage :
  Store.cdicts_of 9 demo_fdicts demo_store
  = Ok ([Store.RObj 7; Store.RObj 10], demo_store_after)
  /\ demo_store_after !! 0 = Some (Store.ODict [("x", Store.RInt 1)])
  /\ Store.reach demo_store_after (Store.RObj 7) 0
  /\ Store.reach demo_store_after (Store.RObj 10) 0
  /\ Store.reach demo_store_after (Store.RObj 2) 0
  /\ demo_assign (Store.RObj 7) demo_store_after
     = Ok (tt, <[0 := Store.ODict [("x", Store.RInt 2)]]> demo_store_after)
  /\ Store.read 9 demo_store_after (Store.RObj 10)
     = Some (VDict [("a", VList [VDict [("x", VInt 1)]]); ("b", VInt 2)])
  /\ Store.read 9 (<[0 := Store.ODict [("x", Store.RInt 2)]]> demo_store_after)
       (Store.RObj 10)
     = Some (VDict [("a", VList [VDict [("x", VInt 2)]]); ("b", VInt 2)])
  /\ Store.read 9 demo_store (Store.RObj 2)
     = Some (VDict [("a", VList [VDict [("x", VInt 1)]])])
  /\ Store.read 9 (<[0 := Store.ODict [("x", Store.RInt 2)]]> demo_store_after)
       (Store.RObj 2)
     = Some (VDict [("a", VList [VDict [("x", VInt 2)]])])
  /\ Store.rupdate 9 (Store.RObj 1) (Store.RObj 2) demo_nested
     = Ok (Store.RObj 3, demo_nested ++ [Store.ODict [("a", Store.RObj 0)]])
  /\ Store.mreach (demo_nested ++ [Store.ODict [("a", Store.RObj 0)]])
       (Store.RObj 3) 0
  /\ Store.mreach (demo_nested ++ [Store.ODict [("a", Store.RObj 0)]])
       (Store.RObj 1) 0.
Proof.
  assert (Hlist : forall l o,
             demo_store_after !! l = Some o ->
             Store.RObj 1 ∈ Store.refs_of o ->
             Store.reach demo_store_after (Store.RObj l) 0).
  { intros l o Hl Hin. eapply Store.reach_ref; [exact Hl | exact Hin|].
    eapply Store.reach_ref; [reflexivity | apply list_elem_of_here|].
    eapply Store.reach_here. reflexivity. }
  repeat split.
  - eapply Hlist; [reflexivity | apply list_elem_of_here].
  - eapply Hlist; [reflexivity | apply list_elem_of_here].
  - eapply Hlist; [reflexivity | apply list_elem_of_here].
  - eapply Store.mreach_item;
      [reflexivity | apply list_elem_of_here |].
    eapply Store.mreach_here. reflexivity.
  - eapply Store.mreach_item;
      [reflexivity | apply list_elem_of_here |].
    eapply Store.mreach_here. reflexivity.
Qed.

(** C9 (as amended).  [rupdate] returns a new object, a dict when
    [dict1] is one, and changes no object that was in the store, so
    neither argument is mutated.  On a closed store, [cdicts_of]
    changes no object that was there (no document); every
    configuration is a new dict; the mappings reached from a
    configuration through mappings only are all new; and no mapping is
    reached that way from two configurations.  It returns whenever the
    merges of the values succeed and the recursion limit leaves frames
    enough for the documents, and the configurations then stand for
    the values that [cdicts_of] computes.

    What is not a mapping is taken over as it is, not copied.  The
    dict that [rupdate] returns holds, under a key that [dict2] does
    not have, the reference that [dict1] holds there, and under a key
    where [dict2] holds something that is not a dict (a list, say)
    that very reference.  So a configuration holds, under a key, the
    reference that the last document of its combination with that key
    holds there, when this is not a dict: a list of a document is
    shared with every configuration built that way. *)
Theorem store_merge_separation :
  (forall depth dict1 dict2 h r h',
      Store.rupdate depth dict1 dict2 h = Ok (r, h') ->
      r = Store.RObj (length h)
      /\ length h < length h'
      /\ (Store.is_dict h dict1 = true -> Store.is_dict h' r = true)
      /\ forall l, l < length h -> h' !! l = h !! l)
  /\ (forall depth fdicts h cdicts h',
         Store.closed h = true ->
         Store.cdicts_of depth fdicts h = Ok (cdicts, h') ->
         (forall l, l < length h -> h' !! l = h !! l)
         /\ Forall (fun c =>
                      exists lc,
                        c = Store.RObj lc /\ length h <= lc
                        /\ Store.is_dict h' c = true
                        /\ forall l, Store.mreach h' c l -> length h <= l)
              cdicts
         /\ forall i j ci cj l,
             i <> j ->
             cdicts !! i = Some ci -> cdicts !! j = Some cj ->
             Store.mreach h' ci l -> Store.mreach h' cj l -> False)
  /\ (forall depth fdicts vfdicts h vcdicts,
         Store.closed h = true ->
         Forall2 (Forall2 (Store.repr h)) fdicts vfdicts ->
         Forall (Forall (fun v => frames v <= depth)) vfdicts ->
         cdicts_of vfdicts = Ok vcdicts ->
         exists cdicts h',
           Store.cdicts_of depth fdicts h = Ok (cdicts, h')
           /\ Forall2 (Store.repr h') cdicts vcdicts)
  /\ (forall depth dict1 dict2 h r h' items1 items2,
         Store.closed h = true ->
         Store.deref h dict1 = Some (Store.ODict items1) ->
         Store.deref h dict2 = Some (Store.ODict items2) ->
         NoDup (keys items2) ->
         Store.rupdate depth dict1 dict2 h = Ok (r, h') ->
         exists itemsr,
           Store.deref h' r = Some (Store.ODict itemsr)
           /\ forall k,
               (dict_get k items2 = None ->
                dict_get k itemsr = dict_get k items1)
               /\ (forall v,
                      dict_get k items2 = Some v ->
                      Store.is_dict h v = false ->
                      dict_get k itemsr = Some v))
  /\ (forall depth fdicts h cdicts h' i pre d post c itemsd k v,
         Store.closed h = true ->
         Store.cdicts_of depth fdicts h = Ok (cdicts, h') ->
         product fdicts !! i = Some (pre ++ d :: post) ->
         cdicts !! i = Some c ->
         Store.deref h d = Some (Store.ODict itemsd) ->
         NoDup (keys itemsd) ->
         dict_get k itemsd = Some v ->
         Store.is_dict h v = false ->
         Forall (lacks_key h k) post ->
         exists itemsc,
           Store.deref h' c = Some (Store.ODict itemsc)
           /\ dict_get k itemsc = Some v).
Proof.
  split; [|split; [|split; [|split]]].
  - intros depth dict1 dict2 h r h' Hrun.
    apply store_rupdate_post in Hrun
      as (Hr & Hlen & [_ Hext] & _ & _ & Hkind).
    auto.
  - intros depth fdicts h cdicts h' Hcl Hrun.
    apply store_mapM_finaldict_post in Hrun
      as ([_ Hext] & _ & _ & Hall & Hap); [|exact Hcl].
    split; [exact Hext|]. split.
    + apply Forall_forall. intros c Hc.
      rewrite Forall_forall in Hall.
      destruct (Hall c Hc) as (lc & -> & Hlc & Hd).
      exists lc. repeat split; auto.
      intros l Hreach. eapply apart_lower; eauto.
    + intros i j ci cj l Hne Hi Hj Hri Hrj.
      destruct (Nat.lt_total i j) as [Hlt|[Heq|Hlt]]; [|contradiction|].
      * eapply (apart_disjoint h' cdicts _ i j); eauto.
      * eapply (apart_disjoint h' cdicts _ j i); eauto.
  - intros depth fdicts vfdicts h vcdicts Hcl Hdocs Hframes Hpure.
    pose proof (store_cdicts_refines depth h fdicts vfdicts Hcl Hdocs
                  Hframes) as Hrun.
    rewrite Hpure in Hrun. exact Hrun.
  - intros depth dict1 dict2 h r h' items1 items2.
    apply store_rupdate_refs.
  - intros depth fdicts h cdicts h' i pre d post c itemsd k v Hcl Hrun.
    apply (store_mapM_finaldict_last_wins depth (product fdicts) h h cdicts
             h' Hcl (extends_refl h) Hcl Hrun).
Qed.

Lemma demo_store_repr :
  Forall2 (Forall2 (Store.repr demo_store)) demo_fdicts demo_values.
Proof.
  assert (Hinner : Store.repr demo_store (Store.RObj 0)
                     (VDict [("x", VInt 1)])).
  { eapply Store.repr_Dict; [reflexivity|].
    repeat constructor. }
  repeat constructor.
  - eapply Store.repr_Dict; [reflexivity|].
    constructor; [|constructor]. split; [reflexivity|].
    eapply Store.repr_List; [reflexivity|].
    constructor; [exact Hinner | constructor].
  - eapply Store.repr_Dict; [reflexivity|]. repeat constructor.
  - eapply Store.repr_Dict; [reflexivity|]. repeat constructor.
Defined.

Lemma demo_values_frames :
  Forall (Forall (fun v => frames v <= 9)) demo_values.
Proof. repeat constructor; cbn; lia. Defined.

Lemma store_merge_separation_witness :
  ((forall l, l < length demo_store ->
              demo_store_after !! l = demo_store !! l)
   /\ Forall (fun c =>
                exists lc,
                  c = Store.RObj lc /\ length demo_store <= lc
                  /\ Store.is_dict demo_store_after c = true
                  /\ forall l, Store.mreach demo_store_after c l ->
                               length demo_store <= l)
        [Store.RObj 7; Store.RObj 10]
   /\ forall i j ci cj l,
       i <> j ->
       [Store.RObj 7; Store.RObj 10] !! i = Some ci ->
       [Store.RObj 7; Store.RObj 10] !! j = Some cj ->
       Store.mreach demo_store_after ci l ->
       Store.mreach demo_store_after cj l -> False)
  /\ (exists cdicts h',
         Store.cdicts_of 9 demo_fdicts demo_store = Ok (cdicts, h')
         /\ Forall2 (Store.repr h') cdicts
              [VDict [("a", VList [VDict [("x", VInt 1)]]); ("b", VInt 1)];
               VDict [("a", VList [VDict [("x", VInt 1)]]); ("b", VInt 2)]])
  /\ (exists itemsr,
         Store.deref
           (demo_store
            ++ [Store.ODict [("a", Store.RObj 1); ("b", Store.RInt 1)]])
           (Store.RObj 5)
         = Some (Store.ODict itemsr)
         /\ forall k,
             (dict_get k [("b", Store.RInt 1)] = None ->
              dict_get k itemsr = dict_get k [("a", Store.RObj 1)])
             /\ (forall v,
                    dict_get k [("b", Store.RInt 1)] = Some v ->
                    Store.is_dict demo_store v = false ->
                    dict_get k itemsr = Some v))
  /\ (exists itemsc,
         Store.deref demo_store_after (Store.RObj 10)
         = Some (Store.ODict itemsc)
         /\ dict_get "a" itemsc = Some (Store.RObj 1)).
Proof.
  split; [|split; [|split]].
  - exact (proj1 (proj2 store_merge_separation) 9 demo_fdicts demo_store
             [Store.RObj 7; Store.RObj 10] demo_store_after
             eq_refl eq_refl).
  - exact (proj1 (proj2 (proj2 store_merge_separation)) 9 demo_fdicts
             demo_values demo_store _ eq_refl demo_store_repr
             demo_values_frames eq_refl).
  - apply (proj1 (proj2 (proj2 (proj2 store_merge_separation))) 9
             (Store.RObj 2) (Store.RObj 3) demo_store (Store.RObj 5)
             (demo_store
              ++ [Store.ODict [("a", Store.RObj 1); ("b", Store.RInt 1)]])
             [("a", Store.RObj 1)] [("b", Store.RInt 1)]).
    + reflexivity.
    + reflexivity.
    + reflexivity.
    + apply (bool_decide_eq_true_1 _). reflexivity.
    + reflexivity.
  - apply (proj2 (proj2 (proj2 (proj2 store_merge_separation))) 9
             demo_fdicts demo_store [Store.RObj 7; Store.RObj 10]
             demo_store_after 1 [] (Store.RObj 2) [Store.RObj 4]
             (Store.RObj 10) [("a", Store.RObj 1)] "a" (Store.RObj 1)).
    + reflexivity.
    + reflexivity.
    + reflexivity.
    + reflexivity.
    + reflexivity.
    + apply (bool_decide_eq_true_1 _). reflexivity.
    + reflexivity.
    + reflexivity.
    + constructor; [|constructor].
      exists [("b", Store.RInt 2)]. split; [reflexivity|].
      split; [|reflexivity]. apply (bool_decide_eq_true_1 _). reflexivity.
Defined.

(** Where a later document holds a mapping under the key of a list, the
    list is not taken over: for [{k: [1]}] and then [{k: {}}] the
    configuration holds a copy of the list, a new object at location
    8, and not the list of the document at location 0. *)
Lemma store_list_copied_under_empty_mapping :
  exists h',
    Store.cdicts_of 9 [[Store.RObj 1]; [Store.RObj 3]] demo_list_store
    = Ok ([Store.RObj 6], h')
    /\ h' !! 6 = Some (Store.ODict [("k", Store.RObj 8)])
    /\ h' !! 8 = Some (Store.OList [Store.RInt 1])
    /\ demo_list_store !! 0 = Some (Store.OList [Store.RInt 1])
    /\ length demo_list_store <= 8.
Proof. eexists. repeat split. cbn. lia. Qed.

(** ** More on the recursive merge *)

Lemma dict_set_same {V} key (val : V) items :
  dict_get key items = Some val -> dict_set key val items = items.
Proof.
  induction items as [|[k v] rest IH]; cbn [dict_get dict_set]; [discriminate|].
  destruct (String.eqb_spec k key) as [-> |Hk].
  - intros [= ->]. reflexivity.
  - intros H. rewrite (IH H). reflexivity.
Qed.

Lemma dict_get_elem_NoDup {V} key (val : V) items :
  NoDup (keys items) -> (key, val) ∈ items -> dict_get key items = Some val.
Proof.
  induction items as [|[k v] rest IH]; intros Hnd Hin; [inversion Hin|].
  cbn [keys map fst] in Hnd. apply NoDup_cons in Hnd as [Hfresh Hnd].
  cbn [dict_get]. apply elem_of_cons in Hin as [[= <- <-]|Hin].
  - rewrite String.eqb_refl. reflexivity.
  - destruct (String.eqb_spec k key) as [-> |Hk]; [|apply IH; assumption].
    exfalso. apply Hfresh. apply list_elem_of_fmap. exists (key, val). auto.
Qed.

(** X1.  What a successful merge of two mappings holds, key by key: a
    key missing from the override keeps the base's value (or stays
    missing); a plain value of the override replaces whatever the base
    held; a mapping of the override is taken as it is when the base
    lacks the key, and is merged into the base's value otherwise. *)
Theorem rupdate_contents A B R :
  wf (VDict B) = true ->
  rupdate (VDict A) (VDict B) = Ok R ->
  exists r,
    R = VDict r /\
    forall k,
      match dict_get k B with
      | None => dict_get k r = dict_get k A
      | Some v =>
          if isinstance_dict v then
            match dict_get k A with
            | None => dict_get k r = Some v
            | Some a =>
                exists new, rupdate a v = Ok new /\ dict_get k r = Some new
            end
          else dict_get k r = Some v
      end.
Proof.
  intros Hwf Hrun. pose proof Hwf as Hwf'.
  apply wf_dict in Hwf' as [Hnd _].
  destruct (rupdate_lookup A B R Hnd Hrun) as (r & -> & Hr).
  exists r. split; [reflexivity|]. intros k.
  destruct (Hr k) as (Hnone & Hplain & Hnew & Hboth).
  destruct (dict_get k B) as [v|] eqn:HB; [|auto].
  destruct (isinstance_dict v) eqn:Hv; [|auto].
  destruct (dict_get k A) as [a|] eqn:HA; [eauto|].
  destruct (Hnew v eq_refl Hv eq_refl) as (new & Hrun' & Hget).
  rewrite rupdate_empty_l in Hrun' by (eauto using wf_dict_get).
  congruence.
Qed.

Lemma rupdate_contents_witness :
  exists r,
    demo_merged "svc" = VDict r /\
    forall k,
      match dict_get k [("b", VDict [("y", VInt 9)])] with
      | None =>
          dict_get k r
          = dict_get k [("a", VInt 1);
                        ("b", VDict [("x", VInt 1); ("y", VInt 2)]);
                        ("type", VStr "svc")]
      | Some v =>
          if isinstance_dict v then
            match dict_get k [("a", VInt 1);
                              ("b", VDict [("x", VInt 1); ("y", VInt 2)]);
                              ("type", VStr "svc")] with
            | None => dict_get k r = Some v
            | Some a =>
                exists new, rupdate a v = Ok new /\ dict_get k r = Some new
            end
          else dict_get k r = Some v
      end.
Proof.
  exact (rupdate_contents
           [("a", VInt 1);
            ("b", VDict [("x", VInt 1); ("y", VInt 2)]);
            ("type", VStr "svc")]
           [("b", VDict [("y", VInt 9)])]
           (demo_merged "svc") eq_refl eq_refl).
Defined.

(** X2.  The empty mapping is neutral on both sides: merging [{}] into
    a mapping gives that mapping, and merging a well-formed mapping
    into [{}] gives it back, nested mappings included. *)
Theorem rupdate_empty_neutral A :
  isinstance_dict A = true -> wf A = true ->
  rupdate A (VDict []) = Ok A /\ rupdate (VDict []) A = Ok A.
Proof.
  intros Hd Hwf. split; [|apply rupdate_empty_l; assumption].
  destruct A; try discriminate. reflexivity.
Qed.

Lemma rupdate_empty_neutral_witness :
  rupdate demo_base (VDict []) = Ok demo_base
  /\ rupdate (VDict []) demo_base = Ok demo_base.
Proof. exact (rupdate_empty_neutral demo_base eq_refl eq_refl). Defined.

Lemma rupdate_loop_self items :
  Forall (fun kv => isinstance_dict (snd kv) = true ->
                    rupdate (snd kv) (snd kv) = Ok (snd kv)) items ->
  forall d,
    (forall k v, (k, v) ∈ items -> dict_get k d = Some v) ->
    rupdate_loop items (VDict d) = Ok (VDict d).
Proof.
  induction 1 as [|[key val] rest Hval _ IH]; intros d Hd; [reflexivity|].
  pose proof (Hd key val (list_elem_of_here _ _)) as Hget.
  assert (Hrest : forall k v, (k, v) ∈ rest -> dict_get k d = Some v).
  { intros k v Hin. apply Hd, list_elem_of_further, Hin. }
  destruct (isinstance_dict val) eqn:Hkind.
  - rewrite rupdate_loop_cons_dict by exact Hkind.
    unfold get_or_empty. rewrite Hget. cbn [snd] in Hval.
    rewrite (Hval Hkind). cbn [bind].
    rewrite dict_set_same by exact Hget. apply IH, Hrest.
  - rewrite rupdate_loop_cons_other by exact Hkind.
    rewrite dict_set_same by exact Hget. apply IH, Hrest.
Qed.

(** X3.  Merging a well-formed mapping into itself changes nothing:
    the merge succeeds and returns the mapping. *)
Theorem rupdate_idempotent A :
  isinstance_dict A = true -> wf A = true -> rupdate A A = Ok A.
Proof.
  induction A as [| | | | | |items IH] using values_ind; try discriminate.
  intros _ Hwf. rewrite rupdate_dict. cbn [copy bind].
  apply wf_dict in Hwf as [Hnd Hall].
  apply rupdate_loop_self.
  - rewrite Forall_forall in *. intros kv Hin Hd.
    apply (IH kv Hin Hd), (Hall kv Hin).
  - intros k v Hin. apply dict_get_elem_NoDup; assumption.
Qed.

Lemma rupdate_idempotent_witness : rupdate demo_base demo_base = Ok demo_base.
Proof. exact (rupdate_idempotent demo_base eq_refl eq_refl). Defined.

Lemma keys_rupdate_loop items :
  NoDup (keys items) ->
  forall d r,
    rupdate_loop items (VDict d) = Ok (VDict r) ->
    keys r = keys d ++ List.filter (fun k => negb (bool_decide (k ∈ keys d)))
                         (keys items).
Proof.
  induction items as [|[key val] rest IH]; intros Hnd d r Hrun.
  - injection Hrun as <-. cbn [keys map List.filter]. rewrite app_nil_r.
    reflexivity.
  - cbn [keys map fst] in Hnd. apply NoDup_cons in Hnd as [Hfresh Hnd].
    fold (keys rest) in Hfresh, Hnd.
    assert (Hstep : exists x, rupdate_loop rest (VDict (dict_set key x d))
                              = Ok (VDict r)).
    { destruct (isinstance_dict val) eqn:Hkind.
      - rewrite rupdate_loop_cons_dict in Hrun by exact Hkind.
        destruct (rupdate _ val) as [new|]; [|discriminate]. eauto.
      - rewrite rupdate_loop_cons_other in Hrun by exact Hkind. eauto. }
    destruct Hstep as (x & Hrest).
    rewrite (IH Hnd _ _ Hrest), keys_dict_set.
    cbn [keys map fst List.filter]. fold (keys rest).
    assert (Hfilter : forall ks,
               key ∉ rest.*1 ->
               List.filter (fun k => negb (bool_decide (k ∈ ks ++ [key])))
                 (keys rest)
               = List.filter (fun k => negb (bool_decide (k ∈ ks)))
                   (keys rest)).
    { intros ks Hk. apply filter_ext_in. intros k Hin. f_equal.
      apply bool_decide_ext. rewrite elem_of_app, list_elem_of_singleton.
      split; [|tauto]. intros [H| ->]; [exact H|].
      exfalso. apply Hk, list_elem_of_In, Hin. }
    destruct (decide (key ∈ keys d)) as [Hin|Hin].
    + rewrite !bool_decide_eq_true_2 by exact Hin. reflexivity.
    + rewrite !bool_decide_eq_false_2 by exact Hin. cbn [negb].
      rewrite <- app_assoc. cbn [app]. f_equal. f_equal.
      apply Hfilter, Hfresh.
Qed.

(** X4.  The keys of a merge, in order: the keys of the base in their
    order, then the keys of the override that the base lacks, in the
    order of the override. *)
Theorem rupdate_key_order A B r :
  wf (VDict B) = true ->
  rupdate (VDict A) (VDict B) = Ok (VDict r) ->
  keys r = keys A ++ List.filter (fun k => negb (bool_decide (k ∈ keys A)))
                       (keys B).
Proof.
  intros Hwf Hrun. apply wf_dict in Hwf as [Hnd _].
  rewrite rupdate_dict in Hrun. cbn [copy bind] in Hrun.
  apply keys_rupdate_loop; assumption.
Qed.

Lemma rupdate_key_order_witness :
  keys [("a", VInt 1); ("b", VInt 3); ("c", VInt 4)]
  = keys [("a", VInt 1); ("b", VInt 2)]
    ++ List.filter
         (fun k => negb (bool_decide (k ∈ keys [("a", VInt 1); ("b", VInt 2)])))
         (keys [("c", VInt 4); ("b", VInt 3)]).
Proof.
  exact (rupdate_key_order [("a", VInt 1); ("b", VInt 2)]
           [("c", VInt 4); ("b", VInt 3)] _ eq_refl eq_refl).
Defined.

(** ** More on the merged configurations *)

Lemma finaldict_from_app fd l1 l2 :
  finaldict_from fd (l1 ++ l2)
  = (fd' <- finaldict_from fd l1 ;; finaldict_from fd' l2).
Proof.
  revert fd. induction l1 as [|d rest IH]; intros fd; [reflexivity|].
  cbn [app finaldict_from]. destruct (rupdate fd d) as [fd0|e]; [|reflexivity].
  cbn [bind]. apply IH.
Qed.

Lemma finaldict_from_wf dicts fd r :
  wf fd = true -> Forall (fun d => wf d = true) dicts ->
  finaldict_from fd dicts = Ok r -> wf r = true.
Proof.
  revert fd. induction dicts as [|d rest IH]; intros fd Hfd Hall Hrun.
  - injection Hrun as <-. exact Hfd.
  - cbn [finaldict_from] in Hrun.
    destruct (rupdate fd d) as [fd0|e] eqn:Hstep; [|discriminate].
    cbn [bind] in Hrun. apply Forall_cons in Hall as [Hd Hall].
    eapply IH; [|exact Hall|exact Hrun].
    eapply rupdate_wf; [exact Hfd|exact Hd|exact Hstep].
Qed.

(** X5.  Every configuration that [get_configs] returns is a mapping,
    and it is well formed (no key twice, at any depth) when every
    document that was read is. *)
Theorem get_configs_returns_wf_mappings
  load_all cfiles types verbose files fdicts cdicts :
  files_of cfiles = Ok files ->
  fdicts_of load_all files = Ok fdicts ->
  Forall (Forall (fun d => wf d = true)) fdicts ->
  outcome (get_configs load_all cfiles types verbose) = Ok cdicts ->
  Forall (fun c => isinstance_dict c = true /\ wf c = true) cdicts.
Proof.
  intros Hfiles Hdocs Hwf Hrun.
  rewrite get_configs_outcome, Hfiles in Hrun. cbn [bind] in Hrun.
  rewrite Hdocs in Hrun. cbn [bind] in Hrun.
  destruct (cdicts_of fdicts) as [cs|e] eqn:Hcs; [|discriminate].
  cbn [bind] in Hrun. destruct (validate types cs); [|discriminate].
  injection Hrun as <-.
  pose proof (cdicts_of_all_dicts _ _ Hcs) as Hdicts.
  assert (Hwfs : Forall (fun c => wf c = true) cs).
  { unfold cdicts_of in Hcs. eapply mapM_Forall; [exact Hcs|].
    rewrite product_lex.
    pose proof (product_conforms (fun d => wf d = true) fdicts Hwf) as Hp.
    eapply Forall_impl; [exact Hp|].
    intros combo Hcombo r Hr. cbn beta in Hcombo.
    apply (finaldict_from_wf combo (VDict []) r eq_refl Hcombo Hr). }
  rewrite Forall_forall in *. auto.
Qed.

Lemma get_configs_returns_wf_mappings_witness :
  Forall (fun c => isinstance_dict c = true /\ wf c = true)
    [demo_merged "svc"; demo_merged "other"].
Proof.
  apply (get_configs_returns_wf_mappings demo_disk ["base"; "override"] [] 1
           [mkPath "" ["base.yaml"]; mkPath "" ["override.yaml"]]
           [[demo_base]; demo_override]).
  - reflexivity.
  - reflexivity.
  - repeat constructor.
  - reflexivity.
Defined.

(** X6.  Two mappings of the same shape (the same keys hold mappings on
    both sides, with matching shapes below) always merge, and the
    result has that shape again. *)
Theorem rupdate_same_shape fields dict1 dict2 :
  conforms (Node fields) dict1 = true ->
  conforms (Node fields) dict2 = true ->
  exists r, rupdate dict1 dict2 = Ok r /\ conforms (Node fields) r = true.
Proof. apply conforms_rupdate. Qed.

Lemma rupdate_same_shape_witness :
  exists r,
    rupdate demo_base (VDict [("b", VDict [("y", VInt 9)])]) = Ok r
    /\ conforms (Node demo_shape) r = true.
Proof.
  exact (rupdate_same_shape demo_shape demo_base
           (VDict [("b", VDict [("y", VInt 9)])]) eq_refl eq_refl).
Defined.

(** X7.  A merge fails whenever the override holds a mapping under a
    key where the base holds a value that has no [copy] method (None, a
    boolean, a number, a string): no result is returned. *)
Theorem rupdate_fails_on_mapping_over_scalar A B k a v :
  wf (VDict B) = true ->
  dict_get k A = Some a ->
  copy a = Err AttributeError ->
  dict_get k B = Some v ->
  isinstance_dict v = true ->
  exists e, rupdate (VDict A) (VDict B) = Err e.
Proof.
  intros Hwf. apply wf_dict in Hwf as [Hnd _].
  apply rupdate_mapping_over_scalar. exact Hnd.
Qed.

Lemma rupdate_fails_on_mapping_over_scalar_witness :
  exists e,
    rupdate (VDict [("a", VInt 1); ("k", VStr "s")])
      (VDict [("a", VInt 2); ("k", VDict [])]) = Err e.
Proof.
  exact (rupdate_fails_on_mapping_over_scalar
           [("a", VInt 1); ("k", VStr "s")] [("a", VInt 2); ("k", VDict [])]
           "k" (VStr "s") (VDict []) eq_refl eq_refl eq_refl eq_refl eq_refl).
Defined.

Lemma finaldict_from_keeps_key k v post :
  Forall (fun p => wf p = true /\
                   forall items, p = VDict items -> dict_get k items = None)
    post ->
  forall fd R,
    dict_get k fd = Some v ->
    finaldict_from (VDict fd) post = Ok R ->
    exists r, R = VDict r /\ dict_get k r = Some v.
Proof.
  induction 1 as [|p post [Hwf Hp] _ IH]; intros fd R Hget Hrun.
  - injection Hrun as <-. eauto.
  - cbn [finaldict_from] in Hrun.
    destruct (rupdate (VDict fd) p) as [fd0|e] eqn:Hstep; [|discriminate].
    cbn [bind] in Hrun.
    destruct p as [| | | | | |items];
      try (rewrite rupdate_unfold in Hstep; discriminate).
    apply wf_dict in Hwf as [Hnd _].
    destruct (rupdate_lookup _ _ _ Hnd Hstep) as (r0 & -> & Hr0).
    destruct (Hr0 k) as (Hnone & _).
    apply (IH r0 R); [|exact Hrun].
    rewrite Hnone by (apply Hp; reflexivity). exact Hget.
Qed.

(** X8.  The last file that names a key wins: when a combination of
    documents merges, and a document holds a plain value (not a
    mapping) under a key that no later document names at the top level,
    the merged configuration holds that value under the key, whatever
    the earlier documents held there. *)
Theorem finaldict_last_plain_value_wins pre d post k v R :
  wf (VDict d) = true ->
  dict_get k d = Some v ->
  isinstance_dict v = false ->
  Forall (fun p => wf p = true /\
                   forall items, p = VDict items -> dict_get k items = None)
    post ->
  finaldict (pre ++ VDict d :: post) = Ok R ->
  exists r, R = VDict r /\ dict_get k r = Some v.
Proof.
  intros Hwf Hget Hplain Hpost Hrun. unfold finaldict in Hrun.
  rewrite finaldict_from_app in Hrun.
  destruct (finaldict_from (VDict []) pre) as [fd1|e] eqn:Hpre;
    [|discriminate].
  cbn [bind finaldict_from] in Hrun.
  pose proof (finaldict_from_is_dict pre (VDict []) fd1 eq_refl Hpre) as Hfd1.
  destruct fd1 as [| | | | | |A]; try discriminate.
  destruct (rupdate (VDict A) (VDict d)) as [fd2|e] eqn:Hstep; [|discriminate].
  cbn [bind] in Hrun.
  apply wf_dict in Hwf as [Hnd _].
  destruct (rupdate_lookup _ _ _ Hnd Hstep) as (r2 & -> & Hr2).
  destruct (Hr2 k) as (_ & Hset & _).
  eapply finaldict_from_keeps_key; [exact Hpost| |exact Hrun].
  apply Hset; assumption.
Qed.

Lemma finaldict_last_plain_value_wins_witness :
  exists r,
    VDict [("a", VInt 1);
           ("b", VDict [("x", VInt 5); ("y", VInt 2)]);
           ("type", VStr "other")] = VDict r
    /\ dict_get "type" r = Some (VStr "other").
Proof.
  apply (finaldict_last_plain_value_wins [demo_base]
           [("type", VStr "other")]
           [VDict [("b", VDict [("x", VInt 5)])]] "type" (VStr "other")).
  - reflexivity.
  - reflexivity.
  - reflexivity.
  - constructor; [|constructor].
    split; [reflexivity|]. intros items [= <-]. reflexivity.
  - reflexivity.
Defined.

(** ** What is printed *)

Lemma stdout_bind {A B} (m : io A) (k : A -> io B) :
  stdout (io_bind m k)
  = stdout m ++ match outcome m with
                | Ok a => stdout (k a)
                | Err _ => []
                end.
Proof.
  destruct m as [out [a|e]]; cbn [io_bind stdout outcome fst snd].
  - destruct (k a) as [out' r]. reflexivity.
  - rewrite app_nil_r. reflexivity.
Qed.

Lemma stdout_check_types types cdicts :
  stdout (check_types types cdicts) = [].
Proof.
  unfold check_types.
  induction cdicts as [|c rest IH]; [reflexivity|].
  cbn [for_each]. rewrite stdout_bind, IH.
  assert (Hbody : stdout (io_bind (lift (get c "type" VNone))
                            (fun tag =>
                               when (negb (contained tag types))
                                 (zz "getconfigs"
                                    [PStr "Config file does not have type";
                                     PStr " in allowed types "; PTypes types;
                                     PStr "."] false))) = []).
  { rewrite stdout_bind. cbn [lift stdout outcome fst snd app].
    destruct (get c "type" VNone) as [tag|e]; [|reflexivity].
    destruct (negb (contained tag types)); reflexivity. }
  rewrite Hbody. cbn [app]. destruct (outcome _) as [[]|]; reflexivity.
Qed.

Lemma for_each_ext {A} (l : list A) (body body' : A -> io unit) :
  (forall x, body x = body' x) -> for_each l body = for_each l body'.
Proof.
  intros Hext. induction l as [|x rest IH]; [reflexivity|].
  cbn [for_each]. rewrite Hext, IH. reflexivity.
Qed.

Lemma outcome_print l : outcome (print l) = Ok tt.
Proof. reflexivity. Qed.

Lemma stdout_for_each_print {A} (l : list A) (f : A -> line) :
  stdout (for_each l (fun x => print (f x))) = map f l.
Proof.
  induction l as [|x rest IH]; [reflexivity|].
  cbn [for_each map]. rewrite stdout_bind, IH. reflexivity.
Qed.

Lemma outcome_for_each_print_line {A} (l : list A) (f : A -> line) :
  outcome (for_each l (fun x => print (f x))) = Ok tt.
Proof. apply outcome_for_each_print. reflexivity. Qed.

Lemma stdout_get_configs load_all cfiles types verbose :
  stdout (get_configs load_all cfiles types verbose)
  = match (files <- files_of cfiles ;;
           fdicts <- fdicts_of load_all files ;;
           cdicts <- cdicts_of fdicts ;; Ok (files, cdicts)) with
    | Ok (files, cdicts) =>
        (if (1 <=? verbose)%Z then
           [[PStr PREFIX; PStr "Read "; PNat (length cdicts);
             PStr " config(s) from "; PStr (join " << " (map str files))]]
         else [])
        ++ (if (2 <=? verbose)%Z then
              map (fun '(ic, c) =>
                     [PStr PREFIX; PStr "CONFIG "; PNat (ic + 1); PStr "/";
                      PNat (length cdicts); PStr ":"; PStr "
"; PValue c])
                (enumerate cdicts)
            else [])
    | Err _ => []
    end.
Proof.
  unfold get_configs.
  rewrite stdout_bind. cbn [lift stdout outcome fst snd app].
  destruct (files_of cfiles) as [files|e]; [|reflexivity]. cbn [bind].
  rewrite stdout_bind. cbn [lift stdout outcome fst snd app].
  destruct (fdicts_of load_all files) as [fdicts|e]; [|reflexivity].
  cbn [bind].
  rewrite stdout_bind. cbn [lift stdout outcome fst snd app].
  destruct (cdicts_of fdicts) as [cdicts|e]; [|reflexivity]. cbn [bind].
  rewrite stdout_bind. f_equal.
  - destruct (1 <=? verbose)%Z; reflexivity.
  - assert (H1 : forall c (m : io unit),
               outcome m = Ok tt -> outcome (when c m) = Ok tt).
    { intros [] m Hm; [exact Hm|reflexivity]. }
    rewrite (H1 _ _ (outcome_print _)).
    rewrite stdout_bind.
    set (f := fun '(ic, c) =>
                [PStr PREFIX; PStr "CONFIG "; PNat (ic + 1); PStr "/";
                 PNat (length cdicts); PStr ":"; PStr "
"; PValue c]).
    rewrite (for_each_ext (enumerate cdicts) _ (fun x => print (f x)))
      by (intros [ic c]; reflexivity).
    rewrite (H1 _ _ (outcome_for_each_print_line _ f)).
    rewrite stdout_bind.
    assert (Hcheck : stdout (when (negb (bool_decide (types = [])))
                               (check_types types cdicts)) = []).
    { destruct (negb _); [apply stdout_check_types|reflexivity]. }
    rewrite Hcheck. cbn [app].
    assert (Hret : forall m : io unit,
               match outcome m with
               | Ok _ => stdout (io_ret cdicts)
               | Err _ => []
               end = []).
    { intros m. destruct (outcome m); reflexivity. }
    rewrite Hret, app_nil_r.
    destruct (2 <=? verbose)%Z; [|reflexivity].
    apply stdout_for_each_print.
Qed.

(** X9.  What [get_configs] prints does not depend on [types]: the
    type check prints nothing, whether it passes or stops the
    program. *)
Theorem get_configs_stdout_types_independent
  load_all cfiles types types' verbose :
  stdout (get_configs load_all cfiles types verbose)
  = stdout (get_configs load_all cfiles types' verbose).
Proof. rewrite !stdout_get_configs. reflexivity. Qed.

(** X10.  The calls of [print] that [get_configs] makes once the
    configurations are built, also when the type check then stops the
    program: none for [verbose <= 0]; for [verbose >= 1] one call with
    the number of configurations and the paths joined by [" << "]; for
    [verbose >= 2] then one call for each configuration, in order, the
    k-th with [CONFIG k/n:], a newline and the configuration.  That is
    0, 1 or 1 + n calls; the text of each [CONFIG] call holds a
    newline, so it is more than one line of output. *)
Theorem get_configs_print_calls
  load_all cfiles types verbose files fdicts cdicts :
  files_of cfiles = Ok files ->
  fdicts_of load_all files = Ok fdicts ->
  cdicts_of fdicts = Ok cdicts ->
  stdout (get_configs load_all cfiles types verbose)
  = (if (1 <=? verbose)%Z then
       [[PStr PREFIX; PStr "Read "; PNat (length cdicts);
         PStr " config(s) from "; PStr (join " << " (map str files))]]
     else [])
    ++ (if (2 <=? verbose)%Z then
          map (fun '(ic, c) =>
                 [PStr PREFIX; PStr "CONFIG "; PNat (ic + 1); PStr "/";
                  PNat (length cdicts); PStr ":"; PStr "
"; PValue c])
            (enumerate cdicts)
        else [])
  /\ length (stdout (get_configs load_all cfiles types verbose))
     = if (verbose <=? 0)%Z then 0
       else if (verbose =? 1)%Z then 1
       else 1 + length cdicts.
Proof.
  intros Hfiles Hdocs Hcs.
  rewrite stdout_get_configs, Hfiles. cbn [bind].
  rewrite Hdocs. cbn [bind]. rewrite Hcs. cbn [bind].
  split; [reflexivity|].
  rewrite length_app.
  destruct (Z.leb_spec verbose 0), (Z.leb_spec 1 verbose),
    (Z.leb_spec 2 verbose), (Z.eqb_spec verbose 1); try lia;
    cbn [length]; try reflexivity.
  rewrite length_map. unfold enumerate.
  rewrite length_combine, length_seq. lia.
Qed.

Lemma get_configs_print_calls_witness :
  stdout (get_configs demo_disk ["base"; "override"] ["svc"] 2)
  = [[PStr PREFIX; PStr "Read "; PNat 2; PStr " config(s) from ";
      PStr "base.yaml << override.yaml"];
     [PStr PREFIX; PStr "CONFIG "; PNat 1; PStr "/"; PNat 2; PStr ":";
      PStr "
"; PValue (demo_merged "svc")];
     [PStr PREFIX; PStr "CONFIG "; PNat 2; PStr "/"; PNat 2; PStr ":";
      PStr "
"; PValue (demo_merged "other")]]
  /\ length (stdout (get_configs demo_disk ["base"; "override"] ["svc"] 2))
     = 3.
Proof.
  exact (get_configs_print_calls demo_disk ["base"; "override"] ["svc"] 2
           [mkPath "" ["base.yaml"]; mkPath "" ["override.yaml"]]
           [[demo_base]; demo_override]
           [demo_merged "svc"; demo_merged "other"]
           eq_refl eq_refl eq_refl).
Defined.

(** X11.  An error other than the exit of the type check is raised
    before anything is printed: a bad file name, a file that cannot be
    loaded and a merge that fails all leave the output empty. *)
Theorem get_configs_early_error_prints_nothing
  load_all cfiles types verbose e :
  outcome (get_configs load_all cfiles types verbose) = Err e ->
  e <> type_error types ->
  stdout (get_configs load_all cfiles types verbose) = [].
Proof.
  intros Hrun He. rewrite stdout_get_configs.
  rewrite get_configs_outcome in Hrun.
  destruct (files_of cfiles) as [files|]; [|reflexivity]. cbn [bind] in *.
  destruct (fdicts_of load_all files) as [fdicts|]; [|reflexivity].
  cbn [bind] in *.
  destruct (cdicts_of fdicts) as [cdicts|] eqn:Hcs; [|reflexivity].
  cbn [bind] in *. exfalso.
  destruct (validate types cdicts) as [|e'] eqn:Hval; [discriminate|].
  injection Hrun as ->.
  destruct (decide (types = [])) as [->|Hne].
  { rewrite validate_no_types in Hval. discriminate. }
  rewrite validate_types in Hval by exact Hne.
  pose proof (cdicts_of_all_dicts _ _ Hcs) as Hdicts.
  clear Hcs. apply He. clear He.
  induction Hdicts as [|c rest Hc _ IH]; [discriminate|].
  destruct c as [| | | | | |items]; try discriminate.
  destruct (type_allowed types (VDict items)) eqn:Hok.
  - unfold check_types in Hval. cbn [for_each] in Hval.
    rewrite outcome_bind in Hval.
    rewrite outcome_bind in Hval. cbn [lift get outcome snd bind] in Hval.
    unfold type_allowed, type_of in Hok. rewrite Hok in Hval.
    cbn [negb when io_ret outcome snd bind] in Hval.
    apply IH, Hval.
  - pose proof (check_types_stop types [] items rest (List.Forall_nil _) Hok)
      as Hstop.
    cbn [app] in Hstop. rewrite Hstop in Hval.
    cbn [outcome snd] in Hval. congruence.
Qed.

Lemma get_configs_early_error_prints_nothing_witness :
  stdout (get_configs demo_disk ["base"; "absent"] ["svc"] 2) = [].
Proof.
  apply (get_configs_early_error_prints_nothing demo_disk ["base"; "absent"]
           ["svc"] 2 (FileNotFoundError "absent.yaml")).
  - reflexivity.
  - discriminate.
Defined.

(** X12.  With no file and a non-empty list of allowed types,
    [get_configs] stops the program: the only configuration is the
    empty mapping, which has no ["type"] entry. *)
Theorem get_configs_no_files_with_types_exits load_all types verbose :
  types <> [] ->
  outcome (get_configs load_all [] types verbose) = Err (type_error types).
Proof. apply get_configs_no_files_typed. Qed.

Lemma get_configs_no_files_with_types_exits_witness :
  outcome (get_configs demo_disk [] ["svc"] 0) = Err (type_error ["svc"]).
Proof.
  apply (get_configs_no_files_with_types_exits demo_disk ["svc"] 0).
  discriminate.
Defined.

(** ** More on the names of the files *)

Lemma append_nil t : "" +:+ t = t.
Proof. reflexivity. Qed.

Lemma append_cons a s t : String a s +:+ t = String a (s +:+ t).
Proof. reflexivity. Qed.

Lemma contains_char_app c s t :
  contains_char c (s +:+ t) = contains_char c s || contains_char c t.
Proof.
  induction s as [|a s IH]; [reflexivity|].
  rewrite append_cons. cbn [contains_char]. rewrite IH, orb_assoc.
  reflexivity.
Qed.

Lemma rfind_last c s t :
  contains_char c t = false ->
  rfind c (s +:+ String c t) = Some (String.length s).
Proof.
  intros Ht. induction s as [|a s IH].
  - rewrite append_nil. cbn [rfind String.length].
    rewrite (rfind_plain _ _ Ht), Ascii.eqb_refl. reflexivity.
  - rewrite append_cons. cbn [rfind String.length]. rewrite IH. reflexivity.
Qed.

Lemma string_length_app s t :
  String.length (s +:+ t) = String.length s + String.length t.
Proof.
  induction s as [|a s IH]; [reflexivity|].
  rewrite append_cons. cbn [String.length]. rewrite IH. reflexivity.
Qed.

Lemma substring_all s : substring 0 (String.length s) s = s.
Proof.
  induction s as [|a s IH]; [reflexivity|].
  cbn [String.length substring]. rewrite IH. reflexivity.
Qed.

Lemma substring_app_l s t : substring 0 (String.length s) (s +:+ t) = s.
Proof.
  induction s as [|a s IH].
  - rewrite append_nil. destruct t; reflexivity.
  - rewrite append_cons. cbn [String.length substring]. rewrite IH.
    reflexivity.
Qed.

Lemma substring_app_r s t :
  substring (String.length s) (String.length t) (s +:+ t) = t.
Proof.
  induction s as [|a s IH]; [apply substring_all|].
  rewrite append_cons. cbn [String.length substring]. exact IH.
Qed.

Lemma parse_path_plain s :
  s <> "" -> s <> "." -> contains_char "/"%char s = false ->
  parse_path s = mkPath "" [s].
Proof.
  intros Hne Hdot Hslash. unfold parse_path, splitroot.
  destruct s as [|c rest]; [congruence|].
  assert (Hc : Ascii.eqb c "/" = false).
  { cbn [contains_char] in Hslash.
    apply orb_false_iff in Hslash as [H _]. exact H. }
  rewrite Hc. rewrite split_sep_plain by exact Hslash.
  cbn [List.filter]. unfold keeps_part.
  apply String.eqb_neq in Hdot. rewrite Hdot.
  replace (String.eqb (String c rest) "") with false by reflexivity.
  reflexivity.
Qed.

(** X13.  A name without slash and without dot is opened with [.yaml]
    appended to it. *)
Theorem files_of_appends_to_plain_name cfile :
  cfile <> "" ->
  contains_char "/"%char cfile = false ->
  contains_char "."%char cfile = false ->
  files_of [cfile] = Ok [mkPath "" [cfile +:+ ".yaml"]]
  /\ str (mkPath "" [cfile +:+ ".yaml"]) = cfile +:+ ".yaml".
Proof. apply files_of_plain_name. Qed.

Lemma files_of_appends_to_plain_name_witness :
  files_of ["test0"] = Ok [mkPath "" ["test0" +:+ ".yaml"]]
  /\ str (mkPath "" ["test0" +:+ ".yaml"]) = "test0" +:+ ".yaml".
Proof.
  apply (files_of_appends_to_plain_name "test0");
    [discriminate|reflexivity|reflexivity].
Defined.

(** X14.  A name that ends in a dot and an extension has that last
    extension replaced by [.yaml], whatever it was: [a.yaml] and
    [a.txt] both open [a.yaml], and [a.b.c] opens [a.b.yaml]. *)
Theorem files_of_replaces_last_extension stem ext :
  stem <> "" ->
  contains_char "/"%char stem = false ->
  ext <> "" ->
  contains_char "/"%char ext = false ->
  contains_char "."%char ext = false ->
  files_of [stem +:+ "." +:+ ext] = Ok [mkPath "" [stem +:+ ".yaml"]].
Proof.
  intros Hstem Hslash Hext Hslash' Hdot.
  change (stem +:+ "." +:+ ext) with (stem +:+ String "." ext).
  set (sfx := String "."%char ext). set (nm := stem +:+ sfx).
  assert (Hstem' : 0 < String.length stem).
  { destruct stem; [congruence|]. cbn [String.length]. lia. }
  assert (Hext' : 0 < String.length ext).
  { destruct ext; [congruence|]. cbn [String.length]. lia. }
  assert (Hsfxlen : String.length sfx = S (String.length ext))
    by reflexivity.
  assert (Hlen : String.length nm = String.length stem + String.length sfx)
    by apply string_length_app.
  assert (Hne : forall s, String.length s <= 1 -> nm <> s).
  { intros s Hs Heq. rewrite <- Heq in Hs. lia. }
  assert (Hparse : parse_path nm = mkPath "" [nm]).
  { apply parse_path_plain.
    - apply Hne. cbn [String.length]. lia.
    - apply Hne. cbn [String.length]. lia.
    - unfold nm, sfx. rewrite contains_char_app, Hslash.
      cbn [contains_char orb]. exact Hslash'. }
  assert (Hsfx : suffix_of nm = sfx).
  { unfold suffix_of, nm at 1, sfx at 1.
    rewrite (rfind_last _ _ _ Hdot). fold sfx.
    assert (H0 : (0 <? String.length stem)%nat = true)
      by (apply Nat.ltb_lt; lia).
    assert (H1 : (String.length stem <? String.length nm - 1)%nat = true)
      by (apply Nat.ltb_lt; lia).
    rewrite H0, H1. cbn [andb].
    replace (String.length nm - String.length stem)
      with (String.length sfx) by lia.
    apply substring_app_r. }
  unfold files_of. cbn [mapM]. rewrite Hparse.
  unfold with_suffix, suffix, name. cbn [parts root List.last].
  rewrite Hsfx.
  assert (Hnm : String.eqb nm "" = false).
  { apply String.eqb_neq, Hne. cbn [String.length]. lia. }
  rewrite Hnm.
  replace (String.length nm - String.length sfx)
    with (String.length stem) by lia.
  assert (Hcut : substring 0 (String.length stem) nm = stem)
    by apply substring_app_l.
  rewrite Hcut. reflexivity.
Qed.

Lemma files_of_replaces_last_extension_witness :
  files_of ["test0" +:+ "." +:+ "yaml"] = Ok [mkPath "" ["test0" +:+ ".yaml"]].
Proof.
  apply (files_of_replaces_last_extension "test0" "yaml");
    [discriminate|reflexivity|discriminate|reflexivity|reflexivity].
Defined.

Lemma mapM_stops {A B} (f : A -> result B) pre x post ys e :
  mapM f pre = Ok ys -> f x = Err e -> mapM f (pre ++ x :: post) = Err e.
Proof.
  revert ys. induction pre as [|a pre IH]; intros ys Hpre Hx.
  - cbn [app mapM]. rewrite Hx. reflexivity.
  - cbn [app mapM] in *. destruct (f a) as [b|]; [|discriminate].
    cbn [bind] in *. destruct (mapM f pre) as [bs|]; [|discriminate].
    rewrite (IH bs eq_refl Hx). reflexivity.
Qed.

(** X15.  File names are checked before any file is read: when a name
    has no last component to give a suffix to (the empty string, [.],
    [/]) and the names before it are fine, [get_configs] raises
    ValueError and prints nothing, whatever the files hold and whether
    or not they exist. *)
Theorem get_configs_checks_names_first
  load_all pre bad post types verbose files :
  files_of pre = Ok files ->
  name (parse_path bad) = "" ->
  get_configs load_all (pre ++ bad :: post) types verbose
  = ([], Err ValueError).
Proof.
  intros Hpre Hbad. unfold get_configs.
  assert (Hfiles : files_of (pre ++ bad :: post) = Err ValueError).
  { eapply mapM_stops; [exact Hpre|].
    unfold with_suffix. rewrite Hbad. reflexivity. }
  rewrite Hfiles. reflexivity.
Qed.

Lemma get_configs_checks_names_first_witness :
  get_configs demo_disk (["absent"] ++ "" :: ["base"]) [] 2
  = ([], Err ValueError).
Proof.
  exact (get_configs_checks_names_first demo_disk ["absent"] "" ["base"] [] 2
           [mkPath "" ["absent.yaml"]] eq_refl eq_refl).
Defined.

(** X16.  Files are read in the order given and the first one that
    cannot be loaded ends the call with the loader's error: nothing is
    printed, and what the later files hold makes no difference. *)
Theorem get_configs_first_load_error
  load_all cfiles types verbose pre bad post fdicts e :
  files_of cfiles = Ok (pre ++ bad :: post) ->
  fdicts_of load_all pre = Ok fdicts ->
  load_all (str bad) = Err e ->
  get_configs load_all cfiles types verbose = ([], Err e).
Proof.
  intros Hfiles Hpre Hbad. unfold get_configs. rewrite Hfiles.
  cbn [lift io_bind app].
  assert (Hdocs : fdicts_of load_all (pre ++ bad :: post) = Err e).
  { eapply mapM_stops; [exact Hpre|exact Hbad]. }
  rewrite Hdocs. reflexivity.
Qed.

Lemma get_configs_first_load_error_witness :
  get_configs demo_disk ["base"; "absent"; "override"] [] 2
  = ([], Err (FileNotFoundError "absent.yaml")).
Proof.
  exact (get_configs_first_load_error demo_disk
           ["base"; "absent"; "override"] [] 2
           [mkPath "" ["base.yaml"]] (mkPath "" ["absent.yaml"])
           [mkPath "" ["override.yaml"]] [[demo_base]]
           (FileNotFoundError "absent.yaml") eq_refl eq_refl eq_refl).
Defined.

(** ** The seed of a string *)

Lemma fold_left_add_shift (l : list Z) (a : Z) :
  fold_left Z.add l a = (a + fold_left Z.add l 0)%Z.
Proof.
  revert a. induction l as [|x l IH]; intros a; cbn [fold_left]; [lia|].
  rewrite (IH (a + x)%Z), (IH (0 + x)%Z). lia.
Qed.

Lemma sum_of_cons x l : sum_of (x :: l) = (x + sum_of l)%Z.
Proof.
  unfold sum_of. cbn [fold_left]. rewrite fold_left_add_shift. lia.
Qed.

Lemma weighted_shift (l : list ascii) (k : nat) :
  sum_of (map (fun '(p, c) => (ord c * 7 ^ Z.of_nat p)%Z)
            (combine (seq (S k) (length l)) l))
  = (7 * sum_of (map (fun '(p, c) => (ord c * 7 ^ Z.of_nat p)%Z)
                   (combine (seq k (length l)) l)))%Z.
Proof.
  revert k. induction l as [|c l IH]; intros k; [reflexivity|].
  cbn [length seq combine map]. rewrite !sum_of_cons, IH.
  rewrite Nat2Z.inj_succ, Z.pow_succ_r by lia. lia.
Qed.

Lemma stoi_cons c s : stoi (String c s) = (ord c + 7 * stoi s)%Z.
Proof.
  unfold stoi, enumerate. cbn [list_ascii_of_string length seq combine map].
  rewrite sum_of_cons, weighted_shift. cbn [Z.of_nat]. lia.
Qed.

Lemma stoi_app s t :
  stoi (s +:+ t) = (stoi s + 7 ^ Z.of_nat (String.length s) * stoi t)%Z.
Proof.
  induction s as [|c s IH].
  - change ("" +:+ t) with t. cbn [String.length Z.of_nat].
    change (stoi "") with 0%Z. lia.
  - change (String c s +:+ t) with (String c (s +:+ t)).
    rewrite !stoi_cons, IH. cbn [String.length].
    rewrite Nat2Z.inj_succ, Z.pow_succ_r by lia. lia.
Qed.

(** X17.  The seed of a concatenation: the seed of the first string
    plus [7 ** len] of it times the seed of the second.  So a common
    prefix does not tell two strings apart any better than their
    remainders do. *)
Theorem stoi_concat s t :
  stoi (s +:+ t) = (stoi s + 7 ^ Z.of_nat (String.length s) * stoi t)%Z.
Proof. apply stoi_app. Qed.

Lemma ord_inj c c' : ord c = ord c' -> c = c'.
Proof.
  unfold ord. intros H. apply Nat2Z.inj in H.
  rewrite <- (ascii_nat_embedding c), <- (ascii_nat_embedding c'), H.
  reflexivity.
Qed.

(** X18.  Two strings that differ in exactly one position never have
    the same seed. *)
Theorem stoi_one_character u c c' v :
  c <> c' -> stoi (u +:+ String c v) <> stoi (u +:+ String c' v).
Proof.
  intros Hne Heq. apply Hne. apply ord_inj.
  rewrite !stoi_app, !stoi_cons in Heq.
  assert (Hpos : (0 < 7 ^ Z.of_nat (String.length u))%Z)
    by (apply Z.pow_pos_nonneg; lia).
  nia.
Qed.

Lemma stoi_one_character_witness : stoi "foo" <> stoi "fao".
Proof. apply (stoi_one_character "f" "o" "a" "o"). discriminate. Defined.

(** X19.  The seed does not tell all strings apart: taking 7 off the
    code of one character and adding 1 to the code of the next gives
    another string with the same seed. *)
Theorem stoi_collision u c1 c2 v :
  7 <= nat_of_ascii c1 -> nat_of_ascii c2 < 255 ->
  let c1' := ascii_of_nat (nat_of_ascii c1 - 7) in
  let c2' := ascii_of_nat (nat_of_ascii c2 + 1) in
  u +:+ String c1 (String c2 v) <> u +:+ String c1' (String c2' v)
  /\ stoi (u +:+ String c1 (String c2 v))
     = stoi (u +:+ String c1' (String c2' v)).
Proof.
  intros H1 H2 c1' c2'.
  assert (Hc1 : ord c1' = (ord c1 - 7)%Z).
  { unfold ord, c1'. pose proof (nat_ascii_bounded c1).
    rewrite nat_ascii_embedding by lia. lia. }
  assert (Hc2 : ord c2' = (ord c2 + 1)%Z).
  { unfold ord, c2'. rewrite nat_ascii_embedding by lia. lia. }
  split.
  - intros Heq. apply String.app_inj in Heq. injection Heq as Hc _.
    apply (f_equal ord) in Hc. lia.
  - rewrite !stoi_app, !stoi_cons, Hc1, Hc2. lia.
Qed.

Lemma stoi_collision_witness :
  "ha" <> "ab" /\ stoi "ha" = stoi "ab".
Proof.
  refine (stoi_collision "" "h" "a" "" _ _); vm_compute; lia.
Defined.

(** ** Names, types and values *)

Lemma ntvi_index_Ok x l i :
  NTVI.index x l = Ok i ->
  l !! i = Some x /\ forall j, j < i -> l !! j <> Some x.
Proof.
  revert i. induction l as [|y l IH]; intros i; [discriminate|].
  cbn [NTVI.index]. destruct (String.eqb_spec y x) as [-> |Hne].
  - intros [= <-]. split; [reflexivity|]. intros j Hj. lia.
  - destruct (NTVI.index x l) as [i0|]; [|discriminate].
    intros [= <-]. destruct (IH i0 eq_refl) as [Hat Hbefore].
    split; [exact Hat|]. intros [|j] Hj; cbn; [congruence|].
    apply Hbefore. lia.
Qed.

Lemma ntvi_index_first x l i :
  l !! i = Some x -> (forall j, j < i -> l !! j <> Some x) ->
  NTVI.index x l = Ok i.
Proof.
  revert i. induction l as [|y l IH]; intros i Hat Hbefore; [discriminate|].
  cbn [NTVI.index]. destruct i as [|i].
  - injection Hat as ->. rewrite String.eqb_refl. reflexivity.
  - destruct (String.eqb_spec y x) as [-> |Hne].
    + exfalso. apply (Hbefore 0); [lia|reflexivity].
    + rewrite (IH i); [reflexivity|exact Hat|].
      intros j Hj. apply (Hbefore (S j)). lia.
Qed.

Lemma ntvi_index_Err x l e :
  NTVI.index x l = Err e -> e = ValueError /\ x ∉ l.
Proof.
  induction l as [|y l IH]; cbn [NTVI.index].
  - intros [= <-]. split; [reflexivity|]. apply not_elem_of_nil.
  - destruct (String.eqb_spec y x) as [-> |Hne]; [discriminate|].
    destruct (NTVI.index x l) as [i|e0]; [discriminate|].
    intros [= <-]. destruct (IH eq_refl) as [-> Hnot].
    split; [reflexivity|]. rewrite not_elem_of_cons. auto.
Qed.

Lemma ntvi_index_absent x l : x ∉ l -> NTVI.index x l = Err ValueError.
Proof.
  intros Hnot. destruct (NTVI.index x l) as [i|e] eqn:Hi.
  - apply ntvi_index_Ok in Hi as [Hat _]. exfalso. apply Hnot.
    eapply list_elem_of_lookup_2, Hat.
  - apply ntvi_index_Err in Hi as [-> _]. reflexivity.
Qed.

Lemma ntvi_index_present x l :
  x ∈ l -> exists i, NTVI.index x l = Ok i /\ i < length l.
Proof.
  intros Hin. destruct (NTVI.index x l) as [i|e] eqn:Hi.
  - exists i. split; [reflexivity|].
    apply ntvi_index_Ok in Hi as [Hat _]. eapply lookup_lt_Some, Hat.
  - apply ntvi_index_Err in Hi as [_ Hnot]. contradiction.
Qed.

Lemma ntvi_insert_position {A} i (x : A) l :
  NTVI.insert i x l
  = take (insert_position i (length l)) l
    ++ x :: drop (insert_position i (length l)) l.
Proof.
  unfold NTVI.insert, insert_position.
  set (n := Z.of_nat (length l)).
  set (i1 := if (i <? 0)%Z then (i + n)%Z else i).
  assert (H : (if (n <? (if (i1 <? 0)%Z then 0%Z else i1))%Z then n
               else if (i1 <? 0)%Z then 0%Z else i1)
              = Z.min n (Z.max 0 i1)).
  { destruct (Z.ltb_spec i1 0), (Z.ltb_spec n 0); try lia;
      destruct (Z.ltb_spec n i1); lia. }
  rewrite H. reflexivity.
Qed.

Lemma elem_of_insert_middle {A} (x y : A) p l :
  x ∈ take p l ++ y :: drop p l <-> x = y \/ x ∈ l.
Proof.
  rewrite <- (take_drop p l) at 3. rewrite !elem_of_app, elem_of_cons. tauto.
Qed.

Lemma lookup_insert_middle_shift {A} (l : list A) p y i :
  p <= length l ->
  (take p l ++ y :: drop p l) !! (if decide (i < p) then i else S i)
  = l !! i.
Proof.
  intros Hp. assert (Hlen : length (take p l) = p) by (rewrite length_take; lia).
  destruct (decide (i < p)).
  - rewrite lookup_app_l by lia. apply lookup_take_lt. lia.
  - rewrite lookup_app_r by lia. rewrite Hlen.
    replace (S i - p) with (S (i - p)) by lia.
    change ((y :: drop p l) !! S (i - p)) with (drop p l !! (i - p)).
    rewrite lookup_drop. f_equal. lia.
Qed.

Lemma lookup_insert_middle_other {A} (l : list A) p y j :
  p <= length l -> j <> p ->
  (take p l ++ y :: drop p l) !! j
  = l !! (if decide (j < p) then j else j - 1).
Proof.
  intros Hp Hj.
  rewrite <- (lookup_insert_middle_shift l p y
                (if decide (j < p) then j else j - 1)) by exact Hp.
  f_equal. destruct (decide (j < p)) as [H|H].
  - rewrite decide_True by exact H. reflexivity.
  - rewrite decide_False by lia. lia.
Qed.

Lemma insert_position_le i n : insert_position i n <= n.
Proof. unfold insert_position. lia. Qed.

(** X20.  With the default [index=-1], [insertval] puts the new entry
    before the last one, not at the end; only into empty lists does it
    insert at the end. *)
Theorem ntvi_insertval_default_before_last {E V}
  (self : NTVI.t E V) name etype val info firsts last :
  NTVI.names self = firsts ++ [last] ->
  NTVI.names (NTVI.insertval self name etype val (-1) info)
  = firsts ++ [name; last].
Proof.
  intros Hnames. unfold NTVI.insertval. cbn [NTVI.names].
  rewrite ntvi_insert_position, Hnames.
  assert (Hpos : insert_position (-1) (length (firsts ++ [last]))
                 = length firsts).
  { unfold insert_position. rewrite length_app. cbn [length].
    change (-1 <? 0)%Z with true. cbv iota. lia. }
  rewrite Hpos, take_app_length, drop_app_length. reflexivity.
Qed.

Lemma ntvi_insertval_default_before_last_witness :
  NTVI.names (NTVI.insertval demo_ntvi
                "c" "int" 3%Z (-1) None)
  = ["a"] ++ ["c"; "b"].
Proof.
  exact (ntvi_insertval_default_before_last
           demo_ntvi "c" "int" 3%Z None
           ["a"] "b" eq_refl).
Defined.

Lemma aligned_insertval {E V} (self : NTVI.t E V) name etype val index info :
  aligned self -> aligned (NTVI.insertval self name etype val index info).
Proof.
  intros [He Hv]. unfold aligned, NTVI.insertval. cbn [NTVI.names NTVI.etypes NTVI.vals].
  rewrite !ntvi_insert_position, !length_app. cbn [length].
  rewrite !length_take, !length_drop, He, Hv. lia.
Qed.

Lemma ntvi_val_at {E V} (self : NTVI.t E V) name i v :
  NTVI.index name (NTVI.names self) = Ok i ->
  NTVI.vals self !! i = Some v ->
  NTVI.val self name = Ok (Some v).
Proof.
  intros Hi Hv. unfold NTVI.val, NTVI.getitem. rewrite Hi. cbn [bind].
  rewrite Hv. reflexivity.
Qed.

Lemma ntvi_val_absent {E V} (self : NTVI.t E V) name :
  name ∉ NTVI.names self -> NTVI.val self name = Ok None.
Proof.
  intros Hnot. unfold NTVI.val. rewrite (ntvi_index_absent _ _ Hnot).
  reflexivity.
Qed.

(** X21.  On an object whose lists have one length [val] never raises:
    it returns the value stored at the first position of the name, and
    None exactly when the name is not in [names]. *)
Theorem ntvi_val_aligned {E V} (self : NTVI.t E V) name :
  aligned self ->
  ((name ∉ NTVI.names self) /\ NTVI.val self name = Ok None)
  \/ (exists i v,
        NTVI.names self !! i = Some name
        /\ (forall j, j < i -> NTVI.names self !! j <> Some name)
        /\ NTVI.vals self !! i = Some v
        /\ NTVI.val self name = Ok (Some v)).
Proof.
  intros [_ Hv].
  destruct (decide (name ∈ NTVI.names self)) as [Hin|Hnot].
  - right. destruct (ntvi_index_present _ _ Hin) as (i & Hi & Hlt).
    destruct (lookup_lt_is_Some_2 (NTVI.vals self) i) as [v Hat]; [lia|].
    exists i, v. destruct (ntvi_index_Ok _ _ _ Hi) as [Hname Hfirst].
    split; [exact Hname|]. split; [exact Hfirst|]. split; [exact Hat|].
    eapply ntvi_val_at; eassumption.
  - left. split; [exact Hnot|]. apply ntvi_val_absent, Hnot.
Qed.

Lemma ntvi_val_aligned_witness :
  (("b" ∉ ["a"; "b"])
   /\ NTVI.val demo_ntvi "b" = Ok None)
  \/ (exists i v,
        ["a"; "b"] !! i = Some "b"
        /\ (forall j, j < i -> ["a"; "b"] !! j <> Some "b")
        /\ [1; 2]%Z !! i = Some v
        /\ NTVI.val demo_ntvi "b"
           = Ok (Some v)).
Proof.
  apply (ntvi_val_aligned demo_ntvi "b").
  split; reflexivity.
Defined.

(** X22.  Insert and look up: after [insertval] of a new name at any
    index, on an object whose lists have one length, [val] returns the
    inserted value for that name and what it returned before for every
    other name; the lists still have one length. *)
Theorem ntvi_insertval_val {E V}
  (self : NTVI.t E V) name etype val index info :
  aligned self ->
  name ∉ NTVI.names self ->
  let self' := NTVI.insertval self name etype val index info in
  aligned self'
  /\ NTVI.val self' name = Ok (Some val)
  /\ forall other, other <> name -> NTVI.val self' other = NTVI.val self other.
Proof.
  intros Hal Hnew self'. split; [apply aligned_insertval, Hal|].
  destruct Hal as [_ Hv].
  set (p := insert_position index (length (NTVI.names self))).
  assert (Hp : p <= length (NTVI.names self)) by apply insert_position_le.
  assert (Hnames : NTVI.names self'
                   = take p (NTVI.names self)
                     ++ name :: drop p (NTVI.names self)).
  { unfold self', NTVI.insertval. cbn [NTVI.names].
    apply ntvi_insert_position. }
  assert (Hvals : NTVI.vals self'
                  = take p (NTVI.vals self) ++ val :: drop p (NTVI.vals self)).
  { unfold self', NTVI.insertval. cbn [NTVI.vals].
    rewrite ntvi_insert_position, Hv. reflexivity. }
  assert (Hlt : length (take p (NTVI.names self)) = p)
    by (rewrite length_take; lia).
  assert (Hlv : length (take p (NTVI.vals self)) = p)
    by (rewrite length_take; lia).
  split.
  - apply (ntvi_val_at self' name p).
    + apply ntvi_index_first.
      * rewrite Hnames. apply list_lookup_middle. symmetry. exact Hlt.
      * intros j Hj Hat. rewrite Hnames, lookup_app_l in Hat by lia.
        apply lookup_take_Some in Hat as [Hat _].
        apply Hnew. eapply list_elem_of_lookup_2, Hat.
    + rewrite Hvals. apply list_lookup_middle. symmetry. exact Hlv.
  - intros other Hother.
    destruct (decide (other ∈ NTVI.names self)) as [Hin|Hnot].
    + destruct (ntvi_index_present _ _ Hin) as (i & Hi & Hilt).
      destruct (lookup_lt_is_Some_2 (NTVI.vals self) i) as [v Hat]; [lia|].
      rewrite (ntvi_val_at self other i v Hi Hat).
      destruct (ntvi_index_Ok _ _ _ Hi) as [Hname Hfirst].
      apply (ntvi_val_at self' other (if decide (i < p) then i else S i)).
      * apply ntvi_index_first.
        -- rewrite Hnames, lookup_insert_middle_shift by lia. exact Hname.
        -- intros j Hj Hatj. rewrite Hnames in Hatj.
           destruct (decide (j = p)) as [-> |Hjp].
           ++ rewrite list_lookup_middle in Hatj by (symmetry; exact Hlt).
              congruence.
           ++ rewrite lookup_insert_middle_other in Hatj by lia.
              apply (Hfirst (if decide (j < p) then j else j - 1));
                [|exact Hatj].
              destruct (decide (i < p)), (decide (j < p)); lia.
      * rewrite Hvals, lookup_insert_middle_shift by lia. exact Hat.
    + rewrite (ntvi_val_absent self other Hnot).
      apply ntvi_val_absent. rewrite Hnames, elem_of_insert_middle.
      intros [H|H]; contradiction.
Qed.

Lemma ntvi_insertval_val_witness :
  let self' := NTVI.insertval demo_ntvi "c" "int" 3%Z 1 (Some "new") in
  aligned self'
  /\ NTVI.val self' "c" = Ok (Some 3%Z)
  /\ forall other, other <> "c" -> NTVI.val self' other = NTVI.val demo_ntvi other.
Proof.
  apply (ntvi_insertval_val demo_ntvi "c" "int" 3%Z 1 (Some "new")).
  - split; reflexivity.
  - apply (bool_decide_eq_true_1 _). reflexivity.
Defined.

Lemma ntvi_index_app_l x l1 l2 i :
  NTVI.index x l1 = Ok i -> NTVI.index x (l1 ++ l2) = Ok i.
Proof.
  revert i. induction l1 as [|y l1 IH]; intros i; [discriminate|].
  cbn [app NTVI.index]. destruct (String.eqb y x); [auto|].
  destruct (NTVI.index x l1) as [i0|]; [|discriminate].
  rewrite (IH i0 eq_refl). auto.
Qed.

Lemma ntvi_index_app_r x l1 l2 :
  x ∉ l1 ->
  NTVI.index x (l1 ++ l2)
  = (i <- NTVI.index x l2 ;; Ok (length l1 + i)).
Proof.
  induction l1 as [|y l1 IH]; intros Hnot.
  - cbn [app length]. destruct (NTVI.index x l2); reflexivity.
  - apply not_elem_of_cons in Hnot as [Hne Hnot].
    cbn [app NTVI.index length]. apply not_eq_sym in Hne.
    apply String.eqb_neq in Hne. rewrite Hne, (IH Hnot).
    destruct (NTVI.index x l2); reflexivity.
Qed.

(** X23.  [replaceval] of a name that is present stores the new value
    where [val] finds it and leaves every other name's value as it
    was; of a name that is absent it raises ValueError, where [val]
    returns None. *)
Theorem ntvi_replaceval_val {E V} (self : NTVI.t E V) name newval :
  aligned self ->
  match NTVI.replaceval self name newval with
  | Ok self' =>
      name ∈ NTVI.names self
      /\ aligned self'
      /\ NTVI.names self' = NTVI.names self
      /\ NTVI.val self' name = Ok (Some newval)
      /\ forall other,
           other <> name -> NTVI.val self' other = NTVI.val self other
  | Err e =>
      (name ∉ NTVI.names self) /\ e = ValueError
      /\ NTVI.val self name = Ok None
  end.
Proof.
  intros [He Hv]. unfold NTVI.replaceval.
  destruct (NTVI.index name (NTVI.names self)) as [i|e] eqn:Hi.
  - cbn [bind]. destruct (ntvi_index_Ok _ _ _ Hi) as [Hname Hfirst].
    pose proof (lookup_lt_Some _ _ _ Hname) as Hlt.
    unfold NTVI.setitem. rewrite bool_decide_eq_true_2 by lia. cbn [bind].
    split; [eapply list_elem_of_lookup_2, Hname|].
    split.
    { split; cbn [NTVI.names NTVI.etypes NTVI.vals]; [exact He|].
      rewrite length_insert. exact Hv. }
    split; [reflexivity|]. split.
    + eapply ntvi_val_at; [exact Hi|]. cbn [NTVI.vals].
      apply list_lookup_insert_eq. lia.
    + intros other Hother. unfold NTVI.val. cbn [NTVI.names NTVI.vals].
      destruct (NTVI.index other (NTVI.names self)) as [j|] eqn:Hj;
        [|reflexivity].
      cbn [bind]. unfold NTVI.getitem.
      rewrite list_lookup_insert_ne; [reflexivity|].
      intros <-. apply ntvi_index_Ok in Hj as [Hother' _]. congruence.
  - cbn [bind]. destruct (ntvi_index_Err _ _ _ Hi) as [-> Hnot].
    split; [exact Hnot|]. split; [reflexivity|].
    apply ntvi_val_absent, Hnot.
Qed.

Lemma ntvi_replaceval_val_witness :
  match NTVI.replaceval demo_ntvi "b" 7%Z with
  | Ok self' =>
      "b" ∈ NTVI.names demo_ntvi
      /\ aligned self'
      /\ NTVI.names self' = NTVI.names demo_ntvi
      /\ NTVI.val self' "b" = Ok (Some 7%Z)
      /\ forall other,
           other <> "b" -> NTVI.val self' other = NTVI.val demo_ntvi other
  | Err e =>
      ("b" ∉ NTVI.names demo_ntvi) /\ e = ValueError
      /\ NTVI.val demo_ntvi "b" = Ok None
  end.
Proof.
  apply (ntvi_replaceval_val demo_ntvi "b" 7%Z). split; reflexivity.
Defined.

(** X24.  [merge] keeps the lists at one length, and looks a name up in
    the first object before the second: [val] on the merged object is
    the first object's value when it has the name, and the second
    object's answer otherwise.  [merge(None)] changes nothing. *)
Theorem ntvi_merge_val {E V} (self other : NTVI.t E V) :
  aligned self -> aligned other ->
  NTVI.merge self None = self
  /\ aligned (NTVI.merge self (Some other))
  /\ forall name,
       NTVI.val (NTVI.merge self (Some other)) name
       = match NTVI.val self name with
         | Ok (Some v) => Ok (Some v)
         | _ => NTVI.val other name
         end.
Proof.
  intros [He Hv] [He' Hv']. split; [reflexivity|]. split.
  { split; cbn [NTVI.merge NTVI.names NTVI.etypes NTVI.vals];
      rewrite !length_app; lia. }
  intros name.
  destruct (decide (name ∈ NTVI.names self)) as [Hin|Hnot].
  - destruct (ntvi_index_present _ _ Hin) as (i & Hi & Hlt).
    destruct (lookup_lt_is_Some_2 (NTVI.vals self) i) as [v Hat]; [lia|].
    rewrite (ntvi_val_at self name i v Hi Hat).
    apply (ntvi_val_at _ name i v); cbn [NTVI.merge NTVI.names NTVI.vals].
    + apply ntvi_index_app_l, Hi.
    + rewrite lookup_app_l by lia. exact Hat.
  - rewrite (ntvi_val_absent self name Hnot).
    unfold NTVI.val. cbn [NTVI.merge NTVI.names NTVI.vals].
    rewrite (ntvi_index_app_r _ _ _ Hnot).
    destruct (NTVI.index name (NTVI.names other)) as [j|e]; [|reflexivity].
    cbn [bind]. unfold NTVI.getitem.
    rewrite lookup_app_r by lia. rewrite <- Hv.
    replace (length (NTVI.vals self) + j - length (NTVI.vals self)) with j
      by lia.
    reflexivity.
Qed.

Lemma ntvi_merge_val_witness :
  NTVI.merge demo_ntvi None = demo_ntvi
  /\ aligned (NTVI.merge demo_ntvi
                (Some (NTVI.mk string Z ["b"; "c"] ["int"; "int"] [5; 6]%Z [])))
  /\ forall name,
       NTVI.val (NTVI.merge demo_ntvi
                   (Some (NTVI.mk string Z ["b"; "c"] ["int"; "int"]
                            [5; 6]%Z [])))
         name
       = match NTVI.val demo_ntvi name with
         | Ok (Some v) => Ok (Some v)
         | _ => NTVI.val (NTVI.mk string Z ["b"; "c"] ["int"; "int"]
                            [5; 6]%Z []) name
         end.
Proof.
  apply (ntvi_merge_val demo_ntvi
           (NTVI.mk string Z ["b"; "c"] ["int"; "int"] [5; 6]%Z []));
    split; reflexivity.
Defined.

(** ** The timer *)

Section timer_facts.
Context {T : Type} (t0 : T) (add sub : T -> T -> T).

Lemma timer_mark_off (self : CpuTimer.timer T) item nesting now :
  CpuTimer.off self = true -> CpuTimer.mark add sub self item nesting now = self.
Proof. intros H. unfold CpuTimer.mark. rewrite H. reflexivity. Qed.

Lemma timer_off_mark (self : CpuTimer.timer T) item nesting now :
  CpuTimer.off (CpuTimer.mark add sub self item nesting now)
  = CpuTimer.off self.
Proof.
  unfold CpuTimer.mark. destruct (CpuTimer.off self) eqn:Hoff; [exact Hoff|].
  destruct item as [[|c item]|]; try reflexivity.
  destruct (CpuTimer.getitem (V:=T) _ _); reflexivity.
Qed.

Lemma timer_off_step (self : CpuTimer.timer T) c :
  CpuTimer.off (CpuTimer.step add sub self c) = CpuTimer.off self.
Proof.
  destruct c as [item nesting now|now]; cbn [CpuTimer.step].
  - apply timer_off_mark.
  - unfold CpuTimer.zero. rewrite timer_off_mark. reflexivity.
Qed.

Lemma timer_off_run calls (self : CpuTimer.timer T) :
  CpuTimer.off (CpuTimer.run add sub self calls) = CpuTimer.off self.
Proof.
  revert self. induction calls as [|c calls IH]; intros self; [reflexivity|].
  unfold CpuTimer.run. cbn [fold_left].
  fold (CpuTimer.run add sub (CpuTimer.step add sub self c) calls).
  rewrite IH. apply timer_off_step.
Qed.

Lemma timer_off_init name on defitems now :
  CpuTimer.off (CpuTimer.init t0 add sub name on defitems now) = negb on.
Proof.
  unfold CpuTimer.init. destruct on; cbn [negb]; [|reflexivity].
  rewrite timer_off_mark. reflexivity.
Qed.

(** X25.  A timer made with [on=False] stays off: after any calls of
    [mark] and [zero], [t] and [ttot] return zero and [print_times]
    prints nothing. *)
Theorem timer_off_is_inert name defitems now calls item :
  let self := CpuTimer.run add sub
                (CpuTimer.init t0 add sub name false defitems now) calls in
  CpuTimer.t t0 self item = t0
  /\ CpuTimer.ttot t0 add self = Ok t0
  /\ CpuTimer.print_times t0 add self = ([], Ok tt).
Proof.
  intros self.
  assert (Hoff : CpuTimer.off self = true).
  { unfold self. rewrite timer_off_run, timer_off_init. reflexivity. }
  unfold CpuTimer.t, CpuTimer.ttot, CpuTimer.print_times. rewrite Hoff.
  auto.
Qed.

Lemma timer_inv_mark (self : CpuTimer.timer T) item nesting now :
  timer_inv self -> timer_inv (CpuTimer.mark add sub self item nesting now).
Proof.
  intros [Hnd Hkeys]. unfold CpuTimer.mark.
  destruct (CpuTimer.off self); [split; assumption|].
  destruct item as [[|c item]|]; try (split; assumption).
  cbn [CpuTimer.ts CpuTimer.clk].
  unfold CpuTimer.getitem.
  destruct (dict_get (String c item) (CpuTimer.ts self)) as [told|] eqn:Hget.
  - split; cbn [CpuTimer.ts CpuTimer.nests].
    + apply NoDup_keys_dict_set, Hnd.
    + rewrite keys_dict_set.
      rewrite bool_decide_eq_true_2; [exact Hkeys|].
      apply dict_get_Some_elem in Hget.
      apply list_elem_of_fmap. exists (String c item, told). auto.
  - split; cbn [CpuTimer.ts CpuTimer.nests].
    + apply NoDup_keys_dict_set, Hnd.
    + rewrite !keys_dict_set, Hkeys. reflexivity.
Qed.

Lemma timer_inv_step (self : CpuTimer.timer T) c :
  timer_inv self -> timer_inv (CpuTimer.step add sub self c).
Proof.
  intros Hinv. destruct c as [item nesting now|now]; cbn [CpuTimer.step].
  - apply timer_inv_mark, Hinv.
  - apply timer_inv_mark. split; [apply NoDup_nil_2|reflexivity].
Qed.

Lemma timer_inv_run calls (self : CpuTimer.timer T) :
  timer_inv self -> timer_inv (CpuTimer.run add sub self calls).
Proof.
  revert self. induction calls as [|c calls IH]; intros self Hinv;
    [exact Hinv|].
  apply (IH (CpuTimer.step add sub self c)), timer_inv_step, Hinv.
Qed.

Lemma timer_inv_init name on defitems now :
  timer_inv (CpuTimer.init t0 add sub name on defitems now).
Proof.
  unfold CpuTimer.init. destruct on; cbn [negb].
  - apply timer_inv_mark. split; [apply NoDup_nil_2|reflexivity].
  - split; [apply NoDup_nil_2|reflexivity].
Qed.

Lemma timer_getitem_key {V} key (d : list (string * V)) :
  key ∈ keys d -> exists v, CpuTimer.getitem key d = Ok v.
Proof.
  intros Hin. unfold CpuTimer.getitem.
  destruct (dict_get key d) as [v|] eqn:Hget; [eauto|].
  apply dict_get_None in Hget. contradiction.
Qed.

Lemma timer_total_Ok (self : CpuTimer.timer T) :
  exists x, CpuTimer.total t0 add self = Ok x.
Proof.
  unfold CpuTimer.total.
  destruct (mapM_total (fun j => CpuTimer.getitem j (CpuTimer.ts self))
              (keys (CpuTimer.ts self))) as [vs Hvs].
  - apply Forall_forall. intros j Hj. apply timer_getitem_key, Hj.
  - rewrite Hvs. cbn [bind]. eauto.
Qed.

Lemma timer_bind_Ok {A B} (m : CpuTimer.out T A) (k : A -> CpuTimer.out T B)
    o a o' r :
  m = (o, Ok a) -> k a = (o', r) -> CpuTimer.bind m k = (o ++ o', r).
Proof. intros -> Hk. cbn [CpuTimer.bind]. rewrite Hk. reflexivity. Qed.

Lemma timer_defitems_loop (ts : list (string * T)) ttot defs :
  exists o,
    CpuTimer.for_each defs
      (fun '(item, desc) =>
         if CpuTimer.contains item ts then
           CpuTimer.bind (CpuTimer.lift (CpuTimer.getitem item ts))
             (fun t => CpuTimer.print_times1 desc t ttot false)
         else CpuTimer.ret tt)
    = (o, Ok tt)
    /\ length o
       = length (List.filter (fun d => CpuTimer.contains (fst d) ts) defs).
Proof.
  induction defs as [|[item desc] defs (o & Hloop & Hlen)].
  - exists []. split; reflexivity.
  - cbn [CpuTimer.for_each List.filter fst].
    unfold CpuTimer.contains at 1 3, CpuTimer.getitem.
    destruct (dict_get item ts) as [v|].
    + exists (CpuTimer.Item desc v ttot false :: o). split.
      * erewrite timer_bind_Ok; [|reflexivity|exact Hloop]. reflexivity.
      * cbn [length]. rewrite Hlen. reflexivity.
    + exists o. split; [|exact Hlen].
      erewrite timer_bind_Ok; [|reflexivity|exact Hloop]. reflexivity.
Qed.

Lemma timer_nested_loop (ttot : T) (l : list (string * T)) :
  CpuTimer.for_each l
    (fun '(desc2, t) => CpuTimer.print_times1 desc2 t ttot true)
  = (map (fun '(desc2, t) => CpuTimer.Item desc2 t ttot true) l, Ok tt).
Proof.
  induction l as [|[desc2 t] l IH]; [reflexivity|].
  cbn [CpuTimer.for_each map].
  erewrite timer_bind_Ok; [|reflexivity|exact IH]. reflexivity.
Qed.

Lemma timer_print_additems (self : CpuTimer.timer T) ttot items :
  keys (CpuTimer.nests self) = keys (CpuTimer.ts self) ->
  Forall (fun item => item ∈ keys (CpuTimer.ts self)) items ->
  forall acc,
    exists o acc',
      CpuTimer.print_additems self ttot items acc = (o, Ok acc')
      /\ length o + length acc' = length items + length acc.
Proof.
  intros Hkeys. induction 1 as [|item items Hitem _ IH]; intros acc.
  - exists [], acc. split; reflexivity.
  - cbn [CpuTimer.print_additems].
    destruct (timer_getitem_key item (CpuTimer.ts self) Hitem) as [t Ht].
    destruct (timer_getitem_key item (CpuTimer.nests self)) as [n Hn].
    { rewrite Hkeys. exact Hitem. }
    rewrite Ht, Hn. cbn [CpuTimer.lift CpuTimer.bind].
    assert (Hdirect :
             exists o acc',
               CpuTimer.bind (CpuTimer.print_times1 item t ttot false)
                 (fun _ => CpuTimer.print_additems self ttot items acc)
               = (o, Ok acc')
               /\ length o + length acc' = S (length items) + length acc).
    { destruct (IH acc) as (o & acc' & Hrun & Hlen).
      exists (CpuTimer.Item item t ttot false :: o), acc'. split.
      - erewrite timer_bind_Ok; [|reflexivity|exact Hrun]. reflexivity.
      - cbn [length]. lia. }
    destruct n as [[|c n]|].
    + destruct Hdirect as (o & acc' & Hrun & Hlen).
      exists o, acc'. cbn [app]. cbn [length]. split; [|exact Hlen].
      destruct (CpuTimer.bind _ _) as [o1 r1]. injection Hrun as -> ->.
      reflexivity.
    + destruct (IH (acc ++ [(String c n, item, t)]))
        as (o & acc' & Hrun & Hlen).
      exists o, acc'. rewrite Hrun. cbn [app]. split; [reflexivity|].
      rewrite length_app in Hlen. cbn [length] in *. lia.
    + destruct Hdirect as (o & acc' & Hrun & Hlen).
      exists o, acc'. cbn [app]. cbn [length]. split; [|exact Hlen].
      destruct (CpuTimer.bind _ _) as [o1 r1]. injection Hrun as -> ->.
      reflexivity.
Qed.

Lemma timer_sort_insert_length (x : string * string * T) l :
  length (CpuTimer.sort_insert x l) = S (length l).
Proof.
  induction l as [|y l IH]; [reflexivity|]. cbn [CpuTimer.sort_insert].
  destruct (String.ltb _ _); cbn [length]; [rewrite IH|]; reflexivity.
Qed.

Lemma timer_print_times2_length (l : list (string * string * T)) :
  length (CpuTimer.print_times2 l) = length l.
Proof.
  unfold CpuTimer.print_times2. rewrite length_map.
  assert (Hsort : forall l' : list (string * string * T),
             length (CpuTimer.sort l') = length l').
  { induction l' as [|x l' IH]; [reflexivity|].
    unfold CpuTimer.sort in *. cbn [foldr length].
    rewrite timer_sort_insert_length, IH. reflexivity. }
  rewrite Hsort, length_map. reflexivity.
Qed.

Lemma timer_print_times_on (self : CpuTimer.timer T) :
  CpuTimer.off self = false ->
  keys (CpuTimer.nests self) = keys (CpuTimer.ts self) ->
  exists x lines,
    CpuTimer.total t0 add self = Ok x
    /\ CpuTimer.print_times t0 add self
       = (CpuTimer.Rule :: CpuTimer.Total (CpuTimer.name self) x
            :: lines ++ [CpuTimer.Rule], Ok tt)
    /\ length lines
       = length (List.filter
                   (fun d => CpuTimer.contains (fst d) (CpuTimer.ts self))
                   (CpuTimer.defitems self))
         + length (List.filter
                     (fun item =>
                        negb (bool_decide
                                (item ∈ map fst (CpuTimer.defitems self))))
                     (keys (CpuTimer.ts self))).
Proof.
  intros Hoff Hkeys. destruct (timer_total_Ok self) as [x Hx].
  unfold CpuTimer.print_times. rewrite Hoff, Hx.
  destruct (timer_defitems_loop (CpuTimer.ts self) x (CpuTimer.defitems self))
    as (o1 & Hdefs & Hlen1).
  set (additems := List.filter _ (keys (CpuTimer.ts self))).
  destruct (timer_print_additems self x additems Hkeys) with (acc := @nil (string * string * T))
    as (o2 & nestitems & Hadd & Hlen2).
  { apply Forall_forall. intros item Hin. unfold additems in Hin.
    apply list_elem_of_In, List.filter_In in Hin as [Hin _].
    apply list_elem_of_In, Hin. }
  exists x, (o1 ++ o2
             ++ map (fun '(desc2, t) => CpuTimer.Item desc2 t x true)
                  (CpuTimer.print_times2 nestitems)).
  split; [reflexivity|]. split.
  - etransitivity.
    { eapply timer_bind_Ok; [reflexivity|].
      eapply timer_bind_Ok; [reflexivity|].
      eapply timer_bind_Ok; [reflexivity|].
      eapply timer_bind_Ok; [exact Hdefs|].
      eapply timer_bind_Ok; [exact Hadd|].
      eapply timer_bind_Ok; [apply timer_nested_loop|]. reflexivity. }
    cbn [app]. rewrite <- !app_assoc. reflexivity.
  - rewrite !length_app, length_map, timer_print_times2_length, Hlen1.
    cbn [length] in Hlen2. lia.
Qed.

(** X26.  A timer never fails on its own records, whatever was marked:
    after any calls of [mark] and [zero], [ttot] returns a time and
    [print_times] ends without KeyError, its output starting and
    ending with the rule. *)
Theorem timer_print_times_never_fails name on defitems now calls :
  let self := CpuTimer.run add sub
                (CpuTimer.init t0 add sub name on defitems now) calls in
  (exists x, CpuTimer.ttot t0 add self = Ok x)
  /\ exists lines, CpuTimer.print_times t0 add self = (lines, Ok tt).
Proof.
  intros self.
  assert (Hinv : timer_inv self)
    by apply timer_inv_run, timer_inv_init.
  destruct Hinv as [_ Hkeys].
  destruct (CpuTimer.off self) eqn:Hoff.
  - unfold CpuTimer.ttot, CpuTimer.print_times. rewrite Hoff. eauto.
  - destruct (timer_print_times_on self Hoff Hkeys)
      as (x & lines & Hx & Hprint & _).
    unfold CpuTimer.ttot. rewrite Hoff. eauto.
Qed.

Lemma timer_defitems_mark (self : CpuTimer.timer T) item nesting now :
  CpuTimer.defitems (CpuTimer.mark add sub self item nesting now)
  = CpuTimer.defitems self.
Proof.
  unfold CpuTimer.mark. destruct (CpuTimer.off self); [reflexivity|].
  destruct item as [[|c item]|]; cbn [CpuTimer.defitems]; try reflexivity.
  destruct (CpuTimer.getitem (V:=T) _ _); reflexivity.
Qed.

Lemma timer_defitems_run calls (self : CpuTimer.timer T) :
  CpuTimer.defitems (CpuTimer.run add sub self calls)
  = CpuTimer.defitems self.
Proof.
  revert self. induction calls as [|c calls IH]; intros self; [reflexivity|].
  unfold CpuTimer.run. cbn [fold_left].
  fold (CpuTimer.run add sub (CpuTimer.step add sub self c) calls).
  rewrite IH. destruct c as [item nesting t|t]; cbn [CpuTimer.step].
  - apply timer_defitems_mark.
  - unfold CpuTimer.zero. rewrite timer_defitems_mark. reflexivity.
Qed.

(** X28.  The nesting of an item is the one given when the item was
    first marked: once the item has a time, no later call of [mark]
    changes its nesting, whatever nesting that call names. *)
Theorem timer_nesting_fixed_at_first_mark
  (self : CpuTimer.timer T) calls item :
  dict_get item (CpuTimer.ts self) <> None ->
  forallb CpuTimer.is_mark calls = true ->
  dict_get item (CpuTimer.nests (CpuTimer.run add sub self calls))
  = dict_get item (CpuTimer.nests self).
Proof.
  revert self. induction calls as [|c calls IH]; intros self Hin Hmarks;
    [reflexivity|].
  cbn [forallb] in Hmarks. apply andb_true_iff in Hmarks as [Hc Hmarks].
  destruct c as [i n now|now]; [|discriminate].
  unfold CpuTimer.run. cbn [fold_left CpuTimer.step].
  fold (CpuTimer.run add sub (CpuTimer.mark add sub self i n now) calls).
  assert (Hstep : dict_get item
                    (CpuTimer.ts (CpuTimer.mark add sub self i n now))
                  <> None
                  /\ dict_get item
                       (CpuTimer.nests (CpuTimer.mark add sub self i n now))
                     = dict_get item (CpuTimer.nests self)).
  { unfold CpuTimer.mark. destruct (CpuTimer.off self); [auto|].
    destruct i as [[|c i]|]; cbn [CpuTimer.ts CpuTimer.nests CpuTimer.clk];
      auto.
    unfold CpuTimer.getitem.
    destruct (dict_get (String c i) (CpuTimer.ts self)) as [told|] eqn:Hget;
      cbn [CpuTimer.ts CpuTimer.nests].
    - split; [|reflexivity].
      destruct (String.eqb_spec (String c i) item) as [<- |Hne].
      + rewrite dict_get_set_eq. discriminate.
      + rewrite dict_get_set_ne by exact Hne. exact Hin.
    - assert (Hne : String c i <> item) by congruence.
      rewrite !dict_get_set_ne by exact Hne. auto. }
  destruct Hstep as [Hin' Hsame].
  rewrite (IH _ Hin' Hmarks). exact Hsame.
Qed.

End timer_facts.

Lemma timer_nesting_fixed_at_first_mark_witness :
  dict_get "inner"
    (CpuTimer.nests
       (CpuTimer.run Z.add Z.sub
          (CpuTimer.run Z.add Z.sub
             (CpuTimer.init 0%Z Z.add Z.sub "demo" true None 1%Z) demo_calls)
          [CpuTimer.Mark (Some "inner") (Some "9") 12%Z]))
  = dict_get "inner"
      (CpuTimer.nests
         (CpuTimer.run Z.add Z.sub
            (CpuTimer.init 0%Z Z.add Z.sub "demo" true None 1%Z)
            demo_calls)).
Proof.
  apply (timer_nesting_fixed_at_first_mark Z.add Z.sub
           (CpuTimer.run Z.add Z.sub
              (CpuTimer.init 0%Z Z.add Z.sub "demo" true None 1%Z) demo_calls)
           [CpuTimer.Mark (Some "inner") (Some "9") 12%Z] "inner").
  - discriminate.
  - reflexivity.
Defined.

Lemma timer_sort_insert_perm {T} (x : string * string * T) l :
  Permutation (CpuTimer.sort_insert x l) (x :: l).
Proof.
  induction l as [|y l IH]; [reflexivity|]. cbn [CpuTimer.sort_insert].
  destruct (String.ltb _ _); [|reflexivity].
  rewrite IH. apply perm_swap.
Qed.

Lemma timer_sort_insert_sorted {T} (x : string * string * T) l :
  Sorted (fun a b => String.ltb (fst (fst b)) (fst (fst a)) = false) l ->
  Sorted (fun a b => String.ltb (fst (fst b)) (fst (fst a)) = false)
    (CpuTimer.sort_insert x l).
Proof.
  induction 1 as [|y l Hsorted IH Hhd].
  - repeat constructor.
  - cbn [CpuTimer.sort_insert].
    destruct (String.ltb (fst (fst y)) (fst (fst x))) eqn:Hlt.
    + constructor; [exact IH|].
      assert (Hyx : String.ltb (fst (fst x)) (fst (fst y)) = false).
      { unfold String.ltb in *. rewrite String.compare_antisym.
        destruct (String.compare (fst (fst y)) (fst (fst x)));
          try discriminate. reflexivity. }
      destruct Hhd as [|z l Hyz]; cbn [CpuTimer.sort_insert].
      * constructor. exact Hyx.
      * destruct (String.ltb (fst (fst z)) (fst (fst x)));
          constructor; assumption.
    + constructor; [constructor; assumption|]. constructor. exact Hlt.
Qed.

Lemma timer_sort_insert_stable {T} (x : string * string * T) l k :
  List.filter (fun y => String.eqb (fst (fst y)) k)
    (CpuTimer.sort_insert x l)
  = List.filter (fun y => String.eqb (fst (fst y)) k) (x :: l).
Proof.
  induction l as [|y l IH]; [reflexivity|]. cbn [CpuTimer.sort_insert].
  destruct (String.ltb (fst (fst y)) (fst (fst x))) eqn:Hlt; [|reflexivity].
  cbn [List.filter] in *. rewrite IH.
  destruct (String.eqb_spec (fst (fst x)) k) as [Hx|Hx]; [|reflexivity].
  destruct (String.eqb_spec (fst (fst y)) k) as [Hy|Hy]; [|reflexivity].
  exfalso. rewrite Hx, Hy in Hlt. unfold String.ltb in Hlt.
  assert (Hrefl : String.compare k k = Eq).
  { pose proof (String.compare_antisym k k) as Ha.
    destruct (String.compare k k); try discriminate; reflexivity. }
  rewrite Hrefl in Hlt. discriminate.
Qed.

Lemma timer_sort_insert_map {T} (f : string * string * T -> string * string * T)
    x l :
  (forall y, fst (fst (f y)) = fst (fst y)) ->
  CpuTimer.sort_insert (f x) (map f l) = map f (CpuTimer.sort_insert x l).
Proof.
  intros Hkey. induction l as [|y l IH]; [reflexivity|].
  cbn [map CpuTimer.sort_insert]. rewrite !Hkey.
  destruct (String.ltb _ _); cbn [map]; [rewrite IH|]; reflexivity.
Qed.

Lemma timer_sort_map {T} (f : string * string * T -> string * string * T) l :
  (forall y, fst (fst (f y)) = fst (fst y)) ->
  CpuTimer.sort (map f l) = map f (CpuTimer.sort l).
Proof.
  intros Hkey. unfold CpuTimer.sort.
  induction l as [|x l IH]; [reflexivity|].
  cbn [map foldr]. rewrite IH. apply timer_sort_insert_map, Hkey.
Qed.

(** X29.  The nested items are listed in the order of their nestings,
    as strings; items with equal nestings keep the order in which they
    were given; and each description is its nesting, indented by three
    spaces for every dot in it, a space and the item. *)
Theorem timer_print_times2_order {T} (nestitems : list (string * string * T)) :
  exists sorted,
    Permutation sorted nestitems
    /\ Sorted (fun a b => String.ltb (fst (fst b)) (fst (fst a)) = false)
         sorted
    /\ (forall k,
          List.filter (fun y => String.eqb (fst (fst y)) k) sorted
          = List.filter (fun y => String.eqb (fst (fst y)) k) nestitems)
    /\ CpuTimer.print_times2 nestitems
       = map (fun '(nesting, desc, t) =>
                (CpuTimer.times (CpuTimer.count "." nesting) "   "
                 +:+ nesting +:+ " " +:+ desc, t))
           sorted.
Proof.
  exists (CpuTimer.sort nestitems). split; [|split; [|split]].
  - unfold CpuTimer.sort.
    induction nestitems as [|x l IH]; [reflexivity|].
    cbn [foldr]. rewrite timer_sort_insert_perm, IH. reflexivity.
  - unfold CpuTimer.sort.
    induction nestitems as [|x l IH]; [constructor|].
    cbn [foldr]. apply timer_sort_insert_sorted, IH.
  - intros k. unfold CpuTimer.sort.
    induction nestitems as [|x l IH]; [reflexivity|].
    cbn [foldr]. rewrite timer_sort_insert_stable. cbn [List.filter].
    rewrite IH. reflexivity.
  - unfold CpuTimer.print_times2.
    rewrite timer_sort_map by (intros [[n d] t]; reflexivity).
    rewrite map_map. apply map_ext. intros [[n d] t]. reflexivity.
Qed.

Lemma timer_name_mark {T} (add sub : T -> T -> T) (self : CpuTimer.timer T)
    item nesting now :
  CpuTimer.name (CpuTimer.mark add sub self item nesting now)
  = CpuTimer.name self.
Proof.
  unfold CpuTimer.mark. destruct (CpuTimer.off self); [reflexivity|].
  destruct item as [[|c item]|]; cbn [CpuTimer.name]; try reflexivity.
  destruct (CpuTimer.getitem (V:=T) _ _); reflexivity.
Qed.

Lemma timer_name_run {T} (add sub : T -> T -> T) calls
    (self : CpuTimer.timer T) :
  CpuTimer.name (CpuTimer.run add sub self calls) = CpuTimer.name self.
Proof.
  revert self. induction calls as [|c calls IH]; intros self; [reflexivity|].
  unfold CpuTimer.run. cbn [fold_left].
  fold (CpuTimer.run add sub (CpuTimer.step add sub self c) calls).
  rewrite IH. destruct c as [item nesting t|t]; cbn [CpuTimer.step].
  - apply timer_name_mark.
  - unfold CpuTimer.zero. rewrite timer_name_mark. reflexivity.
Qed.

Lemma timer_bind_lift {T A B} (a : A) (k : A -> CpuTimer.out T B) :
  CpuTimer.bind (CpuTimer.lift (Ok a)) k = k a.
Proof.
  unfold CpuTimer.lift. cbn [CpuTimer.bind]. destruct (k a). reflexivity.
Qed.

Lemma timer_defitems_loop_lines {T} (t0 : T) (self : CpuTimer.timer T) ttot
    defs :
  CpuTimer.off self = false ->
  (forall d, d ∈ defs ->
             dict_get (fst d) (CpuTimer.defitems self) = Some (snd d)) ->
  CpuTimer.for_each defs
    (fun '(item, desc) =>
       if CpuTimer.contains item (CpuTimer.ts self) then
         CpuTimer.bind
           (CpuTimer.lift (CpuTimer.getitem item (CpuTimer.ts self)))
           (fun t => CpuTimer.print_times1 desc t ttot false)
       else CpuTimer.ret tt)
  = (map (timer_line t0 self ttot)
       (List.filter (fun item => CpuTimer.contains item (CpuTimer.ts self))
          (map fst defs)),
     Ok tt).
Proof.
  intros Hoff. induction defs as [|[item desc] defs IH]; intros Hdefs;
    [reflexivity|].
  assert (Hrest : forall d, d ∈ defs ->
                    dict_get (fst d) (CpuTimer.defitems self) = Some (snd d)).
  { intros d Hd. apply Hdefs, list_elem_of_further, Hd. }
  pose proof (Hdefs (item, desc) (list_elem_of_here _ _)) as Hdesc.
  cbn [fst snd] in Hdesc.
  cbn [CpuTimer.for_each map fst List.filter].
  unfold CpuTimer.contains at 1 3, CpuTimer.getitem.
  destruct (dict_get item (CpuTimer.ts self)) as [v|] eqn:Hget.
  - erewrite timer_bind_Ok; [|reflexivity|exact (IH Hrest)].
    cbn [map app]. unfold timer_line at 2, CpuTimer.t.
    rewrite Hdesc, Hoff, Hget. reflexivity.
  - erewrite timer_bind_Ok; [|reflexivity|exact (IH Hrest)]. reflexivity.
Qed.

Lemma timer_print_additems_lines {T} (t0 : T) (self : CpuTimer.timer T) ttot
    items :
  CpuTimer.off self = false ->
  keys (CpuTimer.nests self) = keys (CpuTimer.ts self) ->
  Forall (fun item => item ∈ keys (CpuTimer.ts self)
                      /\ dict_get item (CpuTimer.defitems self) = None)
    items ->
  forall acc,
    CpuTimer.print_additems self ttot items acc
    = (map (timer_line t0 self ttot)
         (List.filter (fun item => negb (timer_nested self item)) items),
       Ok (acc
           ++ map (fun item =>
                     (timer_nesting self item, item, CpuTimer.t t0 self item))
                (List.filter (timer_nested self) items))).
Proof.
  intros Hoff Hkeys.
  induction 1 as [|item items [Hitem Hdef] _ IH]; intros acc.
  - cbn [CpuTimer.print_additems List.filter map]. rewrite app_nil_r.
    reflexivity.
  - cbn [CpuTimer.print_additems List.filter].
    unfold CpuTimer.getitem.
    destruct (dict_get item (CpuTimer.ts self)) as [t|] eqn:Ht.
    2:{ apply dict_get_None in Ht. contradiction. }
    destruct (dict_get item (CpuTimer.nests self)) as [n|] eqn:Hn.
    2:{ apply dict_get_None in Hn. rewrite Hkeys in Hn. contradiction. }
    rewrite !timer_bind_lift.
    assert (Htime : CpuTimer.t t0 self item = t).
    { unfold CpuTimer.t. rewrite Hoff, Ht. reflexivity. }
    assert (Hdirect :
             timer_nested self item = false ->
             CpuTimer.bind (CpuTimer.print_times1 item t ttot false)
               (fun _ => CpuTimer.print_additems self ttot items acc)
             = (map (timer_line t0 self ttot)
                  (if negb (timer_nested self item)
                   then item :: List.filter
                                  (fun item => negb (timer_nested self item))
                                  items
                   else List.filter
                          (fun item => negb (timer_nested self item)) items),
                Ok (acc
                    ++ map (fun item =>
                              (timer_nesting self item, item,
                               CpuTimer.t t0 self item))
                         (if timer_nested self item
                          then item :: List.filter (timer_nested self) items
                          else List.filter (timer_nested self) items)))).
    { intros Hnot. rewrite Hnot. cbn [negb map].
      erewrite timer_bind_Ok; [|reflexivity|apply IH].
      unfold timer_line at 2. rewrite Hdef, Hnot, Htime. reflexivity. }
    destruct n as [[|c n]|].
    + apply Hdirect. unfold timer_nested. rewrite Hn. reflexivity.
    + assert (Hyes : timer_nested self item = true)
        by (unfold timer_nested; rewrite Hn; reflexivity).
      rewrite Hyes. cbn [negb map]. rewrite IH, <- app_assoc. cbn [app].
      unfold timer_nesting at 2. rewrite Hn, Htime. reflexivity.
    + apply Hdirect. unfold timer_nested. rewrite Hn. reflexivity.
Qed.

Lemma timer_filter_split (p : string -> bool) l :
  Permutation (List.filter (fun x => negb (p x)) l ++ List.filter p l) l.
Proof.
  induction l as [|x l IH]; [reflexivity|]. cbn [List.filter].
  destruct (p x); cbn [negb app].
  - rewrite <- Permutation_middle, IH. reflexivity.
  - rewrite IH. reflexivity.
Qed.

Lemma timer_sort_perm {T} (l : list (string * string * T)) :
  Permutation (CpuTimer.sort l) l.
Proof.
  unfold CpuTimer.sort. induction l as [|x l IH]; [reflexivity|].
  cbn [foldr]. rewrite timer_sort_insert_perm, IH. reflexivity.
Qed.

(** X27.  Every item that was timed is reported once: for a timer that
    is on and whose predefined items are distinct, [print_times]
    prints the rule, the line of the total with the name of the timer,
    one line for each item in [ts] and the rule.  The items are taken
    in some order that holds each key of [ts] exactly once, and the
    line of an item carries the time that [t] returns for it. *)
Theorem timer_report_each_item_once {T} (t0 : T) (add sub : T -> T -> T)
    name defitems now calls :
  NoDup (map fst defitems) ->
  let self := CpuTimer.run add sub
                (CpuTimer.init t0 add sub name true (Some defitems) now)
                calls in
  exists x order,
    CpuTimer.ttot t0 add self = Ok x
    /\ Permutation order (keys (CpuTimer.ts self))
    /\ NoDup order
    /\ CpuTimer.print_times t0 add self
       = (CpuTimer.Rule :: CpuTimer.Total name x
            :: map (timer_line t0 self x) order ++ [CpuTimer.Rule],
          Ok tt)
    /\ length (fst (CpuTimer.print_times t0 add self))
       = 3 + length (CpuTimer.ts self).
Proof.
  intros Hdefs self.
  assert (Hinv : timer_inv self)
    by apply timer_inv_run, timer_inv_init.
  destruct Hinv as [Hnd Hkeys].
  assert (Hoff : CpuTimer.off self = false).
  { unfold self. rewrite timer_off_run, timer_off_init. reflexivity. }
  assert (Hd : CpuTimer.defitems self = defitems).
  { unfold self. rewrite timer_defitems_run. unfold CpuTimer.init.
    cbn [negb]. rewrite timer_defitems_mark. reflexivity. }
  assert (Hname : CpuTimer.name self = name).
  { unfold self. rewrite timer_name_run. unfold CpuTimer.init.
    cbn [negb]. rewrite timer_name_mark. reflexivity. }
  destruct (timer_total_Ok t0 add self) as [x Hx].
  set (ks := keys (CpuTimer.ts self)) in *.
  set (dk := map fst defitems).
  set (order1 := List.filter
                   (fun item => CpuTimer.contains item (CpuTimer.ts self))
                   dk).
  set (additems := List.filter
                     (fun item => negb (bool_decide (item ∈ dk))) ks).
  set (order2 := List.filter (fun item => negb (timer_nested self item))
                   additems).
  set (nestitems := map (fun item =>
                           (timer_nesting self item, item,
                            CpuTimer.t t0 self item))
                      (List.filter (timer_nested self) additems)).
  set (order3 := map (fun e : string * string * T => snd (fst e))
                   (CpuTimer.sort nestitems)).
  assert (Hcontains : forall k,
             CpuTimer.contains k (CpuTimer.ts self)
             = bool_decide (k ∈ ks)).
  { intros k. unfold CpuTimer.contains.
    destruct (dict_get k (CpuTimer.ts self)) as [v|] eqn:Hget.
    - symmetry. apply bool_decide_eq_true_2.
      apply dict_get_Some_elem in Hget.
      apply list_elem_of_fmap. exists (k, v). auto.
    - symmetry. apply bool_decide_eq_false_2, dict_get_None, Hget. }
  assert (Hperm : Permutation (order1 ++ order2 ++ order3) ks).
  { assert (H3 : Permutation order3
                   (List.filter (timer_nested self) additems)).
    { unfold order3. rewrite timer_sort_perm. unfold nestitems.
      rewrite map_map. cbn [fst snd]. rewrite map_id. reflexivity. }
    rewrite H3. unfold order2.
    rewrite (timer_filter_split (timer_nested self) additems).
    assert (H1 : Permutation order1
                   (List.filter (fun item => bool_decide (item ∈ dk)) ks)).
    { apply NoDup_Permutation.
      - apply NoDup_ListNoDup, List.NoDup_filter, NoDup_ListNoDup, Hdefs.
      - apply NoDup_ListNoDup, List.NoDup_filter, NoDup_ListNoDup, Hnd.
      - intros k. unfold order1.
        rewrite !list_elem_of_In, !List.filter_In, Hcontains.
        rewrite !bool_decide_eq_true, <- !list_elem_of_In. tauto. }
    rewrite H1, Permutation_app_comm. unfold additems.
    apply (timer_filter_split (fun item => bool_decide (item ∈ dk))). }
  exists x, (order1 ++ order2 ++ order3).
  assert (Hprint :
           CpuTimer.print_times t0 add self
           = (CpuTimer.Rule :: CpuTimer.Total name x
                :: map (timer_line t0 self x) (order1 ++ order2 ++ order3)
                ++ [CpuTimer.Rule], Ok tt)).
  { unfold CpuTimer.print_times. rewrite Hoff, Hx, Hname, Hd.
    fold dk. fold ks. fold additems.
    etransitivity.
    { eapply timer_bind_Ok; [reflexivity|].
      eapply timer_bind_Ok; [reflexivity|].
      eapply timer_bind_Ok; [reflexivity|].
      eapply timer_bind_Ok.
      { apply (timer_defitems_loop_lines t0 self x defitems Hoff).
        intros [item desc] Hin. rewrite Hd. cbn [fst snd].
        apply dict_get_elem_NoDup; assumption. }
      eapply timer_bind_Ok.
      { apply (timer_print_additems_lines t0 self x additems Hoff Hkeys).
        apply Forall_forall. intros item Hin. unfold additems in Hin.
        apply list_elem_of_In, List.filter_In in Hin as [Hin Hnot].
        split; [apply list_elem_of_In, Hin|].
        rewrite Hd. apply dict_get_None.
        apply negb_true_iff, bool_decide_eq_false in Hnot. exact Hnot. }
      eapply timer_bind_Ok; [apply timer_nested_loop|]. reflexivity. }
    cbn [app]. f_equal. f_equal. f_equal.
    rewrite !map_app, <- !app_assoc. f_equal. f_equal. f_equal.
    fold nestitems. unfold order3, CpuTimer.print_times2.
    rewrite timer_sort_map by (intros [[n d] t]; reflexivity).
    rewrite !map_map. apply map_ext_in. intros [[n d] t] Hin.
    apply (Permutation_in _ (timer_sort_perm nestitems)) in Hin.
    unfold nestitems in Hin. apply in_map_iff in Hin as (item & [= <- <- <-] & Hin).
    apply List.filter_In in Hin as [Hin Hnested].
    unfold additems in Hin. apply List.filter_In in Hin as [_ Hnot].
    cbn [fst snd]. unfold timer_line.
    assert (Hdef : dict_get item (CpuTimer.defitems self) = None).
    { rewrite Hd. apply dict_get_None.
      apply negb_true_iff, bool_decide_eq_false in Hnot. exact Hnot. }
    rewrite Hdef, Hnested. reflexivity. }
  split; [unfold CpuTimer.ttot; rewrite Hoff; exact Hx|].
  split; [exact Hperm|]. split.
  { rewrite Hperm. exact Hnd. }
  split; [exact Hprint|].
  rewrite Hprint. cbn [fst length]. rewrite length_app, length_map.
  rewrite (Permutation_length Hperm). unfold ks, keys. rewrite length_map.
  cbn [length]. lia.
Qed.

Lemma timer_report_each_item_once_witness :
  exists x order,
    CpuTimer.ttot 0%Z Z.add
      (CpuTimer.run Z.add Z.sub
         (CpuTimer.init 0%Z Z.add Z.sub "demo" true
            (Some [("e4a", "1e4 additions"); ("e6a", "1e6 additions")]) 1%Z)
         demo_calls)
    = Ok x
    /\ Permutation order ["e4a"; "inner"]
    /\ NoDup order
    /\ CpuTimer.print_times 0%Z Z.add
         (CpuTimer.run Z.add Z.sub
            (CpuTimer.init 0%Z Z.add Z.sub "demo" true
               (Some [("e4a", "1e4 additions"); ("e6a", "1e6 additions")])
               1%Z)
            demo_calls)
       = (CpuTimer.Rule :: CpuTimer.Total "demo" x
            :: map (timer_line 0%Z
                      (CpuTimer.run Z.add Z.sub
                         (CpuTimer.init 0%Z Z.add Z.sub "demo" true
                            (Some [("e4a", "1e4 additions");
                                   ("e6a", "1e6 additions")]) 1%Z)
                         demo_calls) x) order
            ++ [CpuTimer.Rule],
          Ok tt)
    /\ length (fst (CpuTimer.print_times 0%Z Z.add
                      (CpuTimer.run Z.add Z.sub
                         (CpuTimer.init 0%Z Z.add Z.sub "demo" true
                            (Some [("e4a", "1e4 additions");
                                   ("e6a", "1e6 additions")]) 1%Z)
                         demo_calls)))
       = 3 + 2.
Proof.
  apply (timer_report_each_item_once 0%Z Z.add Z.sub "demo"
           [("e4a", "1e4 additions"); ("e6a", "1e6 additions")] 1%Z
           demo_calls).
  apply (bool_decide_eq_true_1 _). reflexivity.
Defined.
